(** * goog.net.streams.xhrStreamReader

    A shallow embedding of [closure/goog/net/streams/xhrstreamreader.js]:
    the incremental reader that watches one [XhrIo], selects a stream parser
    from the response headers, feeds it the new part of the response text at
    every ready-state change and reports a status.

    The reader is an object with mutable fields; here it is a record threaded
    through a state-and-exception monad.  Every call that leaves the reader
    (status handler, data handler, parser, [abort], [dispose]) is recorded
    in a trace, so that statements about "what was called, with
    what, in which order" are statements about that trace.  The calls of
    [goog.log] change nothing the reader or its callers can see and are left
    out, but for the evaluation of their arguments where it can throw: the
    two [catch] blocks build their message from the value they caught. *)

From Stdlib Require Import ZArith List String Ascii Bool Arith Lia.
Import ListNotations.

Set Implicit Arguments.

(** ** JavaScript strings

    Header values reach the reader as byte strings (every code unit is below
    256), the response text as a string of which the reader only uses the
    length and suffixes. *)

Module JsString.

(** [String.prototype.toLowerCase] on one code unit below 256: the ASCII
    capitals and the Latin-1 capitals (all of 0xC0-0xDE but the
    multiplication sign 0xD7) move up by 32. *)
Definition lower_code (n : nat) : nat :=
  if ((65 <=? n) && (n <=? 90))
     || ((192 <=? n) && (n <=? 222) && negb (n =? 215))
  then n + 32 else n.

Definition toLowerChar (c : ascii) : ascii :=
  ascii_of_nat (lower_code (nat_of_ascii c)).

Fixpoint toLowerCase (s : string) : string :=
  match s with
  | EmptyString => EmptyString
  | String c s' => String (toLowerChar c) (toLowerCase s')
  end.

(** Modelled from the spec: [goog.string.startsWith] is not in the source
    tree; the policy says "content type starts with", a prefix test. *)
Fixpoint startsWith (str prefix : string) {struct prefix} : bool :=
  match prefix with
  | EmptyString => true
  | String p prefix' =>
      match str with
      | EmptyString => false
      | String c str' => Ascii.eqb c p && startsWith str' prefix'
      end
  end.

(** [str.substr(start)]: the suffix of [str] from offset [start]. *)
Fixpoint substr (str : string) (start : nat) {struct start} : string :=
  match start with
  | O => str
  | S n => match str with
           | EmptyString => EmptyString
           | String _ str' => substr str' n
           end
  end.

(** [!s] for a string: only the empty string is falsy. *)
Definition falsy (s : string) : bool :=
  match s with EmptyString => true | String _ _ => false end.


End JsString.

(** ** Enumerations *)

(** [XhrStreamReaderStatus], with the numbers of the source. *)
Module Status.
Inductive t :=
| INIT | ACTIVE | SUCCESS | XHR_ERROR | NO_DATA
| BAD_DATA | HANDLER_EXCEPTION | TIMEOUT | CANCELLED.

Definition code (s : t) : Z :=
  match s with
  | INIT => 0 | ACTIVE => 1 | SUCCESS => 2 | XHR_ERROR => 3 | NO_DATA => 4
  | BAD_DATA => 5 | HANDLER_EXCEPTION => 6 | TIMEOUT => 7 | CANCELLED => 8
  end%Z.

(** [a != b] on status numbers is [negb (eqb a b)]. *)
Definition eqb (a b : t) : bool := (code a =? code b)%Z.

(** [a > b] on status numbers. *)
Definition gtb (a b : t) : bool := (code b <? code a)%Z.

(** A value strictly greater than [SUCCESS]. *)
Definition failure (s : t) : bool := gtb s SUCCESS.
End Status.

(** Modelled from the spec: [goog.net.XmlHttp.ReadyState] is not in the source
    tree; the transport's ready state is the ordinal "uninitialized / opened /
    headers-received / loading-with-partial-body / complete".  The source
    names the last two [INTERACTIVE] and [COMPLETE]. *)
Module ReadyState.
Inductive t := UNINITIALIZED | LOADING | LOADED | INTERACTIVE | COMPLETE.

Definition ordinal (s : t) : Z :=
  match s with
  | UNINITIALIZED => 0 | LOADING => 1 | LOADED => 2
  | INTERACTIVE => 3 | COMPLETE => 4
  end%Z.

Definition ltb (a b : t) : bool := (ordinal a <? ordinal b)%Z.
Definition eqb (a b : t) : bool := (ordinal a =? ordinal b)%Z.
End ReadyState.

(** Modelled from the spec: [goog.net.ErrorCode] is not in the source tree;
    the transport's last error is classified "none / timeout / aborted /
    other". *)
Module ErrorCode.
Inductive t := NO_ERROR | TIMEOUT | ABORT | OTHER.

Definition eqb (a b : t) : bool :=
  match a, b with
  | NO_ERROR, NO_ERROR | TIMEOUT, TIMEOUT | ABORT, ABORT | OTHER, OTHER => true
  | _, _ => false
  end.
End ErrorCode.

(** Modelled from the spec: [goog.net.HttpStatus] is not in the source tree;
    "successful" is numeric status code 200 or 206. *)
Module HttpStatus.
Definition OK : Z := 200.
Definition PARTIAL_CONTENT : Z := 206.
End HttpStatus.

(** The four stream parsers the reader can create. *)
Inductive ParserKind :=
| JsonStreamParser
| PbJsonStreamParser
| PbStreamParser
| Base64PbStreamParser.

(** ** Parser selection *)

(** [getParserByResponseHeader_], as a function of what the two header
    lookups return ([None] is [null]). *)
Definition getParserByResponseHeader_
    (contentTypeHeader contentTransferEncoding : option string)
  : option ParserKind :=
  match contentTypeHeader with
  | None => None
  | Some contentType0 =>
      if JsString.falsy contentType0 then None
      else
        let contentType := JsString.toLowerCase contentType0 in
        if JsString.startsWith contentType "application/json" then
          if JsString.startsWith contentType "application/json+protobuf"
          then Some PbJsonStreamParser
          else Some JsonStreamParser
        else if JsString.startsWith contentType "application/x-protobuf" then
          match contentTransferEncoding with
          | None => Some PbStreamParser
          | Some encoding =>
              if JsString.falsy encoding then Some PbStreamParser
              else if (JsString.toLowerCase encoding =? "base64")%string
                   then Some Base64PbStreamParser
                   else None
          end
        else None
  end.

(** ** Streaming support

    Modelled from the spec: [goog.userAgent] is not in the source tree; it
    tells which engine the code runs on.  These are the five values
    [isStreamingSupported] reads from it. *)
Record UserAgent := mkUserAgent {
  IE : bool;                        (* googUserAgent.IE *)
  isDocumentModeOrHigher10 : bool;  (* isDocumentModeOrHigher(10) *)
  WEBKIT : bool;                    (* googUserAgent.WEBKIT *)
  isVersionOrHigher420 : bool;      (* isVersionOrHigher('420+') *)
  OPERA : bool                      (* googUserAgent.OPERA *)
}.

(** [XhrStreamReader.isStreamingSupported()] *)
Definition isStreamingSupported (ua : UserAgent) : bool :=
  if IE ua && negb (isDocumentModeOrHigher10 ua) then false
  else if WEBKIT ua && negb (isVersionOrHigher420 ua) then false
  else if OPERA ua && negb (WEBKIT ua) then false
  else true.

(** ** The transport, as the reader sees it

    The reader never changes the transport except through [abort] and
    [dispose]; at each ready-state change it reads the getters once.  A
    snapshot is what those getters return at that moment. *)

Definition XhrId := nat.

Record XhrSnapshot := mkSnapshot {
  readyState : ReadyState.t;            (* getReadyState() *)
  lastErrorCode : ErrorCode.t;          (* getLastErrorCode() *)
  statusCode : Z;                       (* getStatus() *)
  responseText : string;                (* getResponseText() *)
  contentTypeHeader : option string;
    (* getStreamingResponseHeader(XhrIo.CONTENT_TYPE_HEADER) *)
  contentTransferEncoding : option string
    (* getStreamingResponseHeader(XhrIo.CONTENT_TRANSFER_ENCODING) *)
}.

(** ** Thrown values

    A callback or a parser can throw any JavaScript value.  The reader looks
    at a value it has caught in one way only: both [catch] blocks
    concatenate it to a log message, which converts it to a string.  The
    conversion returns for an [Error], a string, a number and the like; for
    a Symbol it throws a [TypeError]; for an object it calls the [toString]
    of the object, which can throw any value in turn. *)
Inductive Thrown :=
| AnError                      (* a value that converts to a string *)
| ASymbol                      (* a Symbol *)
| AnObject (thrown : Thrown).  (* an object whose toString throws [thrown] *)

(** What the engine throws itself converts to a string. *)
Definition TypeError : Thrown := AnError.

(** ['...' + ex]: [None] when the concatenation returns, [Some v] when it
    throws [v]. *)
Definition concat (ex : Thrown) : option Thrown :=
  match ex with
  | AnError => None
  | ASymbol => Some TypeError
  | AnObject thrown => Some thrown
  end.

Definition printable (ex : Thrown) : bool :=
  match concat ex with None => true | Some _ => false end.

(** What a call of a user callback does, as far as the reader can tell. *)
Inductive Outcome := Returns | Throws (thrown : Thrown).

Section Reader.

(** The messages a parser produces and the parsers themselves are outside
    the source tree: they are parameters.  A parser is an object with
    internal state; [parse] returns an array of messages, [null], or
    throws. *)
Variable Msg : Type.
Variable PState : Type.

Inductive ParseResult :=
| PNull                          (* parse returned null *)
| PMessages (messages : list Msg) (* parse returned an array *)
| PThrow (thrown : Thrown).      (* parse threw *)

Variable newParser : ParserKind -> PState.
Variable parse : ParserKind -> PState -> string -> PState * ParseResult.

(** *** Trace *)

Inductive Event :=
| EvNotify (target : XhrId) (snap : XhrSnapshot)
    (* the transport fired READY_STATE_CHANGE *)
| EvStatus (old new : Status.t)
    (* this.status_ = status, in updateStatus_ *)
| EvStatusHandler
    (* this.statusHandler_() *)
| EvSelect (result : option ParserKind)
    (* this.parser_ = this.getParserByResponseHeader_() *)
| EvParse (start : nat) (newData : string) (result : ParseResult)
    (* this.parser_.parse(newData), newData = responseText.substr(start) *)
| EvData (messages : list Msg)
    (* this.dataHandler_(messages) *)
| EvDetach (xhr : XhrId)
    (* this.xhr_ = null, in clear_ *)
| EvAbort (xhr : XhrId)
| EvDispose (xhr : XhrId)
| EvEscaped (ex : Thrown).
    (* an exception left readyStateChangeHandler_ *)

(** Newest event first. *)
Definition Trace := list Event.

(** A user callback is an arbitrary function.  Whether a call returns or
    throws may depend on everything that happened before it; callbacks
    that call back into the reader or its transport are outside this
    model. *)
Definition StatusHandler := Trace -> Outcome.
Definition DataHandler := list Msg -> Trace -> Outcome.

(** *** The reader object *)

Record XhrStreamReader := mkReader {
  xhr_ : option XhrId;
  parser_ : option (ParserKind * PState);
  pos_ : nat;
  status_ : Status.t;
  statusHandler_ : option StatusHandler;
  dataHandler_ : option DataHandler;
  listening_ : bool
    (* eventHandler_ still holds the READY_STATE_CHANGE listener *)
}.

Definition set_xhr_ v r :=
  mkReader v (parser_ r) (pos_ r) (status_ r) (statusHandler_ r)
           (dataHandler_ r) (listening_ r).
Definition set_parser_ v r :=
  mkReader (xhr_ r) v (pos_ r) (status_ r) (statusHandler_ r)
           (dataHandler_ r) (listening_ r).
Definition set_pos_ v r :=
  mkReader (xhr_ r) (parser_ r) v (status_ r) (statusHandler_ r)
           (dataHandler_ r) (listening_ r).
Definition set_status_ v r :=
  mkReader (xhr_ r) (parser_ r) (pos_ r) v (statusHandler_ r)
           (dataHandler_ r) (listening_ r).
Definition set_statusHandler_ v r :=
  mkReader (xhr_ r) (parser_ r) (pos_ r) (status_ r) v
           (dataHandler_ r) (listening_ r).
Definition set_dataHandler_ v r :=
  mkReader (xhr_ r) (parser_ r) (pos_ r) (status_ r) (statusHandler_ r)
           v (listening_ r).
Definition set_listening_ v r :=
  mkReader (xhr_ r) (parser_ r) (pos_ r) (status_ r) (statusHandler_ r)
           (dataHandler_ r) v.

(** The constructor: fields initialised, listener registered on [xhr]. *)
Definition newReader (xhr : XhrId) : XhrStreamReader :=
  mkReader (Some xhr) None 0 Status.INIT None None true.

(** *** The monad: reader object, trace, exceptions *)

Definition World : Type := XhrStreamReader * Trace.

Inductive Result (A : Type) :=
| Ok (a : A)
| Throw (ex : Thrown).
Arguments Throw {A} ex.

Definition M (A : Type) : Type := World -> Result A * World.

Definition ret {A} (a : A) : M A := fun w => (Ok a, w).

Definition bind {A B} (m : M A) (f : A -> M B) : M B :=
  fun w =>
    match m w with
    | (Ok a, w') => f a w'
    | (Throw ex, w') => (Throw ex, w')
    end.

Definition throw {A} (ex : Thrown) : M A := fun w => (Throw ex, w).

(** [try { body } catch (ex) { handler }] *)
Definition try_catch {A} (body : M A) (handler : Thrown -> M A) : M A :=
  fun w =>
    match body w with
    | (Ok a, w') => (Ok a, w')
    | (Throw ex, w') => handler ex w'
    end.

Definition this : M XhrStreamReader := fun w => (Ok (fst w), w).

Definition assign (f : XhrStreamReader -> XhrStreamReader) : M unit :=
  fun w => (Ok tt, (f (fst w), snd w)).

Definition emit (e : Event) : M unit :=
  fun w => (Ok tt, (fst w, e :: snd w)).

(** A call of a user callback: recorded, then it returns or throws. *)
Definition invoke (o : Trace -> Outcome) (e : Event) : M unit :=
  fun w =>
    (match o (snd w) with Returns => Ok tt | Throws ex => Throw ex end,
     (fst w, e :: snd w)).

(** The argument ['...' + ex] of a log call in a [catch] block, evaluated
    before the call: it throws what the conversion of [ex] throws. *)
Definition logMessage_ (ex : Thrown) : M unit :=
  match concat ex with
  | None => ret tt
  | Some thrown => throw thrown
  end.

Declare Scope reader_scope.
Delimit Scope reader_scope with reader.
Notation "x <- m ;; k" := (bind m (fun x => k))
  (at level 61, m at next level, right associativity) : reader_scope.
Notation "m ;; k" := (bind m (fun _ => k))
  (at level 61, right associativity) : reader_scope.
Local Open Scope reader_scope.

(** *** The methods *)

(** [updateStatus_(status)] *)
Definition updateStatus_ (status : Status.t) : M unit :=
  r <- this ;;
  let current := status_ r in
  if negb (Status.eqb current status) then
    assign (set_status_ status) ;;
    emit (EvStatus current status) ;;
    match statusHandler_ r with
    | Some handler => invoke handler EvStatusHandler
    | None => ret tt
    end
  else ret tt.

(** [clear_()].  [eventHandler_.removeAll()] drops the listener; it calls
    nothing on the transport when there is no listener left. *)
Definition clear_ : M unit :=
  assign (set_listening_ false) ;;
  r <- this ;;
  match xhr_ r with
  | Some xhr =>
      assign (set_xhr_ None) ;;
      emit (EvDetach xhr) ;;
      emit (EvAbort xhr) ;;
      emit (EvDispose xhr)
  | None => ret tt
  end.

(** [this.parser_.parse(newData)] followed by the delivery, the body of the
    [try] block of [onReadyStateChanged_]. *)
Definition parseAndDeliver_ (start : nat) (newData : string) : M unit :=
  r <- this ;;
  match parser_ r with
  | None => throw TypeError
  | Some (kind, st) =>
      let (st', messages) := parse kind st newData in
      assign (set_parser_ (Some (kind, st'))) ;;
      emit (EvParse start newData messages) ;;
      match messages with
      | PThrow thrown => throw thrown
      | PNull => ret tt
      | PMessages msgs =>
          match dataHandler_ r with
          | Some handler => invoke (handler msgs) (EvData msgs)
          | None => ret tt
          end
      end
  end.

(** The block [if (!this.parser_) { ... }] of [onReadyStateChanged_]: the
    parser is created from the response headers the first time, and a
    failure to do so is reported. *)
Definition selectParser_ (x : XhrSnapshot) : M unit :=
  r <- this ;;
  match parser_ r with
  | Some _ => ret tt
  | None =>
      let selected :=
        getParserByResponseHeader_
          (contentTypeHeader x) (contentTransferEncoding x) in
      assign (set_parser_
                (option_map (fun k => (k, newParser k)) selected)) ;;
      emit (EvSelect selected) ;;
      match selected with
      | None => updateStatus_ Status.BAD_DATA
      | Some _ => ret tt
      end
  end.

(** [onReadyStateChanged_()]; [x] is what the getters of [this.xhr_]
    return during the call.  The [catch] block around the parse builds its
    log message from the caught value before it sets [BAD_DATA]. *)
Definition onReadyStateChanged_ (x : XhrSnapshot) : M unit :=
  r0 <- this ;;
  match xhr_ r0 with
  | None => throw TypeError
  | Some _ =>
      if ReadyState.ltb (readyState x) ReadyState.INTERACTIVE
         || (ReadyState.eqb (readyState x) ReadyState.INTERACTIVE
             && JsString.falsy (responseText x))
      then ret tt
      else
        let successful :=
          ((statusCode x =? HttpStatus.OK)
           || (statusCode x =? HttpStatus.PARTIAL_CONTENT))%Z in
        (if ReadyState.eqb (readyState x) ReadyState.COMPLETE then
           if ErrorCode.eqb (lastErrorCode x) ErrorCode.TIMEOUT then
             updateStatus_ Status.TIMEOUT
           else if ErrorCode.eqb (lastErrorCode x) ErrorCode.ABORT then
             updateStatus_ Status.CANCELLED
           else if negb successful then
             updateStatus_ Status.XHR_ERROR
           else ret tt
         else ret tt) ;;
        selectParser_ x ;;
        r2 <- this ;;
        if Status.gtb (status_ r2) Status.SUCCESS then clear_
        else
          returned <-
            (if pos_ r2 <? String.length (responseText x) then
               let newData := JsString.substr (responseText x) (pos_ r2) in
               assign (set_pos_ (String.length (responseText x))) ;;
               try_catch
                 (parseAndDeliver_ (pos_ r2) newData ;; ret false)
                 (fun ex =>
                    logMessage_ ex ;;
                    updateStatus_ Status.BAD_DATA ;;
                    clear_ ;;
                    ret true)
             else ret false) ;;
          if returned : bool then ret tt
          else if ReadyState.eqb (readyState x) ReadyState.COMPLETE then
            (if String.length (responseText x) =? 0
             then updateStatus_ Status.NO_DATA
             else updateStatus_ Status.SUCCESS) ;;
            clear_
          else updateStatus_ Status.ACTIVE
  end.

(** [readyStateChangeHandler_(event)]; [target] is [event.target].  The
    [catch] block builds its log message from the caught value before it
    does anything else. *)
Definition readyStateChangeHandler_ (target : XhrId) (x : XhrSnapshot)
  : M unit :=
  try_catch
    (r <- this ;;
     match xhr_ r with
     | Some own => if target =? own then onReadyStateChanged_ x else ret tt
     | None => ret tt
     end)
    (fun ex =>
       logMessage_ ex ;;
       updateStatus_ Status.HANDLER_EXCEPTION ;;
       clear_).

Definition getStatus (r : XhrStreamReader) : Status.t := status_ r.
Definition getXhr (r : XhrStreamReader) : option XhrId := xhr_ r.
Definition setStatusHandler (handler : StatusHandler) : M unit :=
  assign (set_statusHandler_ (Some handler)).
Definition setDataHandler (handler : DataHandler) : M unit :=
  assign (set_dataHandler_ (Some handler)).


(** *** The life of a reader

    After construction the application registers handlers and the transport
    fires ready-state changes.  The event system delivers a change to
    [readyStateChangeHandler_] only while the listener is registered; an
    exception that leaves the handler is recorded and the event loop goes
    on. *)

Inductive Op :=
| Notify (target : XhrId) (x : XhrSnapshot)
| SetStatusHandler (handler : StatusHandler)
| SetDataHandler (handler : DataHandler).

Definition fire (target : XhrId) (x : XhrSnapshot) (w : World) : World :=
  let w1 := (fst w, EvNotify target x :: snd w) in
  if listening_ (fst w) then
    match readyStateChangeHandler_ target x w1 with
    | (Ok _, w') => w'
    | (Throw ex, w') => (fst w', EvEscaped ex :: snd w')
    end
  else w1.

Definition step (w : World) (op : Op) : World :=
  match op with
  | Notify target x => fire target x w
  | SetStatusHandler handler => snd (setStatusHandler handler w)
  | SetDataHandler handler => snd (setDataHandler handler w)
  end.

Definition run (ops : list Op) (w : World) : World := fold_left step ops w.

(** The reader built on transport [xhr], after [ops]. *)
Definition lifetime (xhr : XhrId) (ops : list Op) : World :=
  run ops (newReader xhr, []).

(** The lengths of the response texts the ready-state changes of [ops] come
    with, in order. *)
Fixpoint text_lengths (ops : list Op) : list nat :=
  match ops with
  | [] => []
  | Notify _ x :: ops' => String.length (responseText x) :: text_lengths ops'
  | _ :: ops' => text_lengths ops'
  end.

Fixpoint nondecreasing (l : list nat) : bool :=
  match l with
  | a :: (b :: _) as l' => (a <=? b) && nondecreasing l'
  | _ => true
  end.

(** No registered status handler throws. *)
Definition quiet (r : XhrStreamReader) : Prop :=
  match statusHandler_ r with
  | Some handler => forall tr, handler tr = Returns
  | None => True
  end.

(** *** Reading a trace *)

(** The status after the events of [tr]. *)
Fixpoint status_of (tr : Trace) : Status.t :=
  match tr with
  | [] => Status.INIT
  | EvStatus _ new :: _ => new
  | _ :: older => status_of older
  end.

(** The end of the newest slice handed to a parser. *)
Fixpoint parsed_upto (tr : Trace) : nat :=
  match tr with
  | [] => 0
  | EvParse start newData _ :: _ => start + String.length newData
  | _ :: older => parsed_upto older
  end.

(** The longest response text any ready-state change came with. *)
Fixpoint longest_text (tr : Trace) : nat :=
  match tr with
  | [] => 0
  | EvNotify _ x :: older =>
      Nat.max (String.length (responseText x)) (longest_text older)
  | _ :: older => longest_text older
  end.

(** The response text the newest ready-state change came with. *)
Fixpoint newest_text (tr : Trace) : string :=
  match tr with
  | [] => EmptyString
  | EvNotify _ x :: _ => responseText x
  | _ :: older => newest_text older
  end.

Definition is_abort (e : Event) : bool :=
  match e with EvAbort _ => true | _ => false end.
Definition is_dispose (e : Event) : bool :=
  match e with EvDispose _ => true | _ => false end.
Definition is_selection (e : Event) : bool :=
  match e with EvSelect (Some _) => true | _ => false end.
Definition is_failed_selection (e : Event) : bool :=
  match e with EvSelect None => true | _ => false end.
Definition is_attempt (e : Event) : bool :=
  match e with EvSelect _ => true | _ => false end.
Definition is_escaped (e : Event) : bool :=
  match e with EvEscaped _ => true | _ => false end.
Definition is_status_call (e : Event) : bool :=
  match e with EvStatusHandler => true | _ => false end.
Definition is_notify (e : Event) : bool :=
  match e with EvNotify _ _ => true | _ => false end.
Definition is_decoding (e : Event) : bool :=
  match e with EvParse _ _ _ | EvData _ => true | _ => false end.

Definition count (p : Event -> bool) (tr : Trace) : nat :=
  List.length (filter p tr).

(** The arrays passed to the data handler, newest first. *)
Fixpoint batches (tr : Trace) : list (list Msg) :=
  match tr with
  | [] => []
  | EvData msgs :: older => msgs :: batches older
  | _ :: older => batches older
  end.

(** The arrays returned by the parser, newest first ([null] is no array). *)
Fixpoint parsed_arrays (tr : Trace) : list (list Msg) :=
  match tr with
  | [] => []
  | EvParse _ _ (PMessages msgs) :: older => msgs :: parsed_arrays older
  | _ :: older => parsed_arrays older
  end.

(** Modelled from the spec: the parsers are not in the source tree.  A
    decoder "returns a sequence of fully-decoded application messages
    (order-preserving, may be empty)"; the parsers the reader creates return
    an array when the new data completes at least one message and [null]
    when it completes none.  [sequence] reads the result of a call as that
    sequence, and [no_empty_array] says that the empty sequence is always
    given as [null]. *)
Definition sequence (res : ParseResult) : list Msg :=
  match res with
  | PMessages msgs => msgs
  | PNull | PThrow _ => []
  end.

Definition no_empty_array : Prop :=
  forall kind st data st' msgs,
    parse kind st data = (st', PMessages msgs) -> msgs <> [].

Definition nonempty (msgs : list Msg) : bool :=
  match msgs with [] => false | _ :: _ => true end.

(** The sequences the calls of the parser produced, newest first. *)
Fixpoint parsed_sequences (tr : Trace) : list (list Msg) :=
  match tr with
  | [] => []
  | EvParse _ _ res :: older => sequence res :: parsed_sequences older
  | _ :: older => parsed_sequences older
  end.

(** A recorded call of the parser has the result [parse] gives. *)
Definition from_parse (e : Event) : Prop :=
  match e with
  | EvParse _ newData res =>
      exists kind st st', parse kind st newData = (st', res)
  | _ => True
  end.

(** The calls of the parser a method records are calls of [parse]. *)
Definition parses_recorded (w w' : World) : Prop :=
  exists d, snd w' = d ++ snd w /\ Forall from_parse d.

Definition lt_status (a b : Status.t) : Prop :=
  (Status.code a < Status.code b)%Z.

(** What must hold of an event given the events before it. *)
Definition event_ok (e : Event) (older : Trace) : Prop :=
  match e with
  | EvStatus old new =>
      old = status_of older /\
      (lt_status old new \/
       (Status.failure old = true /\ Status.failure new = true /\
        old <> new) \/
       (old = Status.SUCCESS /\ new = Status.ACTIVE /\
        existsb is_escaped older = true))
  | EvStatusHandler =>
      match older with EvStatus _ _ :: _ => True | _ => False end
  | EvParse start newData _ =>
      Status.failure (status_of older) = false /\
      parsed_upto older = start /\
      start < String.length (newest_text older) /\
      newData = JsString.substr (newest_text older) start
  | EvData msgs =>
      Status.failure (status_of older) = false /\
      match older with
      | EvParse _ _ (PMessages msgs') :: _ => msgs' = msgs
      | _ => False
      end
  | EvSelect result =>
      (count is_attempt older = 0 \/ existsb is_escaped older = true) /\
      match result with
      | Some _ => count is_selection older = 0
      | None => True
      end
  | EvAbort xhr =>
      match older with EvDetach xhr' :: _ => xhr' = xhr | _ => False end
  | EvDispose xhr =>
      match older with EvAbort xhr' :: _ => xhr' = xhr | _ => False end
  | _ => True
  end.

Fixpoint trace_ok (tr : Trace) : Prop :=
  match tr with
  | [] => True
  | e :: older => event_ok e older /\ trace_ok older
  end.

(** The invariant of the reader and its trace, at every point between two
    method calls. *)
Record Inv (w : World) : Prop := mkInv {
  inv_status : status_of (snd w) = status_ (fst w);
  inv_trace : trace_ok (snd w);
  inv_parsed : parsed_upto (snd w) = pos_ (fst w);
  inv_pos : pos_ (fst w) <= longest_text (snd w);
  inv_abort :
    count is_abort (snd w) =
    match xhr_ (fst w) with Some _ => 0 | None => 1 end;
  inv_dispose :
    count is_dispose (snd w) =
    match xhr_ (fst w) with Some _ => 0 | None => 1 end;
  inv_listening :
    listening_ (fst w) =
    match xhr_ (fst w) with Some _ => true | None => false end;
  inv_selected :
    count is_selection (snd w) =
    match parser_ (fst w) with Some _ => 1 | None => 0 end;
  inv_settled :
    count is_failed_selection (snd w) = 0 \/
    Status.failure (status_ (fst w)) = true
}.

(** Between two ready-state changes a reader that still holds its transport
    is in [INIT] or [ACTIVE], unless an exception has left the handler. *)
Definition Attached (w : World) : Prop :=
  xhr_ (fst w) <> None ->
  (Status.code (status_ (fst w)) <= 1)%Z \/
  existsb is_escaped (snd w) = true.

(** Specifications of monadic code: [P] before, [Q] after, whether the code
    returns or throws. *)
Definition triple {A} (P : World -> Prop) (m : M A)
    (Q : Result A -> World -> Prop) : Prop :=
  forall w, P w -> Q (fst (m w)) (snd (m w)).

(** One world later than another: the cursor has not moved back, the parser
    is the same object, the trace has only grown. *)
Definition same_parser (r r' : XhrStreamReader) : Prop :=
  forall kind st, parser_ r = Some (kind, st) ->
                  exists st', parser_ r' = Some (kind, st').

Record later (w w' : World) : Prop := mkLater {
  later_pos : pos_ (fst w) <= pos_ (fst w');
  later_parser : same_parser (fst w) (fst w');
  later_trace : exists d, snd w' = d ++ snd w
}.

(** Every array the parser returned went to the data handler, if there is
    one, and nothing else did. *)
Definition delivered (w w' : World) : Prop :=
  dataHandler_ (fst w') = dataHandler_ (fst w) /\
  exists d, snd w' = d ++ snd w /\
            batches d = match dataHandler_ (fst w) with
                        | Some _ => parsed_arrays d
                        | None => []
                        end.

(** *** Further readings of a run *)

(** The test of lines 160-163: the transport has not reached [INTERACTIVE],
    or it is [INTERACTIVE] and has no text yet. *)
Definition too_early (x : XhrSnapshot) : bool :=
  ReadyState.ltb (readyState x) ReadyState.INTERACTIVE
  || (ReadyState.eqb (readyState x) ReadyState.INTERACTIVE
      && JsString.falsy (responseText x)).

(** The failure of the request as lines 170-178 classify it. *)
Definition requestFailure (x : XhrSnapshot) : option Status.t :=
  if ReadyState.eqb (readyState x) ReadyState.COMPLETE then
    if ErrorCode.eqb (lastErrorCode x) ErrorCode.TIMEOUT then
      Some Status.TIMEOUT
    else if ErrorCode.eqb (lastErrorCode x) ErrorCode.ABORT then
      Some Status.CANCELLED
    else if negb ((statusCode x =? HttpStatus.OK)
                  || (statusCode x =? HttpStatus.PARTIAL_CONTENT))%Z then
      Some Status.XHR_ERROR
    else None
  else None.

(** The parser the reader has after lines 187-192. *)
Definition parserFor (r : XhrStreamReader) (x : XhrSnapshot)
  : option (ParserKind * PState) :=
  match parser_ r with
  | Some p => Some p
  | None =>
      option_map (fun k => (k, newParser k))
        (getParserByResponseHeader_
           (contentTypeHeader x) (contentTransferEncoding x))
  end.

(** No registered data handler throws. *)
Definition calm_data (r : XhrStreamReader) : Prop :=
  match dataHandler_ r with
  | Some handler => forall msgs tr, handler msgs tr = Returns
  | None => True
  end.

(** An operation a reader on transport [xhr] lets pass without doing
    anything: the ready-state change of another transport, or one that comes
    too early; registering a handler calls nothing either. *)
Definition passes (xhr : XhrId) (op : Op) : bool :=
  match op with
  | Notify target x => negb (target =? xhr) || too_early x
  | _ => true
  end.

(** No status handler that [ops] registers ever throws. *)
Definition polite (ops : list Op) : Prop :=
  forall handler,
    In (SetStatusHandler handler) ops -> forall tr, handler tr = Returns.

(** The handlers in effect after [ops]. *)
Fixpoint lastStatusHandler (ops : list Op) (h : option StatusHandler)
  : option StatusHandler :=
  match ops with
  | [] => h
  | SetStatusHandler handler :: ops' => lastStatusHandler ops' (Some handler)
  | _ :: ops' => lastStatusHandler ops' h
  end.

Fixpoint lastDataHandler (ops : list Op) (h : option DataHandler)
  : option DataHandler :=
  match ops with
  | [] => h
  | SetDataHandler handler :: ops' => lastDataHandler ops' (Some handler)
  | _ :: ops' => lastDataHandler ops' h
  end.

Definition registers_data (op : Op) : bool :=
  match op with SetDataHandler _ => true | _ => false end.

(** The response texts the ready-state changes of [ops] come with, in
    order. *)
Fixpoint texts (ops : list Op) : list string :=
  match ops with
  | [] => []
  | Notify _ x :: ops' => responseText x :: texts ops'
  | _ :: ops' => texts ops'
  end.

(** Each text starts with the text before it: the response only grows. *)
Fixpoint extending (l : list string) : bool :=
  match l with
  | a :: (b :: _) as l' => JsString.startsWith b a && extending l'
  | _ => true
  end.

(** The same, read off a trace. *)
Fixpoint growing (tr : Trace) : Prop :=
  match tr with
  | [] => True
  | EvNotify _ x :: older =>
      JsString.startsWith (responseText x) (newest_text older) = true /\
      growing older
  | _ :: older => growing older
  end.

(** Everything the parser has been given, in the order of the calls. *)
Fixpoint fed (tr : Trace) : string :=
  match tr with
  | [] => EmptyString
  | EvParse _ newData _ :: older => (fed older ++ newData)%string
  | _ :: older => fed older
  end.

Definition is_status_write (e : Event) : bool :=
  match e with EvStatus _ _ => true | _ => false end.
Definition is_parse (e : Event) : bool :=
  match e with EvParse _ _ _ => true | _ => false end.
Definition is_delivery (e : Event) : bool :=
  match e with EvData _ => true | _ => false end.

(** The reader still holds the transport [own]. *)
Definition Held (own : XhrId) (w : World) : Prop := xhr_ (fst w) = Some own.

(** The reader has been torn down, and its status is final. *)
Definition Done (w : World) : Prop :=
  xhr_ (fst w) = None /\ (2 <= Status.code (status_ (fst w)))%Z.

(** Over the life of a reader on [xhr]: it holds [xhr], or it has been torn
    down with a final status. *)
Definition Settled (xhr : XhrId) (w : World) : Prop := Held xhr w \/ Done w.

(** What the registered data handler throws, if it throws, converts to a
    string. *)
Definition tame_data (r : XhrStreamReader) : Prop :=
  match dataHandler_ r with
  | Some handler =>
      forall msgs tr thrown,
        handler msgs tr = Throws thrown -> printable thrown = true
  | None => True
  end.

(** The same of every data handler that [ops] registers. *)
Definition tame (ops : list Op) : Prop :=
  forall handler,
    In (SetDataHandler handler) ops ->
    forall msgs tr thrown,
      handler msgs tr = Throws thrown -> printable thrown = true.

(** What the parsers throw, if they throw, converts to a string. *)
Definition plain_parser : Prop :=
  forall kind st data st' thrown,
    parse kind st data = (st', PThrow thrown) -> printable thrown = true.

(** What the registered status handler throws, if it throws, satisfies
    [P]. *)
Definition throws_only (P : Thrown -> Prop) (r : XhrStreamReader) : Prop :=
  match statusHandler_ r with
  | Some handler => forall tr thrown, handler tr = Throws thrown -> P thrown
  | None => True
  end.

(** The same of every status handler that [ops] registers, for values that
    convert to a string. *)
Definition civil (ops : list Op) : Prop :=
  forall handler,
    In (SetStatusHandler handler) ops ->
    forall tr thrown, handler tr = Throws thrown -> printable thrown = true.

(** What a call throws, if it throws, satisfies [P]. *)
Definition raises {A} (P : Thrown -> Prop) (res : Result A) : Prop :=
  match res with Ok _ => True | Throw thrown => P thrown end.

(** The status handler throws only values that satisfy [P], what the data
    handler throws converts to a string, and, in case [c], the status is not
    [HANDLER_EXCEPTION]. *)
Definition Calm (P : Thrown -> Prop) (c : Prop) (w : World) : Prop :=
  throws_only P (fst w) /\ tame_data (fst w) /\
  (c -> status_ (fst w) <> Status.HANDLER_EXCEPTION).

(** No value at all. *)
Definition nothing : Thrown -> Prop := fun _ => False.






(** What a method leaves alone: the handlers stay registered, the transport
    is kept or released, the trace grows by calls of the reader itself, and
    only the reader's own transport is aborted and disposed of. *)
Record kept (w w' : World) : Prop := mkKept {
  kept_status_handler : statusHandler_ (fst w') = statusHandler_ (fst w);
  kept_data_handler : dataHandler_ (fst w') = dataHandler_ (fst w);
  kept_xhr : xhr_ (fst w') = xhr_ (fst w) \/ xhr_ (fst w') = None;
  kept_trace :
    exists d, snd w' = d ++ snd w /\
              existsb is_notify d = false /\
              existsb is_escaped d = false /\
              forall y, In (EvAbort y) d \/ In (EvDispose y) d ->
                        xhr_ (fst w) = Some y
}.

(** Every change of the status went to the status handler, if there is
    one. *)
Definition reported (w w' : World) : Prop :=
  statusHandler_ (fst w') = statusHandler_ (fst w) /\
  exists d, snd w' = d ++ snd w /\
            count is_status_call d =
            match statusHandler_ (fst w) with
            | Some _ => count is_status_write d
            | None => 0
            end.

Unset Implicit Arguments.

(** ** Basic facts *)

Lemma status_eqb_eq (a b : Status.t) : Status.eqb a b = true <-> a = b.
Proof.
  unfold Status.eqb. rewrite Z.eqb_eq.
  split; [|intros ->; reflexivity].
  destruct a, b; simpl; intros H; try reflexivity; discriminate H.
Qed.

Lemma status_eqb_neq (a b : Status.t) : Status.eqb a b = false <-> a <> b.
Proof.
  rewrite <- status_eqb_eq. destruct (Status.eqb a b); split; congruence.
Qed.

Lemma failure_code (s : Status.t) :
  Status.failure s = true <-> (2 < Status.code s)%Z.
Proof. unfold Status.failure, Status.gtb. rewrite Z.ltb_lt. reflexivity. Qed.

Lemma not_failure_code (s : Status.t) :
  Status.failure s = false <-> (Status.code s <= 2)%Z.
Proof. unfold Status.failure, Status.gtb. rewrite Z.ltb_ge. reflexivity. Qed.

Lemma substr_length (s : string) (n : nat) :
  String.length (JsString.substr s n) = String.length s - n.
Proof.
  revert s. induction n as [|n IH]; intros s; simpl.
  - symmetry. apply Nat.sub_0_r.
  - destruct s as [|c s]; simpl; [reflexivity | apply IH].
Qed.

Lemma count_cons (p : Event -> bool) (e : Event) (tr : Trace) :
  count p (e :: tr) = (if p e then 1 else 0) + count p tr.
Proof. unfold count. simpl. destruct (p e); reflexivity. Qed.

(** ** Rules for specifications *)

Lemma triple_bind {A B} (P : World -> Prop) (m : M A) (f : A -> M B)
    (Q1 : Result A -> World -> Prop) (Q : Result B -> World -> Prop) :
  triple P m Q1 ->
  (forall a, triple (Q1 (Ok a)) (f a) Q) ->
  (forall ex w, Q1 (Throw ex) w -> Q (Throw ex) w) ->
  triple P (bind m f) Q.
Proof.
  intros Hm Hf Hex w HP. unfold bind. specialize (Hm w HP).
  destruct (m w) as [[a|ex] w']; simpl in *.
  - apply Hf, Hm.
  - apply Hex, Hm.
Qed.

Lemma triple_try {A} (P : World -> Prop) (body : M A) (handler : Thrown -> M A)
    (Q1 Q : Result A -> World -> Prop) :
  triple P body Q1 ->
  (forall a w, Q1 (Ok a) w -> Q (Ok a) w) ->
  (forall ex, triple (Q1 (Throw ex)) (handler ex) Q) ->
  triple P (try_catch body handler) Q.
Proof.
  intros Hb Hok Hh w HP. unfold try_catch. specialize (Hb w HP).
  destruct (body w) as [[a|ex] w']; simpl in *.
  - apply Hok, Hb.
  - apply Hh, Hb.
Qed.

Lemma triple_weaken {A} (P P' : World -> Prop) (m : M A)
    (Q Q' : Result A -> World -> Prop) :
  triple P' m Q' ->
  (forall w, P w -> P' w) ->
  (forall res w, Q' res w -> Q res w) ->
  triple P m Q.
Proof. intros Hm HP HQ w Hw. apply HQ, Hm, HP, Hw. Qed.

Lemma triple_ret {A} (P : World -> Prop) (a : A)
    (Q : Result A -> World -> Prop) :
  (forall w, P w -> Q (Ok a) w) -> triple P (ret a) Q.
Proof. intros H w HP. apply H, HP. Qed.

Lemma triple_this {A} (P : World -> Prop) (f : XhrStreamReader -> M A)
    (Q : Result A -> World -> Prop) :
  (forall r, triple (fun w => P w /\ fst w = r) (f r) Q) ->
  triple P (bind this f) Q.
Proof.
  intros H w HP. unfold bind, this. simpl. apply (H (fst w)). auto.
Qed.

Lemma bind_assign {B} (f : XhrStreamReader -> XhrStreamReader)
    (k : unit -> M B) (r : XhrStreamReader) (tr : Trace) :
  bind (assign f) k (r, tr) = k tt (f r, tr).
Proof. reflexivity. Qed.

Lemma bind_emit {B} (e : Event) (k : unit -> M B)
    (r : XhrStreamReader) (tr : Trace) :
  bind (emit e) k (r, tr) = k tt (r, e :: tr).
Proof. reflexivity. Qed.

Lemma bind_this {B} (k : XhrStreamReader -> M B)
    (r : XhrStreamReader) (tr : Trace) :
  bind this k (r, tr) = k r (r, tr).
Proof. reflexivity. Qed.

Lemma bind_ret {A B} (a : A) (k : A -> M B) (w : World) :
  bind (ret a) k w = k a w.
Proof. reflexivity. Qed.

(** The message of a log call changes nothing, whether its evaluation
    returns or throws. *)
Lemma triple_logMessage_ (P : World -> Prop) (ex : Thrown) :
  triple P (logMessage_ ex) (fun _ w => P w).
Proof.
  intros w HP. unfold logMessage_. destruct (concat ex); exact HP.
Qed.

Lemma triple_assume {A} (phi : Prop) (P : World -> Prop) (m : M A)
    (Q : Result A -> World -> Prop) :
  (forall w, P w -> phi) -> (phi -> triple P m Q) -> triple P m Q.
Proof. intros H1 H2 w HP. apply H2; [apply (H1 w HP) | exact HP]. Qed.

(** A property of traces that no later event can undo. *)
Definition Frame (F : Trace -> Prop) : Prop :=
  forall e tr, is_notify e = false -> is_attempt e = false ->
               F tr -> F (e :: tr).

(** The ready-state change being handled came with the text of [x]. *)
Definition Seen (x : XhrSnapshot) (tr : Trace) : Prop :=
  newest_text tr = responseText x /\
  String.length (responseText x) <= longest_text tr.

Lemma frame_seen (x : XhrSnapshot) : Frame (Seen x).
Proof.
  intros e tr He _ [H1 H2]. unfold Seen.
  destruct e; simpl in *; try discriminate He; auto.
Qed.

(** No selection has failed so far, or an exception has escaped. *)
Definition Unfailed (tr : Trace) : Prop :=
  count is_failed_selection tr = 0 \/ existsb is_escaped tr = true.

Lemma frame_unfailed : Frame Unfailed.
Proof.
  intros e tr _ He [H|H]; unfold Unfailed.
  - left. rewrite count_cons, H. destruct e; try reflexivity.
    discriminate He.
  - right. simpl. rewrite H. apply orb_true_r.
Qed.

(** An exception has escaped, in case [c]. *)
Lemma frame_escaped (c : Prop) :
  Frame (fun tr => c -> existsb is_escaped tr = true).
Proof.
  intros e tr _ _ H Hc. simpl. rewrite (H Hc). apply orb_true_r.
Qed.

Lemma frame_and (F G : Trace -> Prop) :
  Frame F -> Frame G -> Frame (fun tr => F tr /\ G tr).
Proof. intros HF HG e tr H1 H2 [H3 H4]. split; [apply HF | apply HG]; auto. Qed.

Lemma count_attempts (tr : Trace) :
  count is_attempt tr = count is_selection tr + count is_failed_selection tr.
Proof.
  induction tr as [|e tr IH]; [reflexivity|].
  rewrite !count_cons, IH. destruct e as [| | |[k|]| | | | | |]; simpl; lia.
Qed.

Ltac framed HF H := repeat (apply HF; [reflexivity | reflexivity |]); exact H.

(** ** The methods keep the invariant *)

Definition may_become (s : Status.t) (w : World) : Prop :=
  lt_status (status_ (fst w)) s \/ status_ (fst w) = s \/
  (Status.failure (status_ (fst w)) = true /\ Status.failure s = true) \/
  (status_ (fst w) = Status.SUCCESS /\ s = Status.ACTIVE /\
   existsb is_escaped (snd w) = true).

Lemma updateStatus_inv (F : Trace -> Prop) (s : Status.t) :
  Frame F ->
  triple (fun w => Inv w /\ F (snd w) /\ may_become s w)
         (updateStatus_ s)
         (fun _ w => Inv w /\ F (snd w) /\ status_ (fst w) = s).
Proof.
  intros HF [r tr] (HI & HFr & Hg). unfold may_become in Hg. simpl in Hg.
  unfold updateStatus_, bind, this, assign, emit, invoke, ret. simpl.
  destruct (Status.eqb (status_ r) s) eqn:E; simpl.
  - apply status_eqb_eq in E. auto.
  - apply status_eqb_neq in E.
    assert (Hev : event_ok (EvStatus (status_ r) s) tr).
    { simpl. split; [symmetry; apply HI|].
      destruct Hg as [Hg|[Hg|[Hg|Hg]]]; [left; exact Hg|contradiction| |].
      - right; left. tauto.
      - right; right. exact Hg. }
    destruct HI as [H1 H2 H3 H4 H5 H6 H7 H8 H9]. simpl in *.
    assert (Hset : count is_failed_selection tr = 0 \/
                   Status.failure s = true).
    { destruct H9 as [H9|H9]; [left; exact H9 | right].
      destruct Hg as [Hg|[Hg|[Hg|Hg]]]; [|contradiction | apply Hg |].
      - apply failure_code in H9. apply failure_code.
        unfold lt_status in Hg. lia.
      - destruct Hg as (Hg & _). rewrite Hg in H9. discriminate H9. }
    destruct (statusHandler_ r) as [h|]; simpl.
    + split; [|split; [framed HF HFr | reflexivity]].
      constructor; simpl; rewrite ?count_cons; simpl; auto.
    + split; [|split; [framed HF HFr | reflexivity]].
      constructor; simpl; rewrite ?count_cons; simpl; auto.
Qed.

Lemma clear_inv (F : Trace -> Prop) :
  Frame F ->
  triple (fun w => Inv w /\ F (snd w))
         clear_
         (fun res w => Inv w /\ F (snd w) /\ xhr_ (fst w) = None /\
                       res = Ok tt).
Proof.
  intros HF [r tr] (HI & HFr).
  unfold clear_, bind, this, assign, emit, ret. simpl.
  destruct HI as [H1 H2 H3 H4 H5 H6 H7 H8 H9]. simpl in *.
  destruct (xhr_ r) as [xhr|] eqn:Ex; simpl.
  - split; [|split; [framed HF HFr | auto]].
    constructor; simpl; rewrite ?count_cons; simpl; auto.
  - split; [|auto].
    constructor; simpl; rewrite ?Ex; auto.
Qed.

Lemma may_become_failure (s : Status.t) (w : World) :
  Status.failure s = true -> may_become s w.
Proof.
  intros Hs. unfold may_become.
  destruct (Status.failure (status_ (fst w))) eqn:E.
  - right; right; left. auto.
  - left. apply failure_code in Hs. apply not_failure_code in E.
    unfold lt_status. lia.
Qed.

Lemma may_become_upto (s : Status.t) (w : World) :
  (Status.code (status_ (fst w)) <= Status.code s)%Z -> may_become s w.
Proof.
  intros Hw. unfold may_become, lt_status.
  destruct (Z.eq_dec (Status.code (status_ (fst w))) (Status.code s)) as [E|E].
  - right; left. apply status_eqb_eq. unfold Status.eqb.
    apply Z.eqb_eq, E.
  - left. lia.
Qed.

(** [SUCCESS] is the status only after an exception has escaped. *)
Definition escapable (w : World) : Prop :=
  status_ (fst w) = Status.SUCCESS -> existsb is_escaped (snd w) = true.

Lemma may_become_active (w : World) :
  (Status.code (status_ (fst w)) <= 2)%Z -> escapable w ->
  may_become Status.ACTIVE w.
Proof.
  intros Hw He.
  destruct (Status.eqb (status_ (fst w)) Status.SUCCESS) eqn:E.
  - apply status_eqb_eq in E. right; right; right. auto.
  - apply status_eqb_neq in E. apply may_become_upto.
    destruct (status_ (fst w)); simpl in *; try lia. congruence.
Qed.

Lemma parseAndDeliver_inv (F : Trace -> Prop) (x : XhrSnapshot)
    (st : Status.t) (start : nat) :
  Frame F ->
  triple (fun w => Inv (set_pos_ start (fst w), snd w) /\
                   (Seen x (snd w) /\ F (snd w)) /\
                   status_ (fst w) = st /\
                   Status.failure st = false /\
                   parser_ (fst w) <> None /\
                   start < String.length (responseText x) /\
                   pos_ (fst w) = String.length (responseText x))
         (parseAndDeliver_ start (JsString.substr (responseText x) start))
         (fun _ w => Inv w /\ (Seen x (snd w) /\ F (snd w)) /\
                     status_ (fst w) = st).
Proof.
  intros HF.
  pose proof (frame_and _ _ (frame_seen x) HF) as HSF.
  intros [r tr] (HI & HSF0 & Hst & Hok & Hpar & Hlt & Hpos). simpl in *.
  pose proof (proj1 HSF0) as HS.
  unfold parseAndDeliver_, bind, this, throw. simpl.
  destruct (parser_ r) as [[kind ps]|] eqn:Ep; simpl; [|congruence].
  set (newData := JsString.substr (responseText x) start).
  destruct (parse kind ps newData) as [ps' res] eqn:Eparse.
  unfold bind, assign, emit, invoke, ret, throw. simpl.
  destruct HI as [H1 H2 H3 H4 H5 H6 H7 H8 H9]. simpl in *.
  destruct HS as [HS1 HS2].
  assert (Hev : event_ok (EvParse start newData res) tr).
  { simpl. rewrite H1, Hst, HS1. repeat split; auto. }
  assert (Hlen : start + String.length newData = pos_ r).
  { unfold newData. rewrite substr_length. lia. }
  assert (HI' : Inv (set_parser_ (Some (kind, ps')) r,
                     EvParse start newData res :: tr)).
  { constructor; simpl; rewrite ?count_cons; simpl; auto; try lia.
    rewrite H8, Ep. reflexivity. }
  assert (HS' : Seen x (EvParse start newData res :: tr) /\
                F (EvParse start newData res :: tr)).
  { apply HSF; [reflexivity | reflexivity | exact HSF0]. }
  destruct res as [|msgs|thrown]; simpl; auto.
  destruct (dataHandler_ r) as [h|]; simpl; auto.
  split; [|split; [apply HSF; [reflexivity | reflexivity | exact HS']
                  | exact Hst]].
  destruct HI' as [H1' H2' H3' H4' H5' H6' H7' H8' H9']. simpl in *.
  constructor; simpl; rewrite ?count_cons; simpl; auto.
  repeat split; auto; tauto.
Qed.

Lemma attached_escapable (w : World) :
  Attached w -> xhr_ (fst w) <> None -> escapable w.
Proof.
  intros HA Hx. unfold escapable.
  destruct (HA Hx) as [H|H]; [|intros _; exact H].
  intros E. rewrite E in H. simpl in H. lia.
Qed.

Lemma escapable_failure (w : World) :
  Status.failure (status_ (fst w)) = true -> escapable w.
Proof. intros H E. rewrite E in H. discriminate H. Qed.

Lemma escapable_emit (r r' : XhrStreamReader) (tr : Trace) (e : Event) :
  status_ r' = status_ r -> escapable (r, tr) -> escapable (r', e :: tr).
Proof.
  unfold escapable. simpl. intros -> H E. rewrite (H E). apply orb_true_r.
Qed.

(** [updateStatus_] with a failure value, from any state. *)
Lemma updateStatus_failure (x : XhrSnapshot) (s : Status.t) :
  Status.failure s = true ->
  triple (fun w => Inv w /\ Seen x (snd w))
         (updateStatus_ s)
         (fun _ w => Inv w /\ Seen x (snd w) /\ status_ (fst w) = s).
Proof.
  intros Hs. eapply triple_weaken.
  - apply (updateStatus_inv (Seen x) s (frame_seen x)).
  - intros w (HI & HS).
    split; [exact HI | split; [exact HS | apply may_become_failure, Hs]].
  - auto.
Qed.

(** [updateStatus_] with [SUCCESS] or [ACTIVE], from a status that is no
    failure. *)
Lemma updateStatus_low (x : XhrSnapshot) (s : Status.t) :
  s = Status.SUCCESS \/ s = Status.ACTIVE ->
  triple (fun w => Inv w /\ Seen x (snd w) /\
                   (Status.code (status_ (fst w)) <= 2)%Z /\ escapable w)
         (updateStatus_ s)
         (fun _ w => Inv w /\ Seen x (snd w) /\ status_ (fst w) = s).
Proof.
  intros Hs. eapply triple_weaken.
  - apply (updateStatus_inv (Seen x) s (frame_seen x)).
  - intros w (HI & HS & Hl & He).
    split; [exact HI | split; [exact HS |]].
    destruct Hs as [-> | ->].
    + apply may_become_upto. exact Hl.
    + apply may_become_active; assumption.
  - auto.
Qed.

Lemma attached_detached (w : World) : xhr_ (fst w) = None -> Attached w.
Proof. intros H Hne. contradiction. Qed.

Lemma attached_low (w : World) :
  (Status.code (status_ (fst w)) <= 1)%Z -> Attached w.
Proof. intros H _. left. exact H. Qed.

(** After the selection block there is a parser or a failure status. *)
Definition parser_or_failure (w : World) : Prop :=
  parser_ (fst w) = None -> Status.failure (status_ (fst w)) = true.

(** The block that selects the parser, lines 187-192. *)
Lemma select_inv (x : XhrSnapshot) (r1 : XhrStreamReader) :
  triple
    (fun w => (Inv w /\ Seen x (snd w) /\ Unfailed (snd w) /\
               escapable w) /\ fst w = r1)
    (match parser_ r1 with
     | Some _ => ret tt
     | None =>
         let selected :=
           getParserByResponseHeader_
             (contentTypeHeader x) (contentTransferEncoding x) in
         bind (assign (set_parser_
                         (option_map (fun k => (k, newParser k)) selected)))
              (fun _ =>
                 bind (emit (EvSelect selected))
                      (fun _ =>
                         match selected with
                         | None => updateStatus_ Status.BAD_DATA
                         | Some _ => ret tt
                         end))
     end)
    (fun res w => Inv w /\ Seen x (snd w) /\
                  match res with
                  | Ok _ => escapable w /\ parser_or_failure w
                  | Throw _ => True
                  end).
Proof.
  destruct (parser_ r1) as [p|] eqn:Ep.
  - apply triple_ret. intros w ((HI & HS & _ & HN) & Hr).
    split; [exact HI | split; [exact HS | split; [exact HN |]]].
    intros E. rewrite Hr, Ep in E. discriminate E.
  - intros [r tr] ((HI & HS & HU & HN) & Hr). simpl in Hr. subst r1.
    cbv zeta. rewrite bind_assign, bind_emit.
    set (selected := getParserByResponseHeader_ _ _).
    destruct HI as [H1 H2 H3 H4 H5 H6 H7 H8 H9]. simpl in *.
    rewrite Ep in H8.
    assert (Hev : event_ok (EvSelect selected) tr).
    { simpl. split; [|destruct selected; [exact H8 | exact I]].
      destruct HU as [HU|HU]; [left | right; exact HU].
      rewrite count_attempts, H8, HU. reflexivity. }
    assert (HS' : Seen x (EvSelect selected :: tr)) by exact HS.
    assert (HN' : forall r',
               status_ r' = status_ r ->
               escapable (r', EvSelect selected :: tr)).
    { intros r' Hr'. apply (escapable_emit r); assumption. }
    destruct selected as [k|].
    + simpl. split; [|split; [exact HS' | split; [apply HN'; reflexivity |]]].
      * constructor; simpl; rewrite ?count_cons; simpl; auto;
          rewrite ?H8; reflexivity.
      * intros E. discriminate E.
    + unfold updateStatus_, bind, this, assign, emit, invoke, ret. simpl.
      destruct (Status.eqb (status_ r) Status.BAD_DATA) eqn:E; simpl.
      * apply status_eqb_eq in E.
        split; [|split; [exact HS' | split; [apply HN'; reflexivity |]]].
        -- constructor; simpl; rewrite ?count_cons; simpl; auto.
           right. rewrite E. reflexivity.
        -- intros _. simpl. rewrite E. reflexivity.
      * apply status_eqb_neq in E.
        assert (Hst : event_ok (EvStatus (status_ r) Status.BAD_DATA)
                        (EvSelect None :: tr)).
        { simpl. split; [symmetry; exact H1|].
          destruct (Status.failure (status_ r)) eqn:Ef.
          - right; left. auto.
          - left. apply not_failure_code in Ef. unfold lt_status.
            simpl. lia. }
        destruct (statusHandler_ r) as [h|]; simpl.
        -- split; [|split; [exact HS' |]].
           ++ constructor; simpl; rewrite ?count_cons; simpl; auto.
           ++ destruct (h _); [|exact I].
              unfold escapable, parser_or_failure. simpl.
              split; [intros E'; discriminate E' | reflexivity].
        -- split; [|split; [exact HS' |]].
           ++ constructor; simpl; rewrite ?count_cons; simpl; auto.
           ++ unfold escapable, parser_or_failure. simpl.
              split; [intros E'; discriminate E' | reflexivity].
Qed.

(** The block that decodes the new text, lines 200-217; its result tells
    whether the method returned from inside the block. *)
Lemma decode_inv (x : XhrSnapshot) (r2 : XhrStreamReader) :
  triple
    (fun w => (Inv w /\ Seen x (snd w) /\
               ((Status.code (status_ (fst w)) <= 2)%Z /\ escapable w) /\
               parser_ (fst w) <> None) /\ fst w = r2)
    (if pos_ r2 <? String.length (responseText x) then
       let newData := JsString.substr (responseText x) (pos_ r2) in
       bind (assign (set_pos_ (String.length (responseText x))))
            (fun _ =>
               try_catch
                 (bind (parseAndDeliver_ (pos_ r2) newData)
                       (fun _ => ret false))
                 (fun ex =>
                    bind (logMessage_ ex)
                         (fun _ =>
                            bind (updateStatus_ Status.BAD_DATA)
                                 (fun _ => bind clear_ (fun _ => ret true)))))
     else ret false)
    (fun res w => Inv w /\ Seen x (snd w) /\
                  match res with
                  | Ok false =>
                      (Status.code (status_ (fst w)) <= 2)%Z /\ escapable w
                  | Ok true => xhr_ (fst w) = None
                  | Throw _ => True
                  end).
Proof.
  destruct (pos_ r2 <? String.length (responseText x)) eqn:Epos.
  2: { apply triple_ret. intros w ((HI & HS & HL & _) & _). auto. }
  apply Nat.ltb_lt in Epos.
  apply (triple_assume (Status.code (status_ r2) <= 2)%Z).
  { intros w ((_ & _ & (HL & _) & _) & Hr). rewrite <- Hr. exact HL. }
  intros Hlow.
  set (F := fun tr : Trace =>
              status_ r2 = Status.SUCCESS -> existsb is_escaped tr = true).
  assert (HF : Frame F) by apply frame_escaped.
  eapply triple_bind with
    (Q1 := fun (res : Result unit) w =>
             res = Ok tt /\
             Inv (set_pos_ (pos_ r2) (fst w), snd w) /\
             (Seen x (snd w) /\ F (snd w)) /\
             status_ (fst w) = status_ r2 /\
             Status.failure (status_ r2) = false /\
             parser_ (fst w) <> None /\
             pos_ r2 < String.length (responseText x) /\
             pos_ (fst w) = String.length (responseText x)).
  - intros [r tr] ((HI & HS & (HL & HE) & HP) & Hr). simpl in *. subst r2.
    destruct HI as [H1 H2 H3 H4 H5 H6 H7 H8 H9]. simpl in *.
    split; [reflexivity|].
    split; [constructor; simpl; auto|].
    split; [split; [exact HS | exact HE]|]. split; [reflexivity|].
    split; [apply not_failure_code; lia|]. auto.
  - intros []. cbv beta zeta.
    eapply triple_weaken with
      (P' := fun w =>
             Inv (set_pos_ (pos_ r2) (fst w), snd w) /\
             (Seen x (snd w) /\ F (snd w)) /\
             status_ (fst w) = status_ r2 /\
             Status.failure (status_ r2) = false /\
             parser_ (fst w) <> None /\
             pos_ r2 < String.length (responseText x) /\
             pos_ (fst w) = String.length (responseText x));
      [ | intros w (_ & H); exact H | intros res w H; exact H].
    eapply triple_try with
      (Q1 := fun res w =>
               Inv w /\ Seen x (snd w) /\
               match res with
               | Ok b => b = false /\
                         (Status.code (status_ (fst w)) <= 2)%Z /\
                         escapable w
               | Throw _ => True
               end).
    + eapply triple_bind with
        (Q1 := fun (_ : Result unit) w =>
                 Inv w /\ (Seen x (snd w) /\ F (snd w)) /\
                 status_ (fst w) = status_ r2).
      * apply (parseAndDeliver_inv F x (status_ r2) (pos_ r2) HF).
      * intros []. apply triple_ret. intros w (HI & (HS & HE) & Hst).
        split; [exact HI | split; [exact HS | split; [reflexivity |]]].
        split; [rewrite Hst; exact Hlow|].
        intros E. apply HE. rewrite <- Hst. exact E.
      * intros ex w (HI & (HS & _) & _). auto.
    + intros b w (HI & HS & Hb & HL). subst b. auto.
    + intros ex.
      eapply triple_bind with
        (Q1 := fun (_ : Result unit) w => Inv w /\ Seen x (snd w)).
      * eapply triple_weaken.
        -- apply (triple_logMessage_ (fun w => Inv w /\ Seen x (snd w))).
        -- intros w (HI & HS & _). auto.
        -- intros res w H. exact H.
      * intros [].
        eapply triple_bind with
          (Q1 := fun (_ : Result unit) w => Inv w /\ Seen x (snd w)).
        -- eapply triple_weaken.
           ++ apply (updateStatus_failure x Status.BAD_DATA eq_refl).
           ++ intros w H. exact H.
           ++ intros res w (HI & HS & _). auto.
        -- intros []. eapply triple_bind with
             (Q1 := fun (res : Result unit) w =>
                      Inv w /\ Seen x (snd w) /\ xhr_ (fst w) = None /\
                      res = Ok tt).
           ++ apply (clear_inv (Seen x) (frame_seen x)).
           ++ intros []. apply triple_ret. intros w (HI & HS & Hx & _). auto.
           ++ intros ex' w (_ & _ & _ & H). discriminate H.
        -- intros ex' w (HI & HS). auto.
      * intros ex' w (HI & HS). auto.
  - intros ex w (H & _). discriminate H.
Qed.

Lemma unfailed_of_attached (w : World) :
  Inv w -> Attached w -> xhr_ (fst w) <> None -> Unfailed (snd w).
Proof.
  intros HI HA Hx. destruct (HA Hx) as [H|H]; [|right; exact H].
  left. destruct (inv_settled HI) as [H0|H0]; [exact H0|].
  apply failure_code in H0. lia.
Qed.

Lemma onReadyStateChanged_inv (x : XhrSnapshot) :
  triple (fun w => Inv w /\ Seen x (snd w) /\ Attached w)
         (onReadyStateChanged_ x)
         (fun res w => Inv w /\ Seen x (snd w) /\
                       match res with Ok _ => Attached w | Throw _ => True end).
Proof.
  unfold onReadyStateChanged_.
  apply triple_this. intros r0.
  destruct (xhr_ r0) as [own|] eqn:Ex.
  2: { intros w ((HI & HS & _) & _). simpl. auto. }
  match goal with |- triple _ (if ?c then _ else _) _ => destruct c end.
  { apply triple_ret. intros w (H & _). exact H. }
  cbv zeta.
  eapply triple_bind with
    (Q1 := fun (res : Result unit) w =>
             Inv w /\ Seen x (snd w) /\
             match res with
             | Ok _ => Unfailed (snd w) /\ escapable w
             | Throw _ => True
             end).
  - (* lines 170-178 *)
    assert (Hskip : triple
              (fun w => (Inv w /\ Seen x (snd w) /\ Attached w) /\ fst w = r0)
              (ret tt)
              (fun (res : Result unit) w =>
                 Inv w /\ Seen x (snd w) /\
                 match res with
                 | Ok _ => Unfailed (snd w) /\ escapable w
                 | Throw _ => True
                 end)).
    { apply triple_ret. intros w ((HI & HS & HA) & Hr).
      assert (Hx : xhr_ (fst w) <> None) by (rewrite Hr, Ex; discriminate).
      split; [exact HI | split; [exact HS | split]].
      - apply unfailed_of_attached; assumption.
      - apply attached_escapable; assumption. }
    assert (Hfail : forall s, Status.failure s = true ->
              triple
                (fun w => (Inv w /\ Seen x (snd w) /\ Attached w) /\ fst w = r0)
                (updateStatus_ s)
                (fun (res : Result unit) w =>
                   Inv w /\ Seen x (snd w) /\
                   match res with
                   | Ok _ => Unfailed (snd w) /\ escapable w
                   | Throw _ => True
                   end)).
    { intros s Hs. eapply triple_weaken.
      - apply (updateStatus_inv (fun tr => Seen x tr /\ Unfailed tr) s
                 (frame_and _ _ (frame_seen x) frame_unfailed)).
      - intros w ((HI & HS & HA) & Hr).
        assert (Hx : xhr_ (fst w) <> None) by (rewrite Hr, Ex; discriminate).
        split; [exact HI | split; [split; [exact HS |] |]].
        + apply unfailed_of_attached; assumption.
        + apply may_become_failure, Hs.
      - intros res w (HI & (HS & HU) & Hst).
        split; [exact HI | split; [exact HS |]].
        destruct res; [|exact I]. split; [exact HU|].
        apply escapable_failure. rewrite Hst. exact Hs. }
    destruct (ReadyState.eqb (readyState x) ReadyState.COMPLETE);
      [|exact Hskip].
    destruct (ErrorCode.eqb (lastErrorCode x) ErrorCode.TIMEOUT);
      [apply Hfail; reflexivity|].
    destruct (ErrorCode.eqb (lastErrorCode x) ErrorCode.ABORT);
      [apply Hfail; reflexivity|].
    match goal with |- triple _ (if ?c then _ else _) _ => destruct c end;
      [apply Hfail; reflexivity | exact Hskip].
  - intros [].
    eapply triple_bind with
      (Q1 := fun (res : Result unit) w =>
               Inv w /\ Seen x (snd w) /\
               match res with
               | Ok _ => escapable w /\ parser_or_failure w
               | Throw _ => True
               end).
    + (* lines 187-192 *)
      unfold selectParser_. apply triple_this. intros r1.
      eapply triple_weaken;
        [apply (select_inv x r1) | | intros res w H; exact H].
      intros w ((HI & HS & HU & HN) & Hr). auto.
    + intros []. apply triple_this. intros r2.
      destruct (Status.gtb (status_ r2) Status.SUCCESS) eqn:Eg.
      * (* lines 194-197 *)
        eapply triple_weaken.
        -- apply (clear_inv (Seen x) (frame_seen x)).
        -- intros w ((HI & HS & _) & _). auto.
        -- intros res w (HI & HS & Hx & Hres). subst res.
           split; [exact HI | split; [exact HS | apply attached_detached, Hx]].
      * eapply triple_bind.
        -- (* lines 200-217 *)
           eapply triple_weaken;
             [apply (decode_inv x r2) | | intros res w H; exact H].
           intros w ((HI & HS & HN & HP) & Hr).
           split; [|exact Hr]. split; [exact HI | split; [exact HS |]].
           split;
             [split; [apply not_failure_code; rewrite Hr; exact Eg
                     | exact HN]|].
           intros E. apply HP in E. rewrite Hr in E.
           unfold Status.failure in E. congruence.
        -- intros [|].
           ++ apply triple_ret. intros w (HI & HS & Hx).
              split; [exact HI | split; [exact HS |]].
              apply attached_detached, Hx.
           ++ (* lines 219-229 *)
              destruct (ReadyState.eqb (readyState x) ReadyState.COMPLETE).
              ** eapply triple_bind with
                   (Q1 := fun (_ : Result unit) w => Inv w /\ Seen x (snd w)).
                 --- destruct (String.length (responseText x) =? 0).
                     +++ eapply triple_weaken.
                         *** apply (updateStatus_failure x Status.NO_DATA).
                             reflexivity.
                         *** intros w (HI & HS & _). auto.
                         *** intros res w (HI & HS & _). auto.
                     +++ eapply triple_weaken.
                         *** apply (updateStatus_low x Status.SUCCESS).
                             left. reflexivity.
                         *** intros w H. exact H.
                         *** intros res w (HI & HS & _). auto.
                 --- intros []. eapply triple_weaken.
                     +++ apply (clear_inv (Seen x) (frame_seen x)).
                     +++ intros w H. exact H.
                     +++ intros res w (HI & HS & Hx & Hres). subst res.
                         split; [exact HI | split; [exact HS |]].
                         apply attached_detached, Hx.
                 --- intros ex w (HI & HS). auto.
              ** eapply triple_weaken.
                 --- apply (updateStatus_low x Status.ACTIVE).
                     right. reflexivity.
                 --- intros w H. exact H.
                 --- intros res w (HI & HS & Hst).
                     split; [exact HI | split; [exact HS |]].
                     destruct res; [|exact I].
                     apply attached_low. rewrite Hst. simpl. lia.
        -- intros ex w (HI & HS & _). auto.
    + intros ex w (HI & HS & _). auto.
  - intros ex w (HI & HS & _). auto.
Qed.

Lemma readyStateChangeHandler_inv (target : XhrId) (x : XhrSnapshot) :
  triple (fun w => Inv w /\ Seen x (snd w) /\ Attached w)
         (readyStateChangeHandler_ target x)
         (fun res w =>
            Inv w /\
            match res with
            | Ok _ => Attached w
            | Throw _ => True
            end).
Proof.
  unfold readyStateChangeHandler_.
  eapply triple_try with
    (Q1 := fun (res : Result unit) w =>
             Inv w /\ Seen x (snd w) /\
             match res with Ok _ => Attached w | Throw _ => True end).
  - apply triple_this. intros r.
    destruct (xhr_ r) as [own|].
    + destruct (target =? own).
      * eapply triple_weaken; [apply (onReadyStateChanged_inv x) | | ].
        -- intros w (H & _). exact H.
        -- intros res w H. exact H.
      * apply triple_ret. intros w (H & _). exact H.
    + apply triple_ret. intros w (H & _). exact H.
  - intros [] w (HI & _ & HA). auto.
  - intros ex.
    eapply triple_bind with
      (Q1 := fun (_ : Result unit) w => Inv w /\ Seen x (snd w)).
    + eapply triple_weaken.
      * apply (triple_logMessage_ (fun w => Inv w /\ Seen x (snd w))).
      * intros w (HI & HS & _). auto.
      * intros res w H. exact H.
    + intros [].
      eapply triple_bind with
        (Q1 := fun (_ : Result unit) w => Inv w /\ Seen x (snd w)).
      * eapply triple_weaken.
        -- apply (updateStatus_failure x Status.HANDLER_EXCEPTION eq_refl).
        -- intros w H. exact H.
        -- intros res w (HI & HS & _). auto.
      * intros []. eapply triple_weaken.
        -- apply (clear_inv (Seen x) (frame_seen x)).
        -- intros w H. exact H.
        -- intros res w (HI & HS & Hx & Hres). subst res.
           split; [exact HI | apply attached_detached, Hx].
      * intros ex' w (HI & _). auto.
    + intros ex' w (HI & _). auto.
Qed.

(** ** The invariant along the life of a reader *)

Lemma inv_notify (r : XhrStreamReader) (tr : Trace)
    (target : XhrId) (x : XhrSnapshot) :
  Inv (r, tr) -> Inv (r, EvNotify target x :: tr).
Proof.
  intros [H1 H2 H3 H4 H5 H6 H7 H8 H9]. simpl in *.
  constructor; simpl; rewrite ?count_cons; simpl; auto. lia.
Qed.

Lemma inv_escaped (r : XhrStreamReader) (tr : Trace) (ex : Thrown) :
  Inv (r, tr) -> Inv (r, EvEscaped ex :: tr).
Proof.
  intros [H1 H2 H3 H4 H5 H6 H7 H8 H9]. simpl in *.
  constructor; simpl; rewrite ?count_cons; simpl; auto.
Qed.

Lemma fire_inv (target : XhrId) (x : XhrSnapshot) (w : World) :
  Inv w /\ Attached w -> Inv (fire target x w) /\ Attached (fire target x w).
Proof.
  destruct w as [r tr]. intros (HI & HA). unfold fire. simpl.
  assert (HI1 : Inv (r, EvNotify target x :: tr)) by (apply inv_notify, HI).
  assert (HA1 : Attached (r, EvNotify target x :: tr)).
  { intros Hx. destruct (HA Hx) as [H|H]; [left|right]; exact H. }
  destruct (listening_ r); [|auto].
  assert (HS1 : Seen x (snd (r, EvNotify target x :: tr))).
  { unfold Seen. simpl. split; [reflexivity | lia]. }
  pose proof (readyStateChangeHandler_inv target x _
                (conj HI1 (conj HS1 HA1))) as H.
  destruct (readyStateChangeHandler_ target x _) as [[[]|ex] [r' tr']];
    simpl in H |- *.
  - exact H.
  - destruct H as (HI' & _). split; [apply inv_escaped, HI'|].
    intros _. right. reflexivity.
Qed.

Lemma step_inv (op : Op) (w : World) :
  Inv w /\ Attached w -> Inv (step w op) /\ Attached (step w op).
Proof.
  destruct op as [target x|h|h]; simpl.
  - apply fire_inv.
  - destruct w as [r tr]. intros ([H1 H2 H3 H4 H5 H6 H7 H8 H9] & HA).
    split; [constructor; assumption | exact HA].
  - destruct w as [r tr]. intros ([H1 H2 H3 H4 H5 H6 H7 H8 H9] & HA).
    split; [constructor; assumption | exact HA].
Qed.

Lemma run_inv (ops : list Op) (w : World) :
  Inv w /\ Attached w -> Inv (run ops w) /\ Attached (run ops w).
Proof.
  revert w. induction ops as [|op ops IH]; intros w H; simpl.
  - exact H.
  - apply IH, step_inv, H.
Qed.

Lemma newReader_inv (xhr : XhrId) :
  Inv (newReader xhr, []) /\ Attached (newReader xhr, []).
Proof.
  split.
  - constructor; simpl; auto.
  - intros _. left. simpl. lia.
Qed.

Lemma lifetime_inv (xhr : XhrId) (ops : list Op) :
  Inv (lifetime xhr ops) /\ Attached (lifetime xhr ops).
Proof. apply run_inv, newReader_inv. Qed.

Lemma run_app (ops1 ops2 : list Op) (w : World) :
  run (ops1 ++ ops2) w = run ops2 (run ops1 w).
Proof. unfold run. apply fold_left_app. Qed.

(** ** What a method can change: relations between the world before and
    the world after *)

Definition rel {A} (P : World -> Prop) (R : World -> World -> Prop)
    (m : M A) : Prop :=
  forall w, P w -> R w (snd (m w)).

Definition anywhere : World -> Prop := fun _ => True.

Section Relations.

Variable R : World -> World -> Prop.
Hypothesis R_refl : forall w, R w w.
Hypothesis R_trans : forall w1 w2 w3, R w1 w2 -> R w2 w3 -> R w1 w3.

Lemma rel_ret {A} (P : World -> Prop) (a : A) : rel P R (ret a).
Proof. intros w _. apply R_refl. Qed.

Lemma rel_throw {A} (P : World -> Prop) (ex : Thrown) : rel P R (@throw A ex).
Proof. intros w _. apply R_refl. Qed.

Lemma rel_logMessage_ (P : World -> Prop) (ex : Thrown) :
  rel P R (logMessage_ ex).
Proof.
  intros w _. unfold logMessage_. destruct (concat ex); apply R_refl.
Qed.

Lemma rel_bind {A B} (P : World -> Prop) (m : M A) (f : A -> M B) :
  rel P R m -> (forall a, rel anywhere R (f a)) -> rel P R (bind m f).
Proof.
  intros Hm Hf w HP. unfold bind. specialize (Hm w HP).
  destruct (m w) as [[a|ex] w']; simpl in *.
  - eapply R_trans; [exact Hm | apply Hf; exact I].
  - exact Hm.
Qed.

Lemma rel_try {A} (P : World -> Prop) (body : M A) (handler : Thrown -> M A) :
  rel P R body -> (forall ex, rel anywhere R (handler ex)) ->
  rel P R (try_catch body handler).
Proof.
  intros Hb Hh w HP. unfold try_catch. specialize (Hb w HP).
  destruct (body w) as [[a|ex] w']; simpl in *.
  - exact Hb.
  - eapply R_trans; [exact Hb | apply Hh; exact I].
Qed.

Lemma rel_this {A} (P : World -> Prop) (f : XhrStreamReader -> M A) :
  (forall r, rel (fun w => P w /\ fst w = r) R (f r)) ->
  rel P R (bind this f).
Proof. intros H w HP. unfold bind, this. simpl. apply (H (fst w)). auto. Qed.

Lemma rel_weaken {A} (P P' : World -> Prop) (m : M A) :
  rel P' R m -> (forall w, P w -> P' w) -> rel P R m.
Proof. intros H HP w Hw. apply H, HP, Hw. Qed.

(** What the methods are made of. *)
Hypothesis R_status : forall s r tr,
  R (r, tr) (set_status_ s r, EvStatus (status_ r) s :: tr).
Hypothesis R_status_call : forall r tr, R (r, tr) (r, EvStatusHandler :: tr).
Hypothesis R_clear : forall w, R w (snd (clear_ w)).
Hypothesis R_select : forall k r tr,
  parser_ r = None ->
  R (r, tr) (set_parser_ (option_map (fun k => (k, newParser k)) k) r,
             EvSelect k :: tr).
Hypothesis R_pos : forall n r tr,
  pos_ r <= n -> R (r, tr) (set_pos_ n r, tr).
Hypothesis R_parse : forall start newData w,
  R w (snd (parseAndDeliver_ start newData w)).

Lemma rel_updateStatus_ (P : World -> Prop) (s : Status.t) :
  rel P R (updateStatus_ s).
Proof.
  intros [r tr] _.
  unfold updateStatus_, bind, this, assign, emit, invoke, ret. simpl.
  destruct (Status.eqb (status_ r) s); simpl; [apply R_refl|].
  destruct (statusHandler_ r) as [h|]; simpl.
  - eapply R_trans; [apply R_status | apply R_status_call].
  - apply R_status.
Qed.

Lemma rel_clear_ (P : World -> Prop) : rel P R clear_.
Proof. intros w _. apply R_clear. Qed.

Lemma rel_onReadyStateChanged_ (P : World -> Prop) (x : XhrSnapshot) :
  rel P R (onReadyStateChanged_ x).
Proof.
  unfold onReadyStateChanged_.
  apply rel_this. intros r0.
  destruct (xhr_ r0); [|apply rel_throw].
  match goal with |- rel _ _ (if ?c then _ else _) => destruct c end;
    [apply rel_ret|].
  cbv zeta. apply rel_bind.
  { repeat match goal with
           | |- rel _ _ (if ?c then _ else _) => destruct c
           end; try apply rel_ret; apply rel_updateStatus_. }
  intros _. apply rel_bind.
  { unfold selectParser_. apply rel_weaken with (P' := anywhere); [|auto].
    apply rel_this. intros r1.
    destruct (parser_ r1) eqn:Ep; [apply rel_ret|].
    intros [r tr] (_ & Hr). simpl in Hr. subst r1.
    rewrite bind_assign, bind_emit.
    set (selected := getParserByResponseHeader_ _ _).
    eapply R_trans; [apply (R_select selected r tr Ep)|].
    destruct selected.
    - apply R_refl.
    - apply rel_updateStatus_ with (P := anywhere). exact I. }
  intros _. apply rel_this. intros r2.
  destruct (Status.gtb (status_ r2) Status.SUCCESS); [apply rel_clear_|].
  apply rel_bind.
  { destruct (pos_ r2 <? String.length (responseText x)) eqn:Epos;
      [|apply rel_ret].
    apply Nat.ltb_lt in Epos.
    intros [r tr] (_ & Hr). simpl in Hr. subst r2.
    cbv zeta. rewrite bind_assign.
    eapply R_trans; [apply (R_pos (String.length (responseText x)) r tr); lia|].
    apply rel_try with (P := anywhere); [| |exact I].
    - apply rel_bind; [|intros _; apply rel_ret].
      intros w _. apply R_parse.
    - intros ex. apply rel_bind; [apply rel_logMessage_|].
      intros _. apply rel_bind; [apply rel_updateStatus_|].
      intros _. apply rel_bind; [apply rel_clear_|].
      intros _. apply rel_ret. }
  intros [|]; [apply rel_ret|].
  destruct (ReadyState.eqb (readyState x) ReadyState.COMPLETE).
  - apply rel_bind; [|intros _; apply rel_clear_].
    destruct (String.length (responseText x) =? 0); apply rel_updateStatus_.
  - apply rel_updateStatus_.
Qed.

Lemma rel_readyStateChangeHandler_ (P : World -> Prop)
    (target : XhrId) (x : XhrSnapshot) :
  rel P R (readyStateChangeHandler_ target x).
Proof.
  unfold readyStateChangeHandler_. apply rel_try.
  - apply rel_this. intros r. destruct (xhr_ r) as [own|]; [|apply rel_ret].
    destruct (target =? own); [apply rel_onReadyStateChanged_ | apply rel_ret].
  - intros ex. apply rel_bind; [apply rel_logMessage_|].
    intros _. apply rel_bind; [apply rel_updateStatus_|].
    intros _. apply rel_clear_.
Qed.

End Relations.

(** *** [later] *)

Lemma later_refl (w : World) : later w w.
Proof.
  constructor; [lia | | exists []; reflexivity].
  intros kind st H. exists st. exact H.
Qed.

Lemma later_trans (w1 w2 w3 : World) :
  later w1 w2 -> later w2 w3 -> later w1 w3.
Proof.
  intros [Hp1 Hk1 [d1 Hd1]] [Hp2 Hk2 [d2 Hd2]]. constructor.
  - lia.
  - intros kind st H. destruct (Hk1 kind st H) as [st' H'].
    apply (Hk2 kind st' H').
  - exists (d2 ++ d1). rewrite Hd2, Hd1. apply app_assoc.
Qed.

Lemma later_emit (r : XhrStreamReader) (tr : Trace) (e : Event) :
  later (r, tr) (r, e :: tr).
Proof.
  constructor; simpl; [lia | | exists [e]; reflexivity].
  intros kind st H. exists st. exact H.
Qed.

Lemma later_clear (w : World) : later w (snd (clear_ w)).
Proof.
  destruct w as [r tr].
  unfold clear_, bind, this, assign, emit, ret. simpl.
  destruct (xhr_ r) as [xhr|]; simpl.
  - constructor; simpl; [lia | |].
    + intros kind st H. exists st. exact H.
    + exists [EvDispose xhr; EvAbort xhr; EvDetach xhr]. reflexivity.
  - constructor; simpl; [lia | | exists []; reflexivity].
    intros kind st H. exists st. exact H.
Qed.

Lemma later_parse (start : nat) (newData : string) (w : World) :
  later w (snd (parseAndDeliver_ start newData w)).
Proof.
  destruct w as [r tr]. unfold parseAndDeliver_, bind, this, throw. simpl.
  destruct (parser_ r) as [[kind ps]|] eqn:Ep; simpl; [|apply later_refl].
  destruct (parse kind ps newData) as [ps' res].
  unfold bind, assign, emit, invoke, ret, throw. simpl.
  assert (Hk : same_parser r (set_parser_ (Some (kind, ps')) r)).
  { intros k st H. rewrite Ep in H. injection H as <- <-.
    exists ps'. reflexivity. }
  destruct res as [|msgs|]; simpl.
  - constructor; simpl; [lia | exact Hk | eexists [_]; reflexivity].
  - destruct (dataHandler_ r) as [h|]; simpl.
    + constructor; simpl; [lia | exact Hk |].
      exists [EvData msgs; EvParse start newData (PMessages msgs)]. reflexivity.
    + constructor; simpl; [lia | exact Hk |].
      exists [EvParse start newData (PMessages msgs)]. reflexivity.
  - constructor; simpl; [lia | exact Hk | eexists [_]; reflexivity].
Qed.

Lemma later_handler (target : XhrId) (x : XhrSnapshot) (w : World) :
  later w (snd (readyStateChangeHandler_ target x w)).
Proof.
  apply (rel_readyStateChangeHandler_ later later_refl later_trans)
    with (P := anywhere); try exact I.
  - intros s r tr. constructor; simpl; [lia | | eexists [_]; reflexivity].
    intros kind st H. exists st. exact H.
  - intros r tr. apply later_emit.
  - apply later_clear.
  - intros k r tr Ep. constructor; simpl; [lia | | eexists [_]; reflexivity].
    intros kind st H. congruence.
  - intros n r tr Hn. constructor; simpl; [lia | | exists []; reflexivity].
    intros kind st H. exists st. exact H.
  - apply later_parse.
Qed.

Lemma later_step (op : Op) (w : World) : later w (step w op).
Proof.
  destruct w as [r tr]. destruct op as [target x|h|h]; simpl.
  - unfold fire. simpl.
    destruct (listening_ r); [|apply later_emit].
    pose proof (later_handler target x (r, EvNotify target x :: tr)) as H.
    destruct (readyStateChangeHandler_ target x _) as [[[]|ex] [r' tr']];
      simpl in H |- *.
    + eapply later_trans; [apply later_emit | exact H].
    + eapply later_trans; [apply later_emit|].
      eapply later_trans; [exact H | apply later_emit].
  - constructor; simpl; [lia | | exists []; reflexivity].
    intros kind st H. exists st. exact H.
  - constructor; simpl; [lia | | exists []; reflexivity].
    intros kind st H. exists st. exact H.
Qed.

Lemma later_run (ops : list Op) (w : World) : later w (run ops w).
Proof.
  revert w. induction ops as [|op ops IH]; intros w; simpl.
  - apply later_refl.
  - eapply later_trans; [apply later_step | apply IH].
Qed.

(** *** [delivered] *)

Lemma batches_app (d1 d2 : Trace) :
  batches (d1 ++ d2) = batches d1 ++ batches d2.
Proof.
  induction d1 as [|e d1 IH]; simpl; [reflexivity|].
  destruct e; simpl; rewrite ?IH; reflexivity.
Qed.

Lemma parsed_arrays_app (d1 d2 : Trace) :
  parsed_arrays (d1 ++ d2) = parsed_arrays d1 ++ parsed_arrays d2.
Proof.
  induction d1 as [|e d1 IH]; simpl; [reflexivity|].
  destruct e as [| | | | ? ? [| |] | | | | |]; simpl; rewrite ?IH; reflexivity.
Qed.

Lemma delivered_refl (w : World) : delivered w w.
Proof.
  split; [reflexivity|]. exists []. split; [reflexivity|].
  simpl. destruct (dataHandler_ (fst w)); reflexivity.
Qed.

Lemma delivered_trans (w1 w2 w3 : World) :
  delivered w1 w2 -> delivered w2 w3 -> delivered w1 w3.
Proof.
  intros (Hh1 & d1 & Hd1 & Hb1) (Hh2 & d2 & Hd2 & Hb2).
  split; [congruence|]. exists (d2 ++ d1).
  split; [rewrite Hd2, Hd1; apply app_assoc|].
  rewrite batches_app, Hb1, Hb2, Hh1.
  destruct (dataHandler_ (fst w1)); [|reflexivity].
  symmetry. apply parsed_arrays_app.
Qed.

(** An event that is neither a parse nor a delivery. *)
Lemma delivered_emit (f : XhrStreamReader -> XhrStreamReader)
    (r : XhrStreamReader) (tr : Trace) (e : Event) :
  dataHandler_ (f r) = dataHandler_ r -> is_decoding e = false ->
  delivered (r, tr) (f r, e :: tr).
Proof.
  intros Hf He. split; [exact Hf|]. exists [e]. split; [reflexivity|]. simpl.
  destruct e as [| | | | ? ? [| |] | | | | |]; simpl in *;
    try discriminate He; destruct (dataHandler_ r); reflexivity.
Qed.

Lemma delivered_parse (start : nat) (newData : string) (w : World) :
  delivered w (snd (parseAndDeliver_ start newData w)).
Proof.
  destruct w as [r tr]. unfold parseAndDeliver_, bind, this, throw. simpl.
  destruct (parser_ r) as [[kind ps]|] eqn:Ep; simpl; [|apply delivered_refl].
  destruct (parse kind ps newData) as [ps' res].
  unfold bind, assign, emit, invoke, ret, throw. simpl.
  destruct res as [|msgs|]; simpl.
  - split; [reflexivity|]. eexists [_]. split; [reflexivity|]. simpl.
    destruct (dataHandler_ r); reflexivity.
  - destruct (dataHandler_ r) as [h|] eqn:Eh; simpl.
    + split; [reflexivity|]. eexists [_; _]. split; [reflexivity|]. simpl.
      rewrite Eh. reflexivity.
    + split; [reflexivity|]. eexists [_]. split; [reflexivity|]. simpl.
      rewrite Eh. reflexivity.
  - split; [reflexivity|]. eexists [_]. split; [reflexivity|]. simpl.
    destruct (dataHandler_ r); reflexivity.
Qed.

Lemma delivered_clear (w : World) : delivered w (snd (clear_ w)).
Proof.
  destruct w as [r tr].
  unfold clear_, bind, this, assign, emit, ret. simpl.
  destruct (xhr_ r) as [xhr|]; simpl.
  - split; [reflexivity|]. eexists [_; _; _]. split; [reflexivity|]. simpl.
    destruct (dataHandler_ r); reflexivity.
  - split; [reflexivity|]. exists []. split; [reflexivity|]. simpl.
    destruct (dataHandler_ r); reflexivity.
Qed.

Lemma delivered_handler (target : XhrId) (x : XhrSnapshot) (w : World) :
  delivered w (snd (readyStateChangeHandler_ target x w)).
Proof.
  apply (rel_readyStateChangeHandler_ delivered delivered_refl delivered_trans)
    with (P := anywhere); try exact I.
  - intros s r tr. apply (delivered_emit (set_status_ s)); reflexivity.
  - intros r tr. apply (delivered_emit (fun r => r)); reflexivity.
  - apply delivered_clear.
  - intros k r tr _.
    apply (delivered_emit
             (set_parser_ (option_map (fun k => (k, newParser k)) k)));
      reflexivity.
  - intros n r tr _. split; [reflexivity|]. exists []. split; [reflexivity|].
    simpl. destruct (dataHandler_ r); reflexivity.
  - apply delivered_parse.
Qed.

(** A log message built from a value that converts to a string. *)
Lemma bind_ret_log {B} (ex : Thrown) (k : unit -> M B) (w : World) :
  printable ex = true -> bind (logMessage_ ex) k w = k tt w.
Proof.
  unfold printable, logMessage_, bind. intros H.
  destruct (concat ex); [discriminate H | reflexivity].
Qed.

(** ** Facts about traces *)

Lemma trace_ok_split (post pre : Trace) (e : Event) :
  trace_ok (post ++ e :: pre) -> event_ok e pre /\ trace_ok pre.
Proof.
  induction post as [|e' post IH]; simpl.
  - auto.
  - intros [_ H]. apply IH, H.
Qed.

Lemma trace_ok_suffix (post pre : Trace) :
  trace_ok (post ++ pre) -> trace_ok pre.
Proof.
  induction post as [|e' post IH]; simpl; [auto|].
  intros [_ H]. apply IH, H.
Qed.

(** Once a failure value has been written, every later write is a failure
    value and nothing is parsed or delivered. *)
Lemma failure_persists (post pre : Trace) :
  trace_ok (post ++ pre) ->
  Status.failure (status_of pre) = true ->
  Status.failure (status_of (post ++ pre)) = true /\
  count is_decoding post = 0 /\
  (forall old new, In (EvStatus old new) post -> Status.failure new = true).
Proof.
  induction post as [|e post IH]; simpl; intros Hok Hpre.
  - split; [exact Hpre | split; [reflexivity | intros old new []]].
  - destruct Hok as [He Hok]. destruct (IH Hok Hpre) as (Hf & Hc & Hs).
    rewrite count_cons.
    destruct e; simpl in *;
      try (repeat split; auto;
           intros old' new' [E|Hin]; [discriminate E | eauto]).
    + (* EvStatus *)
      destruct He as [Hold Hcase].
      assert (Hnew : Status.failure new = true).
      { destruct Hcase as [Hlt|[(_ & Hn & _)|(Ho & _)]]; [|exact Hn|].
        - subst old. apply failure_code in Hf. apply failure_code.
          unfold lt_status in Hlt. lia.
        - rewrite Ho in Hold. rewrite <- Hold in Hf. discriminate Hf. }
      repeat split; auto.
      intros old' new' [E|Hin]; [injection E as <- <-; exact Hnew | eauto].
    + (* EvParse *) destruct He as [He _]. congruence.
    + (* EvData *) destruct He as [He _]. congruence.
Qed.

(** ** A reader without its transport *)

Lemma handler_detached (target : XhrId) (x : XhrSnapshot)
    (r : XhrStreamReader) (tr : Trace) :
  xhr_ r = None ->
  readyStateChangeHandler_ target x (r, tr) = (Ok tt, (r, tr)).
Proof.
  intros Hx. unfold readyStateChangeHandler_, try_catch, bind, this, ret.
  simpl. rewrite Hx. reflexivity.
Qed.

Lemma step_detached (op : Op) (r : XhrStreamReader) (tr : Trace) :
  xhr_ r = None ->
  exists r' d,
    step (r, tr) op = (r', d ++ tr) /\ forallb is_notify d = true /\
    xhr_ r' = None /\ status_ r' = status_ r /\ pos_ r' = pos_ r /\
    parser_ r' = parser_ r.
Proof.
  intros Hx. destruct op as [target x|h|h]; simpl.
  - exists r, [EvNotify target x]. unfold fire. simpl.
    rewrite handler_detached by exact Hx.
    destruct (listening_ r); auto 10.
  - exists (set_statusHandler_ (Some h) r), []. simpl. auto 10.
  - exists (set_dataHandler_ (Some h) r), []. simpl. auto 10.
Qed.

Lemma run_detached (ops : list Op) (r : XhrStreamReader) (tr : Trace) :
  xhr_ r = None ->
  exists r' d,
    run ops (r, tr) = (r', d ++ tr) /\ forallb is_notify d = true /\
    xhr_ r' = None /\ status_ r' = status_ r /\ pos_ r' = pos_ r /\
    parser_ r' = parser_ r.
Proof.
  revert r tr. induction ops as [|op ops IH]; intros r tr Hx; simpl.
  - exists r, []. auto 10.
  - destruct (step_detached op r tr Hx)
      as (r1 & d1 & E1 & Hn1 & Hx1 & Hs1 & Hp1 & Hk1).
    rewrite E1.
    destruct (IH r1 (d1 ++ tr) Hx1)
      as (r2 & d2 & E2 & Hn2 & Hx2 & Hs2 & Hp2 & Hk2).
    exists r2, (d2 ++ d1).
    split; [rewrite <- app_assoc; exact E2|].
    split; [rewrite forallb_app, Hn2, Hn1; reflexivity|].
    repeat split; congruence.
Qed.

(** [updateStatus_] writes no field but [status_]. *)
Lemma updateStatus_fields (s : Status.t) (r : XhrStreamReader) (tr : Trace) :
  let r' := fst (snd (updateStatus_ s (r, tr))) in
  status_ r' = s /\ xhr_ r' = xhr_ r /\ parser_ r' = parser_ r /\
  pos_ r' = pos_ r /\ statusHandler_ r' = statusHandler_ r /\
  dataHandler_ r' = dataHandler_ r /\ listening_ r' = listening_ r.
Proof.
  cbv zeta. unfold updateStatus_, bind, this, assign, emit, invoke, ret. simpl.
  destruct (Status.eqb (status_ r) s) eqn:E; simpl.
  - apply status_eqb_eq in E. repeat split; auto.
  - destruct (statusHandler_ r) eqn:Eh; simpl; repeat split; auto.
Qed.

(** ** C9: the status handler is called exactly at a change *)

Lemma updateStatus_effect (s : Status.t) (r : XhrStreamReader) (tr : Trace) :
  let w' := snd (updateStatus_ s (r, tr)) in
  status_ (fst w') = s /\
  count is_status_call (snd w') =
  count is_status_call tr +
  match statusHandler_ r with
  | Some _ => if Status.eqb (status_ r) s then 0 else 1
  | None => 0
  end /\
  (Status.eqb (status_ r) s = true -> w' = (r, tr)) /\
  (Status.eqb (status_ r) s = false ->
   snd w' = match statusHandler_ r with
            | Some _ => [EvStatusHandler; EvStatus (status_ r) s] ++ tr
            | None => [EvStatus (status_ r) s] ++ tr
            end).
Proof.
  unfold updateStatus_, bind, this, assign, emit, invoke, ret. simpl.
  destruct (Status.eqb (status_ r) s) eqn:E; simpl.
  - pose proof (proj1 (status_eqb_eq _ _) E) as Heq.
    repeat split; auto; try discriminate.
    destruct (statusHandler_ r); lia.
  - destruct (statusHandler_ r) as [h|]; simpl;
      rewrite ?count_cons; simpl; repeat split; auto; try lia; discriminate.
Qed.

(** C9.  [updateStatus_(s)] leaves the status at [s]; it calls the registered
    status handler once when [s] differs from the current status and not at
    all when it re-affirms it; without a registered handler nothing is
    called.  Over any life of a reader every call of the status handler
    directly follows a write that changed the status. *)
Theorem updateStatus_calls_handler_iff_changed :
  (forall (s : Status.t) (r : XhrStreamReader) (tr : Trace),
     let w' := snd (updateStatus_ s (r, tr)) in
     status_ (fst w') = s /\
     count is_status_call (snd w') =
     count is_status_call tr +
     match statusHandler_ r with
     | Some _ => if Status.eqb (status_ r) s then 0 else 1
     | None => 0
     end /\
     (Status.eqb (status_ r) s = true -> w' = (r, tr)) /\
     (Status.eqb (status_ r) s = false ->
      snd w' = match statusHandler_ r with
               | Some _ => [EvStatusHandler; EvStatus (status_ r) s] ++ tr
               | None => [EvStatus (status_ r) s] ++ tr
               end)) /\
  (forall xhr ops post pre,
     snd (lifetime xhr ops) = post ++ EvStatusHandler :: pre ->
     exists old new older,
       pre = EvStatus old new :: older /\ old <> new).
Proof.
  split; [apply updateStatus_effect|].
  intros xhr ops post pre E.
  destruct (lifetime_inv xhr ops) as [HI _].
  pose proof (inv_trace HI) as Hok. rewrite E in Hok.
  apply trace_ok_split in Hok. destruct Hok as [He Hok].
  destruct pre as [|[| old new | | | | | | | |] older]; try contradiction.
  exists old, new, older. split; [reflexivity|].
  destruct Hok as [[_ [Hlt|[(_ & _ & Hne)|(Ho & Hn & _)]]] _];
    [|exact Hne|].
  - intros ->. unfold lt_status in Hlt. lia.
  - rewrite Ho, Hn. discriminate.
Qed.

(** ** C8: teardown *)

Lemma clear_twice (w : World) :
  fst (clear_ w) = Ok tt /\ clear_ (snd (clear_ w)) = (Ok tt, snd (clear_ w)).
Proof.
  destruct w as [r tr]. unfold clear_, bind, this, assign, emit, ret. simpl.
  destruct (xhr_ r) as [xhr|] eqn:Ex; simpl; [auto|].
  rewrite Ex. auto.
Qed.

(** C8.  A second [clear_()] changes nothing and does not throw; over any
    life of a reader [abort] and [dispose] have been called not at all while
    the transport is held and exactly once each from the teardown on; in
    [clear_] the field [xhr_] is set to null before [abort] is called, and a
    ready-state change that reaches a reader without transport does
    nothing. *)
Theorem clear_idempotent_single_issue :
  (forall w, fst (clear_ w) = Ok tt /\
             clear_ (snd (clear_ w)) = (Ok tt, snd (clear_ w))) /\
  (forall xhr ops,
     let w := lifetime xhr ops in
     count is_abort (snd w) =
       match xhr_ (fst w) with Some _ => 0 | None => 1 end /\
     count is_dispose (snd w) =
       match xhr_ (fst w) with Some _ => 0 | None => 1 end) /\
  (forall r tr,
     let w' := snd (clear_ (r, tr)) in
     xhr_ (fst w') = None /\ listening_ (fst w') = false /\
     snd w' = match xhr_ r with
              | Some xhr => [EvDispose xhr; EvAbort xhr; EvDetach xhr] ++ tr
              | None => tr
              end) /\
  (forall target x r tr,
     readyStateChangeHandler_ target x (set_xhr_ None r, tr)
     = (Ok tt, (set_xhr_ None r, tr))).
Proof.
  split; [apply clear_twice|]. split; [|split].
  - intros xhr ops w. destruct (lifetime_inv xhr ops) as [HI _].
    split; apply HI.
  - intros r tr. unfold clear_, bind, this, assign, emit, ret. simpl.
    destruct (xhr_ r) as [xhr|] eqn:Ex; simpl; auto.
  - intros target x r tr. apply handler_detached. reflexivity.
Qed.

(** ** C4: parser selection *)






(** ** The texts a reader has seen *)

Definition same_texts (w w' : World) : Prop :=
  longest_text (snd w') = longest_text (snd w).

Lemma same_texts_handler (target : XhrId) (x : XhrSnapshot) (w : World) :
  same_texts w (snd (readyStateChangeHandler_ target x w)).
Proof.
  apply (rel_readyStateChangeHandler_ same_texts) with (P := anywhere);
    unfold same_texts; try exact I; try reflexivity.
  - intros w1 w2 w3 H1 H2. congruence.
  - intros [r tr]. unfold clear_, bind, this, assign, emit, ret. simpl.
    destruct (xhr_ r); reflexivity.
  - intros start newData [r tr].
    unfold parseAndDeliver_, bind, this, throw. simpl.
    destruct (parser_ r) as [[kind ps]|]; simpl; [|reflexivity].
    destruct (parse kind ps newData) as [ps' res].
    unfold bind, assign, emit, invoke, ret, throw. simpl.
    destruct res; simpl; try reflexivity.
    destruct (dataHandler_ r); reflexivity.
Qed.

Lemma longest_text_step (op : Op) (w : World) :
  longest_text (snd (step w op)) =
  match op with
  | Notify _ x =>
      Nat.max (String.length (responseText x)) (longest_text (snd w))
  | _ => longest_text (snd w)
  end.
Proof.
  destruct w as [r tr]. destruct op as [target x|h|h]; simpl; try reflexivity.
  unfold fire. simpl. destruct (listening_ r); [|reflexivity].
  pose proof (same_texts_handler target x (r, EvNotify target x :: tr)) as H.
  unfold same_texts in H.
  destruct (readyStateChangeHandler_ target x _) as [[[]|ex] [r' tr']];
    simpl in H |- *; exact H.
Qed.

Lemma longest_text_run (ops : list Op) (w : World) :
  longest_text (snd (run ops w)) =
  fold_left Nat.max (text_lengths ops) (longest_text (snd w)).
Proof.
  revert w. induction ops as [|op ops IH]; intros w; simpl; [reflexivity|].
  unfold run in IH. rewrite IH, longest_text_step.
  destruct op; simpl; try reflexivity. rewrite Nat.max_comm. reflexivity.
Qed.

Lemma text_lengths_app (ops1 ops2 : list Op) :
  text_lengths (ops1 ++ ops2) = text_lengths ops1 ++ text_lengths ops2.
Proof.
  induction ops1 as [|op ops1 IH]; simpl; [reflexivity|].
  destruct op; simpl; rewrite ?IH; reflexivity.
Qed.

Lemma nondecreasing_prefix (l1 l2 : list nat) :
  nondecreasing (l1 ++ l2) = true -> nondecreasing l1 = true.
Proof.
  induction l1 as [|a l1 IH]; [reflexivity|].
  destruct l1 as [|b l1]; [reflexivity|].
  simpl. intros H. apply andb_true_iff in H. destruct H as [H1 H2].
  rewrite H1. simpl. apply IH. exact H2.
Qed.

Lemma nondecreasing_below_last (l : list nat) (a : nat) :
  nondecreasing (l ++ [a]) = true -> Forall (fun n => n <= a) l.
Proof.
  induction l as [|b l IH]; intros H; [constructor|].
  destruct l as [|c l].
  - simpl in H. apply andb_true_iff in H. destruct H as [H _].
    apply Nat.leb_le in H. repeat constructor. exact H.
  - change (((b <=? c) && nondecreasing ((c :: l) ++ [a])) = true) in H.
    apply andb_true_iff in H. destruct H as [H1 H2].
    apply Nat.leb_le in H1. specialize (IH H2).
    constructor; [|exact IH].
    inversion IH; subst. lia.
Qed.

Lemma fold_max_below (l : list nat) (a b : nat) :
  Forall (fun n => n <= a) l -> b <= a -> fold_left Nat.max l b <= a.
Proof.
  revert b. induction l as [|c l IH]; intros b Hl Hb; simpl; [exact Hb|].
  inversion Hl; subst. apply IH; [assumption | lia].
Qed.

Lemma longest_is_last (l : list nat) (a : nat) :
  nondecreasing (l ++ [a]) = true -> fold_left Nat.max (l ++ [a]) 0 = a.
Proof.
  intros H. rewrite fold_left_app. simpl.
  pose proof (fold_max_below l a 0 (nondecreasing_below_last l a H)
                (Nat.le_0_l a)).
  lia.
Qed.

(** The end of the newest slice never moves back along a trace. *)
Lemma parsed_upto_grows (post pre : Trace) :
  trace_ok (post ++ pre) -> parsed_upto pre <= parsed_upto (post ++ pre).
Proof.
  induction post as [|e post IH]; simpl; [lia|].
  intros [He Hok]. specialize (IH Hok).
  destruct e; simpl in *; try exact IH.
  destruct He as (_ & He & _). lia.
Qed.

Lemma failure_means_detached (xhr : XhrId) (ops : list Op) :
  let w := lifetime xhr ops in
  Status.failure (status_ (fst w)) = true ->
  xhr_ (fst w) = None \/ existsb is_escaped (snd w) = true.
Proof.
  intros w Hf. destruct (lifetime_inv xhr ops) as [_ HA]. fold w in HA.
  destruct (xhr_ (fst w)) as [own|] eqn:Ex; [|left; reflexivity].
  right. unfold Attached in HA. rewrite Ex in HA.
  destruct HA as [H|H]; [discriminate | | exact H].
  apply failure_code in Hf. lia.
Qed.

(** ** C1: a failure status *)

(** C1, as amended.  Over any life of a reader: from the moment the status
    holds a value above [SUCCESS], the data handler is not invoked and the
    parser is not called again, and every value written to the status later
    is again above [SUCCESS]; a reader left with such a status has been torn
    down unless an exception escaped the ready-state handler; and once the
    reader is torn down no operation changes its status or makes it call
    anything. *)
Theorem failure_status_settles (xhr : XhrId) (ops : list Op) :
  let w := lifetime xhr ops in
  (forall post pre,
     snd w = post ++ pre ->
     Status.failure (status_of pre) = true ->
     Status.failure (getStatus (fst w)) = true /\
     count is_decoding post = 0 /\
     (forall old new, In (EvStatus old new) post ->
                      Status.failure new = true)) /\
  (Status.failure (getStatus (fst w)) = true ->
   xhr_ (fst w) = None \/ existsb is_escaped (snd w) = true) /\
  (xhr_ (fst w) = None ->
   forall ops',
     getStatus (fst (run ops' w)) = getStatus (fst w) /\
     exists d, snd (run ops' w) = d ++ snd w /\ forallb is_notify d = true).
Proof.
  intros w. destruct (lifetime_inv xhr ops) as [HI HA]. fold w in HI, HA.
  split; [|split].
  - intros post pre E Hf.
    pose proof (inv_trace HI) as Hok. rewrite E in Hok.
    destruct (failure_persists post pre Hok Hf) as (H1 & H2 & H3).
    split; [|split; assumption].
    unfold getStatus. rewrite <- (inv_status HI), E. exact H1.
  - apply failure_means_detached.
  - intros Hx ops'. destruct w as [r tr]. simpl in Hx.
    destruct (run_detached ops' r tr Hx) as (r' & d & E & Hn & _ & Hs & _).
    rewrite E. simpl. split; [exact Hs|]. exists d. auto.
Qed.

(** ** C2: the order of status values *)

(** C2, as amended.  Over any life of a reader every write to the status
    either moves it up in the order of the enumeration, or replaces one
    value above [SUCCESS] by another such value, or, after an exception has
    escaped the ready-state handler, replaces [SUCCESS] by [ACTIVE]; the
    parser is called and the data handler invoked only while the status is
    at most [SUCCESS]; and a reader left with a status above [SUCCESS] has
    been torn down unless an exception escaped the ready-state handler. *)
Theorem status_moves (xhr : XhrId) (ops : list Op) :
  let w := lifetime xhr ops in
  (forall post old new pre,
     snd w = post ++ EvStatus old new :: pre ->
     old = status_of pre /\
     (lt_status old new \/
      (Status.failure old = true /\ Status.failure new = true /\
       old <> new) \/
      (old = Status.SUCCESS /\ new = Status.ACTIVE /\
       existsb is_escaped pre = true))) /\
  (forall post e pre,
     snd w = post ++ e :: pre -> is_decoding e = true ->
     Status.failure (status_of pre) = false) /\
  (Status.failure (getStatus (fst w)) = true ->
   xhr_ (fst w) = None \/ existsb is_escaped (snd w) = true).
Proof.
  intros w. destruct (lifetime_inv xhr ops) as [HI HA]. fold w in HI, HA.
  pose proof (inv_trace HI) as Hok.
  split; [|split].
  - intros post old new pre E. rewrite E in Hok.
    apply trace_ok_split in Hok. destruct Hok as [He _]. exact He.
  - intros post e pre E He. rewrite E in Hok.
    apply trace_ok_split in Hok. destruct Hok as [Hev _].
    destruct e; simpl in He; try discriminate He; simpl in Hev; apply Hev.
  - apply failure_means_detached.
Qed.

(** ** C6: the read cursor *)

(** C6.  When the response texts of the ready-state changes never get
    shorter: the cursor never moves back; after each ready-state change it is
    at most the length of the text that change came with; every slice handed
    to the parser starts at the cursor, which is where the slice before it
    ended, and is the rest of the current text from there; so two slices
    never overlap. *)
Theorem cursor_monotone_and_bounded (xhr : XhrId) (ops : list Op) :
  nondecreasing (text_lengths ops) = true ->
  (forall ops1 ops2,
     ops = ops1 ++ ops2 ->
     pos_ (fst (lifetime xhr ops1)) <= pos_ (fst (lifetime xhr ops))) /\
  (forall ops1 target x ops2,
     ops = ops1 ++ Notify target x :: ops2 ->
     pos_ (fst (lifetime xhr (ops1 ++ [Notify target x])))
     <= String.length (responseText x)) /\
  (forall post start newData res pre,
     snd (lifetime xhr ops) = post ++ EvParse start newData res :: pre ->
     start = parsed_upto pre /\
     newData = JsString.substr (newest_text pre) start /\
     start + String.length newData = String.length (newest_text pre)) /\
  (forall post start newData res mid start' newData' res' pre,
     snd (lifetime xhr ops)
     = post ++ EvParse start newData res
            :: mid ++ EvParse start' newData' res' :: pre ->
     start' + String.length newData' <= start) /\
  pos_ (fst (lifetime xhr ops)) = parsed_upto (snd (lifetime xhr ops)).
Proof.
  intros Hmono.
  destruct (lifetime_inv xhr ops) as [HI _].
  pose proof (inv_trace HI) as Hok.
  repeat match goal with |- _ /\ _ => split end.
  - intros ops1 ops2 E. subst ops. unfold lifetime. rewrite run_app.
    apply (later_run ops2).
  - intros ops1 target x ops2 E.
    destruct (lifetime_inv xhr (ops1 ++ [Notify target x])) as [HI1 _].
    rewrite (inv_pos HI1). unfold lifetime. rewrite longest_text_run.
    simpl (longest_text _). rewrite text_lengths_app. simpl (text_lengths _).
    rewrite longest_is_last; [lia|].
    subst ops. rewrite text_lengths_app in Hmono. simpl in Hmono.
    change (String.length (responseText x) :: text_lengths ops2)
      with ([String.length (responseText x)] ++ text_lengths ops2) in Hmono.
    rewrite app_assoc in Hmono.
    apply (nondecreasing_prefix _ _ Hmono).
  - intros post start newData res pre E. rewrite E in Hok.
    apply trace_ok_split in Hok. destruct Hok as [(_ & H1 & H2 & H3) _].
    split; [symmetry; exact H1|]. split; [exact H3|].
    rewrite H3, substr_length. lia.
  - intros post start newData res mid start' newData' res' pre E.
    rewrite E in Hok. apply trace_ok_split in Hok.
    destruct Hok as [(_ & H1 & _) Hok].
    pose proof (parsed_upto_grows mid _ Hok) as Hg. simpl in Hg. lia.
  - symmetry. apply (inv_parsed HI).
Qed.

(** ** C3: delivery *)

Lemma parses_recorded_refl (w : World) : parses_recorded w w.
Proof. exists []. split; [reflexivity | constructor]. Qed.

Lemma parses_recorded_trans (w1 w2 w3 : World) :
  parses_recorded w1 w2 -> parses_recorded w2 w3 -> parses_recorded w1 w3.
Proof.
  intros (d1 & E1 & H1) (d2 & E2 & H2). exists (d2 ++ d1).
  split; [rewrite E2, E1; apply app_assoc|].
  apply Forall_app. split; assumption.
Qed.

Lemma parses_recorded_emit (r r' : XhrStreamReader) (tr : Trace) (e : Event) :
  is_decoding e = false -> parses_recorded (r, tr) (r', e :: tr).
Proof.
  intros He. exists [e]. split; [reflexivity|].
  constructor; [|constructor].
  destruct e; simpl in *; try exact I. discriminate He.
Qed.

Lemma parses_recorded_clear (w : World) : parses_recorded w (snd (clear_ w)).
Proof.
  destruct w as [r tr].
  unfold clear_, bind, this, assign, emit, ret. simpl.
  destruct (xhr_ r) as [xhr|]; simpl.
  - eexists [_; _; _]. split; [reflexivity|]. repeat constructor.
  - exists []. split; [reflexivity | constructor].
Qed.

Lemma parses_recorded_parse (start : nat) (newData : string) (w : World) :
  parses_recorded w (snd (parseAndDeliver_ start newData w)).
Proof.
  destruct w as [r tr]. unfold parseAndDeliver_, bind, this, throw. simpl.
  destruct (parser_ r) as [[kind ps]|] eqn:Ep; simpl;
    [|apply parses_recorded_refl].
  destruct (parse kind ps newData) as [ps' res] eqn:Eparse.
  unfold bind, assign, emit, invoke, ret, throw. simpl.
  assert (Hp : from_parse (EvParse start newData res)).
  { exists kind, ps, ps'. exact Eparse. }
  destruct res as [|msgs|thrown]; simpl.
  - eexists [_]. split; [reflexivity|]. repeat constructor. exact Hp.
  - destruct (dataHandler_ r) as [h|]; simpl.
    + eexists [_; _]. split; [reflexivity|]. repeat constructor. exact Hp.
    + eexists [_]. split; [reflexivity|]. repeat constructor. exact Hp.
  - eexists [_]. split; [reflexivity|]. repeat constructor. exact Hp.
Qed.

Lemma parses_recorded_handler (target : XhrId) (x : XhrSnapshot) (w : World) :
  parses_recorded w (snd (readyStateChangeHandler_ target x w)).
Proof.
  apply (rel_readyStateChangeHandler_ parses_recorded
           parses_recorded_refl parses_recorded_trans)
    with (P := anywhere); try exact I.
  - intros s r tr. apply parses_recorded_emit. reflexivity.
  - intros r tr. apply parses_recorded_emit. reflexivity.
  - apply parses_recorded_clear.
  - intros k r tr _. apply parses_recorded_emit. reflexivity.
  - intros n r tr _. exists []. split; [reflexivity | constructor].
  - apply parses_recorded_parse.
Qed.

Lemma parses_recorded_step (op : Op) (w : World) :
  parses_recorded w (step w op).
Proof.
  destruct w as [r tr]. destruct op as [target x|h|h]; simpl.
  - unfold fire. simpl.
    assert (Hn : parses_recorded (r, tr) (r, EvNotify target x :: tr))
      by (apply parses_recorded_emit; reflexivity).
    destruct (listening_ r); [|exact Hn].
    pose proof (parses_recorded_handler target x
                  (r, EvNotify target x :: tr)) as H.
    destruct (readyStateChangeHandler_ target x _) as [[[]|ex] [r' tr']];
      simpl in H |- *.
    + eapply parses_recorded_trans; [exact Hn | exact H].
    + eapply parses_recorded_trans; [exact Hn|].
      eapply parses_recorded_trans; [exact H|].
      apply parses_recorded_emit. reflexivity.
  - exists []. split; [reflexivity | constructor].
  - exists []. split; [reflexivity | constructor].
Qed.

Lemma parses_recorded_run (ops : list Op) (w : World) :
  parses_recorded w (run ops w).
Proof.
  revert w. induction ops as [|op ops IH]; intros w; simpl.
  - apply parses_recorded_refl.
  - eapply parses_recorded_trans; [apply parses_recorded_step | apply IH].
Qed.

(** With parsers that give the empty sequence as [null], the arrays the
    parser returned are its non-empty sequences. *)
Lemma arrays_are_sequences (d : Trace) :
  no_empty_array -> Forall from_parse d ->
  parsed_arrays d = filter nonempty (parsed_sequences d).
Proof.
  intros Hc. induction d as [|e d IH]; intros Hd; [reflexivity|].
  inversion Hd as [|e' d' He Hd']; subst. specialize (IH Hd').
  destruct e as [| | | | start newData [|msgs|thrown] | | | | |];
    simpl; try exact IH.
  destruct He as (kind & st & st' & Hp).
  pose proof (Hc _ _ _ _ _ Hp) as Hne.
  destruct msgs as [|m msgs]; [contradiction|].
  simpl. rewrite IH. reflexivity.
Qed.

(** C3.  The parsers give the empty sequence of messages as [null].  Then
    in every ready-state change the calls of the registered data handler
    are exactly the non-empty sequences the parser produced, one call for
    each with that sequence as it is, and none for an empty one; after a
    parse the data handler is called if and only if the sequence is not
    empty; and over any life of a reader each call of the data handler
    directly follows the parse that produced its argument, which is not
    empty. *)
Theorem delivery_follows_parse :
  no_empty_array ->
  (forall target x r tr,
     let w' := snd (readyStateChangeHandler_ target x (r, tr)) in
     exists d,
       snd w' = d ++ tr /\
       batches d = match dataHandler_ r with
                   | Some _ => filter nonempty (parsed_sequences d)
                   | None => []
                   end) /\
  (forall start newData r tr kind st handler,
     parser_ r = Some (kind, st) ->
     dataHandler_ r = Some handler ->
     let res := snd (parse kind st newData) in
     snd (snd (parseAndDeliver_ start newData (r, tr))) =
     if nonempty (sequence res)
     then [EvData (sequence res); EvParse start newData res] ++ tr
     else [EvParse start newData res] ++ tr) /\
  (forall xhr ops post msgs pre,
     snd (lifetime xhr ops) = post ++ EvData msgs :: pre ->
     msgs <> [] /\
     exists start newData older,
       pre = EvParse start newData (PMessages msgs) :: older).
Proof.
  intros Hc. split; [|split].
  - intros target x r tr w'.
    destruct (delivered_handler target x (r, tr)) as (_ & d & H1 & H2).
    destruct (parses_recorded_handler target x (r, tr)) as (d' & H1' & H2').
    fold w' in H1, H1'. simpl in H1, H1'. rewrite H1 in H1'.
    apply app_inv_tail in H1'. subst d'.
    exists d. split; [exact H1|]. simpl in H2. rewrite H2.
    destruct (dataHandler_ r); [|reflexivity].
    apply arrays_are_sequences; assumption.
  - intros start newData r tr kind st handler Ep Eh res. subst res.
    unfold parseAndDeliver_, bind, this, throw. simpl. rewrite Ep.
    destruct (parse kind st newData) as [st' res] eqn:Eparse.
    unfold bind, assign, emit, invoke, ret, throw. simpl.
    destruct res as [|msgs|thrown]; simpl; try reflexivity.
    rewrite Eh. pose proof (Hc _ _ _ _ _ Eparse) as Hne.
    destruct msgs as [|m msgs]; [contradiction | reflexivity].
  - intros xhr ops post msgs pre E.
    destruct (lifetime_inv xhr ops) as [HI _].
    pose proof (inv_trace HI) as Hok. rewrite E in Hok.
    apply trace_ok_split in Hok. destruct Hok as [[_ He] _].
    destruct pre as [|[| | | | start newData [|msgs'|thrown] | | | | |] older];
      try contradiction.
    subst msgs'. split; [|eauto].
    destruct (parses_recorded_run ops (newReader xhr, [])) as (d & Hd & HF).
    simpl in Hd. rewrite app_nil_r in Hd.
    change (run ops (newReader xhr, [])) with (lifetime xhr ops) in Hd.
    rewrite Hd in E. rewrite E in HF.
    apply Forall_app in HF. destruct HF as [_ HF].
    inversion HF as [|e1 l1 _ HF1]; subst.
    inversion HF1 as [|e2 l2 He2 _]; subst.
    destruct He2 as (kind & st & st' & Hp).
    apply (Hc _ _ _ _ _ Hp).
Qed.

(** ** C5 and C10: a failed request *)

Ltac run_handler :=
  unfold readyStateChangeHandler_, onReadyStateChanged_, selectParser_,
    updateStatus_, clear_, logMessage_, try_catch, bind, this, assign, emit,
    invoke, ret, throw;
  simpl.

Ltac split_calls :=
  repeat match goal with
         | |- context [match ?h ?t with Returns => _ | Throws _ => _ end] =>
             destruct (h t) eqn:?; simpl
         | |- context [match concat ?v with None => _ | Some _ => _ end] =>
             destruct (concat v) eqn:?; simpl
         end.

(** C5, as amended.  A ready-state change at completion with neither a
    timeout nor an abort and a status code other than 200 and 206 never
    reaches the parser or the data handler and leaves the status
    [XHR_ERROR], [BAD_DATA] or [HANDLER_EXCEPTION]; it is [XHR_ERROR], and
    the reader torn down, when a parser is there or can be selected from the
    headers and the status handler does not throw. *)
Theorem error_status_code_at_completion
    (x : XhrSnapshot) (r : XhrStreamReader) (tr : Trace) (own : XhrId) :
  xhr_ r = Some own ->
  readyState x = ReadyState.COMPLETE ->
  ErrorCode.eqb (lastErrorCode x) ErrorCode.TIMEOUT = false ->
  ErrorCode.eqb (lastErrorCode x) ErrorCode.ABORT = false ->
  (statusCode x =? HttpStatus.OK)%Z = false ->
  (statusCode x =? HttpStatus.PARTIAL_CONTENT)%Z = false ->
  let out := readyStateChangeHandler_ own x (r, tr) in
  count is_decoding (snd (snd out)) = count is_decoding tr /\
  (getStatus (fst (snd out)) = Status.XHR_ERROR \/
   getStatus (fst (snd out)) = Status.BAD_DATA \/
   getStatus (fst (snd out)) = Status.HANDLER_EXCEPTION) /\
  (quiet r ->
   parser_ r <> None \/
   getParserByResponseHeader_ (contentTypeHeader x)
     (contentTransferEncoding x) <> None ->
   fst out = Ok tt /\
   getStatus (fst (snd out)) = Status.XHR_ERROR /\
   xhr_ (fst (snd out)) = None).
Proof.
  destruct r as [xh pa po st sh dh li].
  destruct x as [rs ec sc text ct te]. simpl.
  intros -> -> Hto Hab H200 H206. unfold quiet. simpl.
  run_handler. rewrite Nat.eqb_refl. simpl.
  rewrite Hto, Hab, H200, H206. simpl.
  destruct (getParserByResponseHeader_ ct te) as [k|];
    destruct st; destruct sh as [h|]; destruct pa as [p|]; simpl;
    split_calls; unfold count; simpl;
    (split; [reflexivity | split; [tauto |]]);
    intros Hq Hp;
    try (destruct Hp as [Hp|Hp]; congruence);
    try (rewrite Hq in *; discriminate);
    auto.
Qed.

Lemma cons_app_intro (e : Event) (l d tr : Trace) :
  l = d ++ tr -> e :: l = (e :: d) ++ tr.
Proof. intros ->. reflexivity. Qed.

Ltac new_events :=
  eexists; split;
  [repeat apply cons_app_intro; exact (eq_refl : _ = [] ++ _) | simpl].

(** C10, as amended.  At completion with a timeout, an abort or a status
    code other than 200 and 206, while no parser has been selected and none
    can be selected from the headers, the reader ends with [BAD_DATA] or
    [HANDLER_EXCEPTION], or else an exception has escaped the ready-state
    handler and the reader is left with the value of the failure of the
    request and with its transport.  With a status handler that does not
    throw the status is first set to that value and then overwritten by
    [BAD_DATA], which is the status the reader is torn down with. *)
Theorem selection_failure_overrides_request_failure
    (x : XhrSnapshot) (r : XhrStreamReader) (tr : Trace) (own : XhrId) :
  xhr_ r = Some own ->
  readyState x = ReadyState.COMPLETE ->
  ErrorCode.eqb (lastErrorCode x) ErrorCode.TIMEOUT
  || ErrorCode.eqb (lastErrorCode x) ErrorCode.ABORT
  || negb ((statusCode x =? HttpStatus.OK)%Z
           || (statusCode x =? HttpStatus.PARTIAL_CONTENT)%Z) = true ->
  parser_ r = None ->
  getParserByResponseHeader_ (contentTypeHeader x) (contentTransferEncoding x)
  = None ->
  let failed :=
    if ErrorCode.eqb (lastErrorCode x) ErrorCode.TIMEOUT then Status.TIMEOUT
    else if ErrorCode.eqb (lastErrorCode x) ErrorCode.ABORT
         then Status.CANCELLED
         else Status.XHR_ERROR in
  let out := readyStateChangeHandler_ own x (r, tr) in
  (getStatus (fst (snd out)) = Status.BAD_DATA \/
   getStatus (fst (snd out)) = Status.HANDLER_EXCEPTION \/
   (getStatus (fst (snd out)) = failed /\
    (exists ex, fst out = Throw ex) /\
    xhr_ (fst (snd out)) = Some own)) /\
  (quiet r ->
   fst out = Ok tt /\
   getStatus (fst (snd out)) = Status.BAD_DATA /\
   xhr_ (fst (snd out)) = None /\
   exists d, snd (snd out) = d ++ tr /\
             In (EvStatus failed Status.BAD_DATA) d /\ In (EvSelect None) d).
Proof.
  destruct r as [xh pa po st sh dh li].
  destruct x as [rs ec sc text ct te]. simpl.
  intros -> -> Hfail -> Hsel. unfold quiet. simpl.
  run_handler. rewrite Nat.eqb_refl, Hsel. simpl.
  destruct (ErrorCode.eqb ec ErrorCode.TIMEOUT);
    [|destruct (ErrorCode.eqb ec ErrorCode.ABORT);
      [|simpl in Hfail; rewrite Hfail]];
    simpl;
    destruct st; destruct sh as [h|]; simpl;
    split_calls;
    (split;
     [first [left; reflexivity
            | right; left; reflexivity
            | right; right;
              split; [reflexivity | split; [eexists |]; reflexivity]]
     | intros Hq]);
    try (rewrite Hq in *; discriminate);
    (split; [reflexivity | split; [reflexivity | split; [reflexivity |]]]);
    new_events; auto 10.
Qed.

(** ** C7: exceptions *)

Lemma text_not_empty (text : string) (n : nat) :
  n < String.length text -> JsString.falsy text = false.
Proof. destruct text; simpl; [lia | reflexivity]. Qed.

(** The [catch] block of [readyStateChangeHandler_] once its message is
    built: the status is [HANDLER_EXCEPTION] in any case; the reader is torn
    down if the block returns, and the block returns unless the status
    handler throws in it. *)
Lemma catch_block_effect (r : XhrStreamReader) (tr : Trace) :
  let out :=
    bind (updateStatus_ Status.HANDLER_EXCEPTION) (fun _ => clear_) (r, tr) in
  getStatus (fst (snd out)) = Status.HANDLER_EXCEPTION /\
  (fst out = Ok tt -> xhr_ (fst (snd out)) = None) /\
  (quiet r -> fst out = Ok tt).
Proof.
  destruct r as [xh pa po st sh dh li]. unfold quiet. simpl.
  unfold updateStatus_, clear_, bind, this, assign, emit, invoke, ret. simpl.
  destruct st; destruct sh as [h|]; destruct xh; simpl;
    split_calls; repeat split; auto; try discriminate;
    intros Hq; rewrite Hq in *; discriminate.
Qed.

(** C7: what the code does when the data handler throws.  In a ready-state
    change that classifies no failure of the request and hands new text to
    the parser, an exception thrown by the data handler is caught by the
    [try] around the parser.  When the thrown value converts to a string,
    the status becomes [BAD_DATA], or [HANDLER_EXCEPTION] only if the status
    handler throws as well; with a status handler that does not throw the
    reader is torn down with [BAD_DATA] and nothing leaves the ready-state
    handler.  When the conversion throws, the [catch] of the ready-state
    handler gets what it threw: if that converts to a string the status
    becomes [HANDLER_EXCEPTION], and with a status handler that does not
    throw the reader is torn down; if not, the exception leaves the
    ready-state handler, the status is what it was and the reader keeps its
    transport. *)
Theorem data_handler_exception_is_bad_data
    (x : XhrSnapshot) (r : XhrStreamReader) (tr : Trace) (own : XhrId)
    (kind : ParserKind) (st st' : PState) (msgs : list Msg)
    (handler : DataHandler) (thrown : Thrown) :
  xhr_ r = Some own ->
  parser_ r = Some (kind, st) ->
  dataHandler_ r = Some handler ->
  Status.failure (status_ r) = false ->
  ReadyState.ltb (readyState x) ReadyState.INTERACTIVE = false ->
  ReadyState.eqb (readyState x) ReadyState.COMPLETE
  && (ErrorCode.eqb (lastErrorCode x) ErrorCode.TIMEOUT
      || ErrorCode.eqb (lastErrorCode x) ErrorCode.ABORT
      || negb ((statusCode x =? HttpStatus.OK)%Z
               || (statusCode x =? HttpStatus.PARTIAL_CONTENT)%Z)) = false ->
  pos_ r < String.length (responseText x) ->
  parse kind st (JsString.substr (responseText x) (pos_ r))
  = (st', PMessages msgs) ->
  handler msgs
    (EvParse (pos_ r) (JsString.substr (responseText x) (pos_ r))
       (PMessages msgs) :: tr) = Throws thrown ->
  let out := readyStateChangeHandler_ own x (r, tr) in
  (concat thrown = None ->
   (getStatus (fst (snd out)) = Status.BAD_DATA \/
    getStatus (fst (snd out)) = Status.HANDLER_EXCEPTION) /\
   (quiet r ->
    fst out = Ok tt /\
    getStatus (fst (snd out)) = Status.BAD_DATA /\
    xhr_ (fst (snd out)) = None /\
    exists d, snd (snd out) = d ++ tr /\
              In (EvData msgs) d /\
              In (EvStatus (status_ r) Status.BAD_DATA) d)) /\
  (forall thrown',
     concat thrown = Some thrown' -> concat thrown' = None ->
     getStatus (fst (snd out)) = Status.HANDLER_EXCEPTION /\
     (quiet r -> fst out = Ok tt /\ xhr_ (fst (snd out)) = None)) /\
  (forall thrown' thrown'',
     concat thrown = Some thrown' -> concat thrown' = Some thrown'' ->
     fst out = Throw thrown'' /\
     getStatus (fst (snd out)) = status_ r /\
     xhr_ (fst (snd out)) = Some own /\
     snd (snd out) =
     [EvData msgs;
      EvParse (pos_ r) (JsString.substr (responseText x) (pos_ r))
        (PMessages msgs)] ++ tr).
Proof.
  destruct r as [xh pa po stat sh dh li].
  destruct x as [rs ec sc text ct te]. simpl.
  intros -> -> -> Hst Hrs Hclass Hpos Hparse Hthrow. unfold quiet. simpl.
  run_handler. rewrite Nat.eqb_refl. simpl.
  rewrite Hrs, (text_not_empty text po Hpos), andb_false_r. simpl.
  assert (Hltb : (po <? String.length text) = true)
    by (apply Nat.ltb_lt; exact Hpos).
  destruct (ReadyState.eqb rs ReadyState.COMPLETE); simpl in Hclass |- *;
    [apply orb_false_iff in Hclass; destruct Hclass as [Hclass Hneg];
     apply orb_false_iff in Hclass; destruct Hclass as [Hto Hab];
     rewrite Hto, Hab, Hneg; simpl|];
    destruct stat; try discriminate Hst; simpl;
    rewrite Hltb;
    unfold parseAndDeliver_, bind, this, assign, emit, invoke, ret, throw;
    simpl; rewrite Hparse; simpl; rewrite Hthrow; simpl;
    (split;
     [intros Hc; rewrite Hc
     | split;
       [intros thrown' Hc Hc'; rewrite Hc; simpl; rewrite Hc'
       | intros thrown' thrown'' Hc Hc'; rewrite Hc; simpl; rewrite Hc']]);
    simpl;
    destruct sh as [h|]; simpl;
    split_calls;
    first
      [ solve [repeat split; reflexivity]
      | solve [split;
               [reflexivity
               | intros Hq; try (rewrite Hq in *; discriminate);
                 split; reflexivity]]
      | solve [(split; [tauto | intros Hq]);
               try (rewrite Hq in *; discriminate);
               (split;
                [reflexivity
                | split; [reflexivity | split; [reflexivity |]]]);
               new_events; auto 10] ].
Qed.

(** * More of the reader

    ** Relations kept by whole methods

    As [Relations] above, with [updateStatus_] taken as one step: what the
    write and the call of the handler keep together. *)

Section Methods.

Variable R : World -> World -> Prop.
Hypothesis R_refl : forall w, R w w.
Hypothesis R_trans : forall w1 w2 w3, R w1 w2 -> R w2 w3 -> R w1 w3.
Hypothesis R_update : forall s w, R w (snd (updateStatus_ s w)).
Hypothesis R_clear : forall w, R w (snd (clear_ w)).
Hypothesis R_select : forall k r tr,
  parser_ r = None ->
  R (r, tr) (set_parser_ (option_map (fun k => (k, newParser k)) k) r,
             EvSelect k :: tr).
Hypothesis R_pos : forall n r tr,
  pos_ r <= n -> R (r, tr) (set_pos_ n r, tr).
Hypothesis R_parse : forall start newData w,
  R w (snd (parseAndDeliver_ start newData w)).

Lemma method_update (P : World -> Prop) (s : Status.t) :
  rel P R (updateStatus_ s).
Proof. intros w _. apply R_update. Qed.

Lemma method_clear (P : World -> Prop) : rel P R clear_.
Proof. intros w _. apply R_clear. Qed.

Lemma method_onReadyStateChanged_ (P : World -> Prop) (x : XhrSnapshot) :
  rel P R (onReadyStateChanged_ x).
Proof.
  unfold onReadyStateChanged_.
  apply (rel_this R). intros r0.
  destruct (xhr_ r0); [|apply (rel_throw R R_refl)].
  match goal with |- rel _ _ (if ?c then _ else _) => destruct c end;
    [apply (rel_ret R R_refl)|].
  cbv zeta. apply (rel_bind R R_trans).
  { repeat match goal with
           | |- rel _ _ (if ?c then _ else _) => destruct c
           end; try apply (rel_ret R R_refl); apply method_update. }
  intros _. apply (rel_bind R R_trans).
  { unfold selectParser_. apply (rel_weaken R) with (P' := anywhere); [|auto].
    apply (rel_this R). intros r1.
    destruct (parser_ r1) eqn:Ep; [apply (rel_ret R R_refl)|].
    intros [r tr] (_ & Hr). simpl in Hr. subst r1.
    rewrite bind_assign, bind_emit.
    set (selected := getParserByResponseHeader_ _ _).
    eapply R_trans; [apply (R_select selected r tr Ep)|].
    destruct selected.
    - apply R_refl.
    - apply R_update. }
  intros _. apply (rel_this R). intros r2.
  destruct (Status.gtb (status_ r2) Status.SUCCESS); [apply method_clear|].
  apply (rel_bind R R_trans).
  { destruct (pos_ r2 <? String.length (responseText x)) eqn:Epos;
      [|apply (rel_ret R R_refl)].
    apply Nat.ltb_lt in Epos.
    intros [r tr] (_ & Hr). simpl in Hr. subst r2.
    cbv zeta. rewrite bind_assign.
    eapply R_trans; [apply (R_pos (String.length (responseText x)) r tr); lia|].
    apply (rel_try R R_trans) with (P := anywhere); [| |exact I].
    - apply (rel_bind R R_trans); [|intros _; apply (rel_ret R R_refl)].
      intros w _. apply R_parse.
    - intros ex.
      apply (rel_bind R R_trans); [apply (rel_logMessage_ R R_refl)|].
      intros _. apply (rel_bind R R_trans); [apply method_update|].
      intros _. apply (rel_bind R R_trans); [apply method_clear|].
      intros _. apply (rel_ret R R_refl). }
  intros [|]; [apply (rel_ret R R_refl)|].
  destruct (ReadyState.eqb (readyState x) ReadyState.COMPLETE).
  - apply (rel_bind R R_trans); [|intros _; apply method_clear].
    destruct (String.length (responseText x) =? 0); apply method_update.
  - apply method_update.
Qed.

Lemma method_readyStateChangeHandler_ (target : XhrId) (x : XhrSnapshot)
    (w : World) :
  R w (snd (readyStateChangeHandler_ target x w)).
Proof.
  assert (H : rel anywhere R (readyStateChangeHandler_ target x));
    [|apply H; exact I].
  unfold readyStateChangeHandler_. apply (rel_try R R_trans).
  - apply (rel_this R). intros r.
    destruct (xhr_ r) as [own|]; [|apply (rel_ret R R_refl)].
    destruct (target =? own);
      [apply method_onReadyStateChanged_ | apply (rel_ret R R_refl)].
  - intros ex.
    apply (rel_bind R R_trans); [apply (rel_logMessage_ R R_refl)|].
    intros _. apply (rel_bind R R_trans); [apply method_update|].
    intros _. apply method_clear.
Qed.

End Methods.

(** *** [kept] *)

Lemma kept_refl (w : World) : kept w w.
Proof.
  constructor; auto. exists []. repeat split; auto.
  intros y [[]|[]].
Qed.

Lemma kept_trans (w1 w2 w3 : World) : kept w1 w2 -> kept w2 w3 -> kept w1 w3.
Proof.
  intros [Hs1 Hd1 Hx1 (d1 & E1 & Hn1 & He1 & Ht1)]
         [Hs2 Hd2 Hx2 (d2 & E2 & Hn2 & He2 & Ht2)].
  constructor.
  - congruence.
  - congruence.
  - destruct Hx2 as [Hx2|Hx2]; [rewrite Hx2; exact Hx1 | right; exact Hx2].
  - exists (d2 ++ d1). split; [rewrite E2, E1; apply app_assoc|].
    rewrite !existsb_app, Hn1, Hn2, He1, He2.
    split; [reflexivity | split; [reflexivity|]].
    intros y Hy.
    assert (Hin : (In (EvAbort y) d2 \/ In (EvDispose y) d2) \/
                  (In (EvAbort y) d1 \/ In (EvDispose y) d1)).
    { destruct Hy as [Hy|Hy]; apply in_app_or in Hy; tauto. }
    destruct Hin as [Hin|Hin]; [|apply Ht1, Hin].
    specialize (Ht2 y Hin).
    destruct Hx1 as [Hx1|Hx1]; congruence.
Qed.

Ltac kept_events :=
  eexists; split;
  [repeat apply cons_app_intro; exact (eq_refl : _ = [] ++ _) |];
  split; [reflexivity | split; [reflexivity |]];
  let y := fresh "y" in let Hy := fresh "Hy" in
  intros y Hy; simpl in Hy;
  repeat match goal with
         | H : _ \/ _ |- _ => destruct H
         | H : False |- _ => destruct H
         end;
  congruence.

Lemma kept_update (s : Status.t) (w : World) :
  kept w (snd (updateStatus_ s w)).
Proof.
  destruct w as [r tr].
  unfold updateStatus_, bind, this, assign, emit, invoke, ret. simpl.
  destruct (Status.eqb (status_ r) s); simpl; [apply kept_refl|].
  destruct (statusHandler_ r) as [h|] eqn:Eh; simpl;
    constructor; simpl; auto; kept_events.
Qed.

Lemma kept_clear (w : World) : kept w (snd (clear_ w)).
Proof.
  destruct w as [r tr].
  unfold clear_, bind, this, assign, emit, ret. simpl.
  destruct (xhr_ r) as [xhr|] eqn:Ex; simpl.
  - constructor; simpl; auto. kept_events.
  - constructor; simpl; auto. exists []. repeat split; auto.
    intros y [[]|[]].
Qed.

Lemma kept_parse (start : nat) (newData : string) (w : World) :
  kept w (snd (parseAndDeliver_ start newData w)).
Proof.
  destruct w as [r tr]. unfold parseAndDeliver_, bind, this, throw. simpl.
  destruct (parser_ r) as [[kind ps]|] eqn:Ep; simpl; [|apply kept_refl].
  destruct (parse kind ps newData) as [ps' res].
  unfold bind, assign, emit, invoke, ret, throw. simpl.
  destruct res as [|msgs|]; simpl;
    [|destruct (dataHandler_ r) as [h|] eqn:Eh; simpl|];
    constructor; simpl; auto; kept_events.
Qed.

Lemma kept_handler (target : XhrId) (x : XhrSnapshot) (w : World) :
  kept w (snd (readyStateChangeHandler_ target x w)).
Proof.
  apply (method_readyStateChangeHandler_ kept kept_refl kept_trans).
  - apply kept_update.
  - apply kept_clear.
  - intros k r tr _. constructor; simpl; auto. kept_events.
  - intros n r tr _. constructor; simpl; auto. exists []. repeat split; auto.
    intros y [[]|[]].
  - apply kept_parse.
Qed.

Lemma kept_onReadyStateChanged_ (x : XhrSnapshot) (w : World) :
  kept w (snd (onReadyStateChanged_ x w)).
Proof.
  apply (method_onReadyStateChanged_ kept kept_refl kept_trans)
    with (P := anywhere); try exact I.
  - apply kept_update.
  - apply kept_clear.
  - intros k r tr _. constructor; simpl; auto. kept_events.
  - intros n r tr _. constructor; simpl; auto. exists []. repeat split; auto.
    intros y [[]|[]].
  - apply kept_parse.
Qed.

(** ** Teardown and the status *)

Lemma updateStatus_xhr (v : option XhrId) (s : Status.t) :
  triple (fun w => xhr_ (fst w) = v)
         (updateStatus_ s)
         (fun _ w => xhr_ (fst w) = v /\ status_ (fst w) = s).
Proof.
  intros [r tr] H. simpl in H.
  pose proof (updateStatus_fields s r tr) as Hf. cbv zeta in Hf.
  destruct Hf as (Hs & Hx & _). split; [congruence | exact Hs].
Qed.

Lemma clear_done :
  triple (fun w => (2 <= Status.code (status_ (fst w)))%Z)
         clear_
         (fun res w => res = Ok tt /\ Done w).
Proof.
  intros [r tr] H. simpl in H.
  unfold clear_, bind, this, assign, emit, ret, Done. simpl.
  destruct (xhr_ r) as [xhr|] eqn:Ex; simpl; auto.
Qed.

Lemma parseAndDeliver_held (own : XhrId) (start : nat) (newData : string) :
  triple (Held own) (parseAndDeliver_ start newData) (fun _ w => Held own w).
Proof.
  intros [r tr] H. unfold Held in *. simpl in H.
  unfold parseAndDeliver_, bind, this, throw. simpl.
  destruct (parser_ r) as [[kind ps]|]; simpl; [|exact H].
  destruct (parse kind ps newData) as [ps' res].
  unfold bind, assign, emit, invoke, ret, throw. simpl.
  destruct res as [|msgs|]; simpl; try exact H.
  destruct (dataHandler_ r); simpl; exact H.
Qed.

Lemma selectParser_held (own : XhrId) (x : XhrSnapshot) :
  triple (Held own) (selectParser_ x) (fun _ w => Held own w).
Proof.
  intros [r tr] H. unfold Held in *. simpl in H.
  unfold selectParser_. rewrite bind_this.
  destruct (parser_ r); [exact H|].
  cbv zeta. rewrite bind_assign, bind_emit.
  destruct (getParserByResponseHeader_ _ _); [exact H|].
  apply (updateStatus_xhr (Some own) Status.BAD_DATA). exact H.
Qed.

(** The block that decodes the new text, lines 200-217. *)
Lemma decode_held (own : XhrId) (x : XhrSnapshot) (r2 : XhrStreamReader) :
  triple
    (fun w => Held own w /\ fst w = r2)
    (if pos_ r2 <? String.length (responseText x) then
       let newData := JsString.substr (responseText x) (pos_ r2) in
       bind (assign (set_pos_ (String.length (responseText x))))
            (fun _ =>
               try_catch
                 (bind (parseAndDeliver_ (pos_ r2) newData)
                       (fun _ => ret false))
                 (fun ex =>
                    bind (logMessage_ ex)
                         (fun _ =>
                            bind (updateStatus_ Status.BAD_DATA)
                                 (fun _ => bind clear_ (fun _ => ret true)))))
     else ret false)
    (fun res w => match res with
                  | Ok false => Held own w
                  | Ok true => Done w
                  | Throw _ => Held own w
                  end).
Proof.
  destruct (pos_ r2 <? String.length (responseText x)).
  2: { apply triple_ret. intros w (H & _). exact H. }
  cbv zeta.
  eapply triple_bind with
    (Q1 := fun (res : Result unit) w => res = Ok tt /\ Held own w).
  - intros [r tr] (H & _). split; [reflexivity | exact H].
  - intros [].
    eapply triple_try with
      (Q1 := fun res w => match res with
                          | Ok b => b = false /\ Held own w
                          | Throw _ => Held own w
                          end).
    + eapply triple_bind with (Q1 := fun (_ : Result unit) w => Held own w).
      * eapply triple_weaken; [apply (parseAndDeliver_held own) | | ].
        -- intros w (_ & H). exact H.
        -- intros res w H. exact H.
      * intros []. apply triple_ret. intros w H. auto.
      * intros ex w H. exact H.
    + intros b w (Hb & H). subst b. exact H.
    + intros ex.
      eapply triple_bind with (Q1 := fun (_ : Result unit) w => Held own w).
      * apply (triple_logMessage_ (Held own)).
      * intros [].
        eapply triple_bind with
          (Q1 := fun (_ : Result unit) w =>
                   Held own w /\ status_ (fst w) = Status.BAD_DATA).
        -- apply (updateStatus_xhr (Some own) Status.BAD_DATA).
        -- intros []. eapply triple_bind with
             (Q1 := fun (res : Result unit) w => res = Ok tt /\ Done w).
           ++ eapply triple_weaken;
                [apply clear_done | | intros res w H; exact H].
              intros w (_ & Hs). rewrite Hs. simpl. lia.
           ++ intros []. apply triple_ret. intros w (_ & H). exact H.
           ++ intros ex' w (H & _). discriminate H.
        -- intros ex' w (H & _). exact H.
      * intros ex' w H. exact H.
  - intros ex w (H & _). discriminate H.
Qed.

(** A reader that holds its transport when the method starts holds it when
    the method returns, or has been torn down with a final status; it holds
    it whenever the method throws. *)
Lemma onReadyStateChanged_held (own : XhrId) (x : XhrSnapshot) :
  triple (Held own) (onReadyStateChanged_ x)
         (fun res w =>
            match res with
            | Ok _ =>
                (Held own w /\
                 ReadyState.eqb (readyState x) ReadyState.COMPLETE = false) \/
                Done w
            | Throw _ => Held own w
            end).
Proof.
  unfold onReadyStateChanged_.
  apply triple_this. intros r0.
  destruct (xhr_ r0).
  2: { intros w (H & _). exact H. }
  match goal with
  | |- triple _ (if ?c then _ else _) _ => destruct c eqn:Early
  end.
  { apply triple_ret. intros w (H & _). left. split; [exact H|].
    destruct (readyState x); simpl in Early; try discriminate Early;
      reflexivity. }
  cbv zeta.
  eapply triple_bind with (Q1 := fun (_ : Result unit) w => Held own w).
  - eapply triple_weaken with
      (P' := Held own) (Q' := fun (_ : Result unit) w => Held own w);
      [|intros w (H & _); exact H | intros res w H; exact H].
    repeat match goal with
           | |- triple _ (if ?c then _ else _) _ => destruct c
           end;
      try (apply triple_ret; intros w H; exact H);
      (eapply triple_weaken;
       [apply (updateStatus_xhr (Some own)) | intros w H; exact H
        | intros res w (H & _); exact H]).
  - intros [].
    eapply triple_bind with (Q1 := fun (_ : Result unit) w => Held own w).
    + apply selectParser_held.
    + intros []. apply triple_this. intros r2.
      destruct (Status.gtb (status_ r2) Status.SUCCESS) eqn:Eg.
      * eapply triple_weaken; [apply clear_done | | ].
        -- intros w (_ & Hr). rewrite Hr.
           apply (failure_code (status_ r2)) in Eg. lia.
        -- intros res w (Hres & HD). subst res. right. exact HD.
      * eapply triple_bind.
        -- apply (decode_held own x r2).
        -- intros [|].
           ++ apply triple_ret. intros w H. right. exact H.
           ++ destruct (ReadyState.eqb (readyState x) ReadyState.COMPLETE).
              ** eapply triple_bind with
                   (Q1 := fun (_ : Result unit) w =>
                            Held own w /\
                            (2 <= Status.code (status_ (fst w)))%Z).
                 --- destruct (String.length (responseText x) =? 0);
                       (eapply triple_weaken;
                        [apply (updateStatus_xhr (Some own))
                        | intros w H; exact H
                        | intros res w (H & Hs);
                          split; [exact H | rewrite Hs; simpl; lia]]).
                 --- intros []. eapply triple_weaken; [apply clear_done | | ].
                     +++ intros w (_ & H). exact H.
                     +++ intros res w (Hres & HD). subst res. right. exact HD.
                 --- intros ex w (H & _). exact H.
              ** eapply triple_weaken;
                   [apply (updateStatus_xhr (Some own)) | intros w H; exact H|].
                 intros res w (H & _).
                 destruct res; [left; split; [exact H | reflexivity] | exact H].
        -- intros ex w H. exact H.
    + intros ex w H. exact H.
  - intros ex w H. exact H.
Qed.

(** The [catch] block of the ready-state handler. *)
Lemma catch_block_held (own : XhrId) (ex : Thrown) :
  triple (Held own)
         (bind (logMessage_ ex)
               (fun _ =>
                  bind (updateStatus_ Status.HANDLER_EXCEPTION)
                       (fun _ => clear_)))
         (fun res w => match res with
                       | Ok _ => Done w
                       | Throw _ => Held own w
                       end).
Proof.
  eapply triple_bind with (Q1 := fun (_ : Result unit) w => Held own w).
  - apply (triple_logMessage_ (Held own)).
  - intros [].
    eapply triple_bind with
      (Q1 := fun (_ : Result unit) w =>
               Held own w /\ status_ (fst w) = Status.HANDLER_EXCEPTION).
    + apply (updateStatus_xhr (Some own) Status.HANDLER_EXCEPTION).
    + intros []. eapply triple_weaken; [apply clear_done | | ].
      * intros w (_ & Hs). rewrite Hs. simpl. lia.
      * intros res w (Hres & HD). subst res. exact HD.
    + intros ex' w (H & _). exact H.
  - intros ex' w H. exact H.
Qed.

(** The same for the ready-state handler: a reader that still holds its
    transport when the handler returns was not at completion; when an
    exception leaves the handler, the transport is still held. *)
Lemma readyStateChangeHandler_held (own target : XhrId) (x : XhrSnapshot) :
  triple (Held own) (readyStateChangeHandler_ target x)
         (fun res w =>
            match res with
            | Ok _ =>
                (Held own w /\
                 (target =? own)
                 && ReadyState.eqb (readyState x) ReadyState.COMPLETE
                 = false) \/
                Done w
            | Throw _ => Held own w
            end).
Proof.
  intros [r tr] H. pose proof H as Hx. unfold Held in Hx. simpl in Hx.
  unfold readyStateChangeHandler_, try_catch. rewrite bind_this, Hx.
  destruct (target =? own).
  - pose proof (onReadyStateChanged_held own x (r, tr) H) as HH.
    destruct (onReadyStateChanged_ x (r, tr)) as [[[]|ex] w'];
      simpl in HH |- *.
    + exact HH.
    + pose proof (catch_block_held own ex w' HH) as Hcatch.
      destruct (bind (logMessage_ ex) _ w') as [[[]|ex'] w''];
        simpl in Hcatch |- *; [right; exact Hcatch | exact Hcatch].
  - left. split; [exact H | reflexivity].
Qed.

Lemma fire_settled (xhr target : XhrId) (x : XhrSnapshot) (w : World) :
  Settled xhr w -> Settled xhr (fire target x w).
Proof.
  destruct w as [r tr]. intros HS. unfold fire. simpl.
  destruct (listening_ r); [|exact HS].
  destruct HS as [HH|[Hx Hs]].
  - pose proof (readyStateChangeHandler_held xhr target x
                  (r, EvNotify target x :: tr) HH) as H.
    destruct (readyStateChangeHandler_ target x _) as [[[]|ex] [r' tr']];
      simpl in H |- *.
    + destruct H as [[H _]|H]; [left | right]; exact H.
    + left. exact H.
  - simpl in Hx, Hs. rewrite handler_detached by exact Hx.
    right. split; assumption.
Qed.

Lemma step_settled (xhr : XhrId) (op : Op) (w : World) :
  Settled xhr w -> Settled xhr (step w op).
Proof.
  destruct op as [target x|h|h]; simpl.
  - apply fire_settled.
  - destruct w as [r tr]. intros H. exact H.
  - destruct w as [r tr]. intros H. exact H.
Qed.

Lemma run_settled (xhr : XhrId) (ops : list Op) (w : World) :
  Settled xhr w -> Settled xhr (run ops w).
Proof.
  revert w. induction ops as [|op ops IH]; intros w H; simpl.
  - exact H.
  - apply IH, step_settled, H.
Qed.

Lemma lifetime_settled (xhr : XhrId) (ops : list Op) :
  Settled xhr (lifetime xhr ops).
Proof. apply run_settled. left. reflexivity. Qed.


(** ** What the handlers throw *)

Lemma quiet_throws_only (r : XhrStreamReader) :
  quiet r <-> throws_only nothing r.
Proof.
  unfold quiet, throws_only, nothing.
  destruct (statusHandler_ r) as [h|]; [|tauto].
  split.
  - intros H tr thrown E. rewrite H in E. discriminate E.
  - intros H tr. destruct (h tr) eqn:E; [reflexivity|].
    exfalso. apply (H tr thrown E).
Qed.

Lemma raises_weaken {A} (P Q : Thrown -> Prop) (res : Result A) :
  (forall thrown, P thrown -> Q thrown) -> raises P res -> raises Q res.
Proof. intros H. destruct res; simpl; auto. Qed.

Lemma calm_same (P : Thrown -> Prop) (c : Prop) (w w' : World) :
  statusHandler_ (fst w') = statusHandler_ (fst w) ->
  dataHandler_ (fst w') = dataHandler_ (fst w) ->
  status_ (fst w') = status_ (fst w) ->
  Calm P c w -> Calm P c w'.
Proof.
  unfold Calm, throws_only, tame_data. intros -> -> ->. auto.
Qed.

Section Throwing.

Variable P : Thrown -> Prop.
Hypothesis parsers : plain_parser.
Variable c : Prop.

Lemma calm_bind {A B} (Q : Thrown -> Prop) (m : M A) (f : A -> M B) :
  triple (Calm P c) m (fun res w => Calm P c w /\ raises Q res) ->
  (forall a, triple (Calm P c) (f a)
               (fun res w => Calm P c w /\ raises Q res)) ->
  triple (Calm P c) (bind m f) (fun res w => Calm P c w /\ raises Q res).
Proof.
  intros Hm Hf.
  eapply triple_bind with
    (Q1 := fun res w => Calm P c w /\ raises Q res).
  - exact Hm.
  - intros a. eapply triple_weaken;
      [apply Hf | intros w (H & _); exact H | intros res w H; exact H].
  - intros ex w H. exact H.
Qed.

Lemma calm_ret {A} (Q : Thrown -> Prop) (a : A) :
  triple (Calm P c) (ret a) (fun res w => Calm P c w /\ raises Q res).
Proof. apply triple_ret. intros w H. split; [exact H | exact I]. Qed.

Lemma updateStatus_calm (s : Status.t) :
  s <> Status.HANDLER_EXCEPTION ->
  triple (Calm P c) (updateStatus_ s)
         (fun res w => Calm P c w /\ raises P res).
Proof.
  intros Hs [r tr] (Ht & Hd & Hc).
  unfold Calm, throws_only, tame_data in *. simpl in *.
  unfold updateStatus_, bind, this, assign, emit, invoke, ret. simpl.
  destruct (Status.eqb (status_ r) s) eqn:E; simpl.
  - repeat split; auto.
  - revert Ht. destruct (statusHandler_ r) as [h|] eqn:Eh; intros Ht; simpl.
    + rewrite Eh.
      destruct (h (EvStatus (status_ r) s :: tr)) eqn:Eo; simpl;
        repeat split; auto.
      apply (Ht _ _ Eo).
    + rewrite Eh. repeat split; auto.
Qed.

Lemma clear_calm (Q : Thrown -> Prop) :
  triple (Calm P c) clear_ (fun res w => Calm P c w /\ raises Q res).
Proof.
  intros [r tr] H. unfold Calm, throws_only, tame_data in *. simpl in *.
  unfold clear_, bind, this, assign, emit, ret. simpl.
  destruct (xhr_ r); simpl; auto.
Qed.

Lemma logMessage_calm (Q : Thrown -> Prop) (ex : Thrown) :
  printable ex = true ->
  triple (Calm P c) (logMessage_ ex)
         (fun res w => Calm P c w /\ raises Q res).
Proof.
  intros Hp w H. unfold logMessage_. unfold printable in Hp.
  destruct (concat ex); [discriminate Hp|]. split; [exact H | exact I].
Qed.

Lemma parseAndDeliver_calm (start : nat) (newData : string) :
  triple (Calm P c) (parseAndDeliver_ start newData)
         (fun res w =>
            Calm P c w /\ raises (fun thrown => printable thrown = true) res).
Proof.
  intros [r tr] H.
  assert (Hsame : forall r' tr',
             statusHandler_ r' = statusHandler_ r ->
             dataHandler_ r' = dataHandler_ r ->
             status_ r' = status_ r -> Calm P c (r', tr')).
  { intros r' tr' H1 H2 H3. apply (calm_same P c (r, tr)); assumption. }
  destruct H as (_ & Hd & _). unfold tame_data in Hd. simpl in Hd.
  unfold parseAndDeliver_, bind, this, throw. simpl.
  destruct (parser_ r) as [[kind ps]|]; simpl;
    [|split; [apply Hsame; reflexivity | reflexivity]].
  destruct (parse kind ps newData) as [ps' res] eqn:Eparse.
  unfold bind, assign, emit, invoke, ret, throw. simpl.
  destruct res as [|msgs|thrown]; simpl.
  - split; [apply Hsame; reflexivity | exact I].
  - destruct (dataHandler_ r) as [h|] eqn:Eh; simpl.
    + destruct (h msgs _) eqn:Eo; simpl;
        (split; [apply Hsame; first [reflexivity | exact Eh]|]);
        [exact I | apply (Hd _ _ _ Eo)].
    + split; [apply Hsame; first [reflexivity | exact Eh] | exact I].
  - split; [apply Hsame; reflexivity | apply (parsers _ _ _ _ _ Eparse)].
Qed.

Lemma selectParser_calm (x : XhrSnapshot) :
  triple (Calm P c) (selectParser_ x)
         (fun res w => Calm P c w /\ raises P res).
Proof.
  intros [r tr] H. unfold selectParser_. rewrite bind_this.
  destruct (parser_ r); [split; [exact H | exact I]|].
  cbv zeta. rewrite bind_assign, bind_emit.
  destruct (getParserByResponseHeader_ _ _);
    [split; [exact H | exact I]|].
  apply (updateStatus_calm Status.BAD_DATA); [discriminate|]. apply H.
Qed.

(** The block that decodes the new text, lines 200-217. *)
Lemma decode_calm (x : XhrSnapshot) (r2 : XhrStreamReader) :
  triple
    (Calm P c)
    (if pos_ r2 <? String.length (responseText x) then
       let newData := JsString.substr (responseText x) (pos_ r2) in
       bind (assign (set_pos_ (String.length (responseText x))))
            (fun _ =>
               try_catch
                 (bind (parseAndDeliver_ (pos_ r2) newData)
                       (fun _ => ret false))
                 (fun ex =>
                    bind (logMessage_ ex)
                         (fun _ =>
                            bind (updateStatus_ Status.BAD_DATA)
                                 (fun _ => bind clear_ (fun _ => ret true)))))
     else ret false)
    (fun res w => Calm P c w /\ raises P res).
Proof.
  destruct (pos_ r2 <? String.length (responseText x)); [|apply calm_ret].
  cbv zeta. apply calm_bind.
  { intros [r tr] H. split; [exact H | exact I]. }
  intros [].
  eapply triple_try with
    (Q1 := fun (res : Result bool) w =>
             Calm P c w /\ raises (fun thrown => printable thrown = true) res).
  - apply calm_bind; [apply parseAndDeliver_calm|].
    intros []. apply calm_ret.
  - intros b w (H & _). split; [exact H | exact I].
  - intros ex. simpl.
    apply (triple_assume (printable ex = true)).
    { intros w (_ & H). exact H. }
    intros Hp.
    eapply triple_weaken with (P' := Calm P c);
      [|intros w (H & _); exact H | intros res w H; exact H].
    apply calm_bind; [apply logMessage_calm; exact Hp|].
    intros []. apply calm_bind; [apply updateStatus_calm; discriminate|].
    intros []. apply calm_bind; [apply clear_calm|].
    intros []. apply calm_ret.
Qed.

(** When what the parsers and the data handler throw converts to a string,
    [onReadyStateChanged_] throws only what the status handler throws, and
    it does not set [HANDLER_EXCEPTION]. *)
Lemma onReadyStateChanged_calm (x : XhrSnapshot) :
  triple (fun w => Calm P c w /\ xhr_ (fst w) <> None)
         (onReadyStateChanged_ x)
         (fun res w => Calm P c w /\ raises P res).
Proof.
  unfold onReadyStateChanged_.
  apply triple_this. intros r0.
  destruct (xhr_ r0) eqn:Ex.
  2: { intros w ((_ & Hx) & Hr). exfalso. apply Hx. rewrite Hr. exact Ex. }
  eapply triple_weaken with (P' := Calm P c);
    [|intros w ((H & _) & _); exact H | intros res w H; exact H].
  match goal with |- triple _ (if ?c then _ else _) _ => destruct c end;
    [apply calm_ret|].
  cbv zeta. apply calm_bind.
  { repeat match goal with
           | |- triple _ (if ?c then _ else _) _ => destruct c
           end;
      try apply calm_ret; apply updateStatus_calm; discriminate. }
  intros []. apply calm_bind; [apply selectParser_calm|].
  intros []. apply triple_this. intros r2.
  eapply triple_weaken with (P' := Calm P c);
    [|intros w (H & _); exact H | intros res w H; exact H].
  destruct (Status.gtb (status_ r2) Status.SUCCESS); [apply clear_calm|].
  apply calm_bind; [apply decode_calm|].
  intros [|]; [apply calm_ret|].
  destruct (ReadyState.eqb (readyState x) ReadyState.COMPLETE).
  - apply calm_bind; [|intros []; apply clear_calm].
    destruct (String.length (responseText x) =? 0);
      apply updateStatus_calm; discriminate.
  - apply updateStatus_calm; discriminate.
Qed.

End Throwing.

(** What the [catch] block of the ready-state handler throws, once its
    message is built, it has from the status handler, called for
    [HANDLER_EXCEPTION]. *)
Lemma catch_block_throws (r : XhrStreamReader) (tr : Trace) :
  let out :=
    bind (updateStatus_ Status.HANDLER_EXCEPTION) (fun _ => clear_) (r, tr) in
  forall thrown,
    fst out = Throw thrown ->
    (exists handler tr',
       statusHandler_ r = Some handler /\ handler tr' = Throws thrown) /\
    exists older, snd (snd out) = EvStatusHandler :: older.
Proof.
  destruct r as [xh pa po st sh dh li].
  unfold updateStatus_, clear_, bind, this, assign, emit, invoke, ret. simpl.
  destruct st; destruct sh as [h|]; destruct xh; simpl;
    split_calls; intros v E; try discriminate E;
    injection E as <-;
    (split; [eexists _, _; split; [reflexivity | eassumption]
            | eexists; reflexivity]).
Qed.

(** The ready-state handler with a status handler that throws only values
    satisfying [P], all of which convert to a string, and with a data
    handler and parsers that throw only values that convert to a string:
    what leaves it was thrown by the status handler, called for
    [HANDLER_EXCEPTION]. *)
Lemma readyStateChangeHandler_throws (P : Thrown -> Prop) (c : Prop)
    (target : XhrId) (x : XhrSnapshot) (w : World) :
  (forall thrown, P thrown -> printable thrown = true) ->
  plain_parser ->
  Calm P c w ->
  let out := readyStateChangeHandler_ target x w in
  (fst out = Ok tt \/
   exists thrown,
     fst out = Throw thrown /\ P thrown /\
     status_ (fst (snd out)) = Status.HANDLER_EXCEPTION /\
     statusHandler_ (fst w) <> None /\
     exists older, snd (snd out) = EvStatusHandler :: older) /\
  ((forall thrown, ~ P thrown) -> Calm P c (snd out)).
Proof.
  intros HP Hpar HC. destruct w as [r tr].
  unfold readyStateChangeHandler_, try_catch. rewrite bind_this.
  destruct (xhr_ r) as [own|] eqn:Ex; [|split; [left; reflexivity | auto]].
  destruct (target =? own); [|split; [left; reflexivity | auto]].
  assert (Hpre : Calm P c (r, tr) /\ xhr_ (fst (r, tr)) <> None).
  { split; [exact HC|]. simpl. rewrite Ex. discriminate. }
  pose proof (onReadyStateChanged_calm P Hpar c x (r, tr) Hpre)
    as [HC' Hres].
  pose proof (kept_onReadyStateChanged_ x (r, tr)) as HK.
  destruct (onReadyStateChanged_ x (r, tr)) as [[[]|ex] [r' tr']];
    simpl in Hres, HC', HK |- *; [split; [left; reflexivity | auto]|].
  split; [|intros Hno; exfalso; apply (Hno ex Hres)].
  rewrite bind_ret_log by (apply HP, Hres).
  pose proof (catch_block_throws r' tr') as Hthrow.
  pose proof (catch_block_effect r' tr') as (Hst & _).
  unfold getStatus in Hst.
  destruct (bind (updateStatus_ Status.HANDLER_EXCEPTION)
              (fun _ => clear_) (r', tr')) as [[[]|ex'] w''];
    simpl in Hthrow, Hst |- *; [left; reflexivity | right].
  destruct (Hthrow ex' eq_refl) as ((h & t & Eh & Et) & Hnew).
  exists ex'. split; [reflexivity|].
  destruct HC' as (Ht & _). unfold throws_only in Ht. simpl in Ht.
  rewrite Eh in Ht.
  split; [apply (Ht _ _ Et)|]. split; [exact Hst|].
  pose proof (kept_status_handler HK) as Hs. simpl in Hs.
  split; [rewrite <- Hs, Eh; discriminate | exact Hnew].
Qed.

(** ** Exceptions *)

(** X2.  An exception that leaves the ready-state handler skips the
    teardown: the reader still holds the transport whose change it was
    handling.  When the parsers and the data handler throw only values that
    convert to a string, then with a status handler that does not throw the
    ready-state handler always returns, and with a status handler that
    throws only values that convert to a string an exception leaves the
    ready-state handler only from its [catch] block: the status is
    [HANDLER_EXCEPTION] and the newest call is one of the status handler. *)
Theorem exceptions_are_confined (target : XhrId) (x : XhrSnapshot)
    (r : XhrStreamReader) (tr : Trace) :
  let out := readyStateChangeHandler_ target x (r, tr) in
  (fst out <> Ok tt ->
   getXhr r = Some target /\ getXhr (fst (snd out)) = getXhr r) /\
  (plain_parser -> tame_data r ->
   (quiet r -> fst out = Ok tt) /\
   (throws_only (fun thrown => printable thrown = true) r ->
    fst out <> Ok tt ->
    getStatus (fst (snd out)) = Status.HANDLER_EXCEPTION /\
    statusHandler_ r <> None /\
    exists older, snd (snd out) = EvStatusHandler :: older)).
Proof.
  cbv zeta. unfold getStatus, getXhr. split.
  - intros Hne. destruct (xhr_ r) as [own|] eqn:Ex.
    2: { exfalso. apply Hne. rewrite handler_detached by exact Ex.
         reflexivity. }
    destruct (target =? own) eqn:Et.
    2: { exfalso. apply Hne.
         unfold readyStateChangeHandler_, try_catch.
         rewrite bind_this, Ex, Et. reflexivity. }
    apply Nat.eqb_eq in Et. subst own.
    pose proof (readyStateChangeHandler_held target target x (r, tr) Ex) as H.
    destruct (readyStateChangeHandler_ target x (r, tr)) as [[[]|ex] w'];
      simpl in H |- *; [exfalso; apply Hne; reflexivity|].
    split; [reflexivity | exact H].
  - intros Hpar Htame. split.
    + intros Hq. apply quiet_throws_only in Hq.
      assert (HC : Calm nothing False (r, tr)).
      { split; [exact Hq | split; [exact Htame | intros []]]. }
      destruct (readyStateChangeHandler_throws nothing False target x (r, tr))
        as [[Hok|(v & _ & Hv & _)] _];
        [intros v [] | exact Hpar | exact HC | exact Hok | destruct Hv].
    + intros Hciv Hne.
      assert (HC : Calm (fun thrown => printable thrown = true) False (r, tr)).
      { split; [exact Hciv | split; [exact Htame | intros []]]. }
      destruct (readyStateChangeHandler_throws _ False target x (r, tr)
                  (fun v H => H) Hpar HC)
        as [[Hok|(v & _ & _ & Hst & Hh & Hnew)] _]; [contradiction|].
      auto.
Qed.

(** ** The transport of a reader *)

Lemma kept_fire (target : XhrId) (x : XhrSnapshot) (w : World) :
  statusHandler_ (fst (fire target x w)) = statusHandler_ (fst w) /\
  dataHandler_ (fst (fire target x w)) = dataHandler_ (fst w) /\
  exists tail d,
    snd (fire target x w) = tail ++ d ++ EvNotify target x :: snd w /\
    existsb is_notify d = false /\ existsb is_escaped d = false /\
    (tail = [] \/ exists ex, tail = [EvEscaped ex]) /\
    forall y, In (EvAbort y) d \/ In (EvDispose y) d -> xhr_ (fst w) = Some y.
Proof.
  destruct w as [r tr]. unfold fire. simpl.
  destruct (listening_ r).
  - pose proof (kept_handler target x (r, EvNotify target x :: tr)) as HK.
    destruct (readyStateChangeHandler_ target x _) as [[[]|ex] [r' tr']];
      simpl in HK |- *;
      destruct HK as [Hs Hd _ (d & E & Hn & He & Ht)]; simpl in *;
      (split; [exact Hs | split; [exact Hd |]]).
    + exists [], d. auto 10.
    + exists [EvEscaped ex], d. rewrite E.
      split; [reflexivity|]. split; [exact Hn|]. split; [exact He|].
      split; [right; eauto | exact Ht].
  - split; [reflexivity | split; [reflexivity|]].
    exists [], []. simpl. repeat split; auto.
    intros y [[]|[]].
Qed.

Lemma in_released (e : Event) (tail d : Trace) (target : XhrId)
    (x : XhrSnapshot) (tr : Trace) :
  is_abort e || is_dispose e = true ->
  (tail = [] \/ exists ex, tail = [EvEscaped ex]) ->
  In e (tail ++ d ++ EvNotify target x :: tr) -> In e d \/ In e tr.
Proof.
  intros He Htail Hin.
  apply in_app_or in Hin. destruct Hin as [Hin|Hin].
  - destruct Htail as [->|[ex ->]]; [destruct Hin|].
    destruct Hin as [<-|[]]. discriminate He.
  - apply in_app_or in Hin. destruct Hin as [Hin|[<-|Hin]]; auto.
    discriminate He.
Qed.

Lemma released_run (xhr : XhrId) (ops : list Op) (w : World) :
  Settled xhr w ->
  (forall y, In (EvAbort y) (snd w) \/ In (EvDispose y) (snd w) -> y = xhr) ->
  forall y, In (EvAbort y) (snd (run ops w)) \/
            In (EvDispose y) (snd (run ops w)) -> y = xhr.
Proof.
  revert w. induction ops as [|op ops IH]; intros w HS Hw; simpl; [exact Hw|].
  apply IH; [apply step_settled, HS|].
  destruct op as [target x|h|h]; simpl;
    [|destruct w; exact Hw | destruct w; exact Hw].
  destruct (kept_fire target x w)
    as (_ & _ & tail & d & E & _ & _ & Htail & Ht).
  rewrite E. intros y Hy.
  assert (Hin : (In (EvAbort y) d \/ In (EvDispose y) d) \/
                (In (EvAbort y) (snd w) \/ In (EvDispose y) (snd w))).
  { destruct Hy as [Hy|Hy].
    - apply (in_released (EvAbort y) tail d target x (snd w) eq_refl Htail)
        in Hy.
      tauto.
    - apply (in_released (EvDispose y) tail d target x (snd w) eq_refl Htail)
        in Hy.
      tauto. }
  destruct Hin as [Hin|Hin]; [|apply Hw, Hin].
  specialize (Ht y Hin).
  destruct HS as [HH|[Hx _]]; unfold Held in *; congruence.
Qed.

(** X3.  [getXhr()] returns the transport the reader was constructed with
    until the teardown and null from then on; the listener is registered
    exactly as long as the transport is held; and the only transport the
    reader ever aborts or disposes of is its own. *)
Theorem getXhr_of_lifetime (xhr : XhrId) (ops : list Op) :
  let w := lifetime xhr ops in
  (getXhr (fst w) = Some xhr \/ getXhr (fst w) = None) /\
  listening_ (fst w) =
    match getXhr (fst w) with Some _ => true | None => false end /\
  (forall y, In (EvAbort y) (snd w) \/ In (EvDispose y) (snd w) -> y = xhr).
Proof.
  cbv zeta. split; [|split].
  - destruct (lifetime_settled xhr ops) as [H|[H _]]; [left | right]; exact H.
  - destruct (lifetime_inv xhr ops) as [HI _]. apply (inv_listening HI).
  - apply released_run; [left; reflexivity|].
    intros y [[]|[]].
Qed.

(** ** Handlers that do not throw *)

(** With a status handler that does not throw, and parsers and a data
    handler that throw only values that convert to a string, a ready-state
    change lets no exception escape and does not set [HANDLER_EXCEPTION]. *)
Lemma calm_fire (c : Prop) (target : XhrId) (x : XhrSnapshot) (w : World) :
  plain_parser -> Calm nothing c w ->
  existsb is_escaped (snd w) = false ->
  Calm nothing c (fire target x w) /\
  existsb is_escaped (snd (fire target x w)) = false.
Proof.
  intros Hpar HC He. destruct w as [r tr]. unfold fire. simpl.
  assert (HC1 : Calm nothing c (r, EvNotify target x :: tr)) by exact HC.
  destruct (listening_ r); [|split; [exact HC1 | exact He]].
  destruct (readyStateChangeHandler_throws nothing c target x _
              (fun v (H : nothing v) => match H with end) Hpar HC1)
    as [Hres HC'].
  pose proof (kept_handler target x (r, EvNotify target x :: tr)) as HK.
  destruct (readyStateChangeHandler_ target x _) as [[[]|ex] w'];
    simpl in Hres, HC', HK |- *.
  - split; [apply HC'; intros v []|].
    destruct HK as [_ _ _ (d & E & _ & Hd & _)]. simpl in E.
    rewrite E, existsb_app, Hd. exact He.
  - destruct Hres as [Hres|(v & _ & [] & _)]. discriminate Hres.
Qed.

Lemma calm_run (c : Prop) (ops : list Op) (w : World) :
  plain_parser -> polite ops -> tame ops ->
  Calm nothing c w -> existsb is_escaped (snd w) = false ->
  Calm nothing c (run ops w) /\ existsb is_escaped (snd (run ops w)) = false.
Proof.
  intros Hpar. revert w.
  induction ops as [|op ops IH]; intros w Hp Ht HC He; [auto|].
  assert (Hp' : polite ops).
  { intros h Hin. apply Hp. right. exact Hin. }
  assert (Ht' : tame ops).
  { intros h Hin. apply Ht. right. exact Hin. }
  simpl.
  destruct op as [target x|h|h]; simpl.
  - destruct (calm_fire c target x w Hpar HC He) as [HC' He'].
    apply IH; assumption.
  - apply IH; try assumption. destruct w as [r tr].
    destruct HC as (_ & Hd & Hs).
    split; [|split; [exact Hd | exact Hs]].
    apply quiet_throws_only. unfold quiet. simpl. apply Hp. left. reflexivity.
  - apply IH; try assumption. destruct w as [r tr].
    destruct HC as (Hq & _ & Hs).
    split; [exact Hq | split; [|exact Hs]].
    unfold tame_data. simpl. apply Ht. left. reflexivity.
Qed.

Lemma calm_lifetime (c : Prop) (xhr : XhrId) (ops : list Op) :
  plain_parser -> polite ops -> tame ops ->
  Calm nothing c (lifetime xhr ops) /\
  existsb is_escaped (snd (lifetime xhr ops)) = false.
Proof.
  intros Hpar Hp Ht. apply calm_run; try assumption; [|reflexivity].
  split; [exact I | split; [exact I | intros _; discriminate]].
Qed.

(** X4.  A reader is torn down only with a final status: while [getStatus()]
    is [INIT] or [ACTIVE] it holds its transport and its listener.  When the
    registered status handlers never throw, and the parsers and the
    registered data handlers throw only values that convert to a string, the
    converse holds as well: no exception leaves the ready-state handler, and
    the reader is torn down as soon as its status is [SUCCESS] or above. *)
Theorem torn_down_iff_final (xhr : XhrId) (ops : list Op) :
  let w := lifetime xhr ops in
  ((Status.code (getStatus (fst w)) <= 1)%Z ->
   getXhr (fst w) = Some xhr /\ listening_ (fst w) = true) /\
  (plain_parser -> polite ops -> tame ops ->
   existsb is_escaped (snd w) = false /\
   ((2 <= Status.code (getStatus (fst w)))%Z -> getXhr (fst w) = None)).
Proof.
  cbv zeta. unfold getStatus, getXhr.
  destruct (lifetime_inv xhr ops) as [HI HA].
  split.
  - intros Hlow.
    destruct (lifetime_settled xhr ops) as [H|[_ H]]; [|lia].
    unfold Held in H. rewrite (inv_listening HI), H. auto.
  - intros Hpar Hp Ht.
    destruct (calm_lifetime False xhr ops Hpar Hp Ht) as [_ He].
    split; [exact He|]. intros Hhigh.
    destruct (xhr_ (fst (lifetime xhr ops))) as [own|] eqn:Ex; [|reflexivity].
    exfalso. unfold Attached in HA. rewrite Ex in HA.
    destruct HA as [H|H]; [discriminate | lia |].
    rewrite He in H. discriminate H.
Qed.

(** X15.  [HANDLER_EXCEPTION] needs a status handler that throws, or a
    value that does not convert to a string: as long as the registered
    status handlers do not throw, and the parsers and the registered data
    handlers throw only values that convert to a string, the status of the
    reader is never [HANDLER_EXCEPTION]. *)
Theorem handler_exception_needs_status_handler (xhr : XhrId) (ops : list Op) :
  plain_parser -> polite ops -> tame ops ->
  Status.eqb (getStatus (fst (lifetime xhr ops))) Status.HANDLER_EXCEPTION
  = false.
Proof.
  intros Hpar Hp Ht. apply status_eqb_neq.
  destruct (calm_lifetime True xhr ops Hpar Hp Ht) as [(_ & _ & H) _].
  apply H. exact I.
Qed.

(** X16.  Completion ends the reader: when the registered status handlers do
    not throw, and the parsers and the registered data handlers throw only
    values that convert to a string, after a ready-state change of its
    transport at [COMPLETE] the reader has a final status, has released the
    transport and has dropped its listener. *)
Theorem completion_tears_down (xhr : XhrId) (ops : list Op) (x : XhrSnapshot) :
  plain_parser -> polite ops -> tame ops ->
  readyState x = ReadyState.COMPLETE ->
  let w := lifetime xhr (ops ++ [Notify xhr x]) in
  getXhr (fst w) = None /\
  (2 <= Status.code (getStatus (fst w)))%Z /\
  listening_ (fst w) = false.
Proof.
  intros Hpar Hp Ht Hc. cbv zeta. unfold getXhr, getStatus.
  assert (HD : Done (lifetime xhr (ops ++ [Notify xhr x]))).
  { unfold lifetime. rewrite run_app. fold (lifetime xhr ops).
    destruct (calm_lifetime False xhr ops Hpar Hp Ht) as [HC _].
    destruct (lifetime_inv xhr ops) as [HI _].
    pose proof (inv_listening HI) as Hl.
    destruct (lifetime_settled xhr ops) as [HH|HDone];
      destruct (lifetime xhr ops) as [r tr]; simpl (run _ _);
      unfold fire; simpl in *.
    - unfold Held in HH. simpl in HH. rewrite HH in Hl. rewrite Hl.
      assert (HC1 : Calm nothing False (r, EvNotify xhr x :: tr)) by exact HC.
      destruct (readyStateChangeHandler_throws nothing False xhr x _
                  (fun v (H : nothing v) => match H with end) Hpar HC1)
        as [Hres _].
      pose proof (readyStateChangeHandler_held xhr xhr x
                    (r, EvNotify xhr x :: tr) HH) as Hpost.
      destruct (readyStateChangeHandler_ xhr x _) as [[[]|ex] w'];
        simpl in Hres, Hpost |- *.
      + destruct Hpost as [[_ Hn]|HDone]; [|exact HDone].
        rewrite Nat.eqb_refl, Hc in Hn. discriminate Hn.
      + destruct Hres as [Hres|(v & _ & [] & _)]. discriminate Hres.
    - destruct HDone as [Hx Hs]. simpl in Hx, Hs.
      rewrite handler_detached by exact Hx.
      destruct (listening_ r); split; assumption. }
  destruct HD as [Hx Hs]. split; [exact Hx | split; [exact Hs|]].
  destruct (lifetime_inv xhr (ops ++ [Notify xhr x])) as [HI _].
  rewrite (inv_listening HI), Hx. reflexivity.
Qed.

(** ** One parse for each ready-state change *)

Lemma count_app (p : Event -> bool) (a b : Trace) :
  count p (a ++ b) = count p a + count p b.
Proof. unfold count. rewrite filter_app, length_app. reflexivity. Qed.

Lemma newest_text_quiet (d tr : Trace) :
  existsb is_notify d = false -> newest_text (d ++ tr) = newest_text tr.
Proof.
  induction d as [|e d IH]; simpl; [reflexivity|].
  destruct e; simpl; intros H; try discriminate H; apply IH, H.
Qed.

(** Between two calls of the parser there is a ready-state change: after a
    call the cursor is at the end of the text. *)
Lemma parses_separated (post mid pre : Trace)
    (start start' : nat) (newData newData' : string)
    (res res' : ParseResult) :
  trace_ok (post ++ EvParse start newData res
                 :: mid ++ EvParse start' newData' res' :: pre) ->
  existsb is_notify mid = true.
Proof.
  intros Hok. apply trace_ok_split in Hok.
  destruct Hok as [(_ & Hp & Hlt & _) Hok].
  pose proof (parsed_upto_grows mid _ Hok) as Hg. simpl in Hg.
  rewrite Hp in Hg.
  apply trace_ok_split in Hok. destruct Hok as [(_ & Hp' & Hlt' & Hd') _].
  destruct (existsb is_notify mid) eqn:E; [reflexivity | exfalso].
  rewrite (newest_text_quiet mid _ E) in Hlt. simpl in Hlt.
  rewrite Hd', substr_length in Hg. lia.
Qed.

(** The same for the calls of the data handler, each of which follows its
    parse. *)
Lemma deliveries_separated (post mid pre : Trace) (msgs msgs' : list Msg) :
  trace_ok (post ++ EvData msgs :: mid ++ EvData msgs' :: pre) ->
  existsb is_notify mid = true.
Proof.
  intros Hok.
  pose proof (trace_ok_split post _ _ Hok) as [[_ He] Hok1].
  destruct mid as [|e mid]; [contradiction He|].
  simpl in He.
  destruct e as [| | | | start newData [|m|] | | | | |]; try contradiction He.
  pose proof (trace_ok_split (EvParse start newData (PMessages m) :: mid) _ _
                Hok1) as [[_ He'] _].
  destruct pre as [|[| | | | start' newData' [|m'|] | | | | |] older];
    try contradiction He'.
  assert (H : existsb is_notify (mid ++ [EvData msgs']) = true).
  { apply (parses_separated (post ++ [EvData msgs]) (mid ++ [EvData msgs'])
             older start start' newData newData'
             (PMessages m) (PMessages m')).
    rewrite <- !app_assoc. exact Hok. }
  rewrite existsb_app in H. simpl in H |- *.
  rewrite orb_false_r in H. exact H.
Qed.

Lemma count_one_split (p : Event -> bool) (l : Trace) :
  1 <= count p l -> exists a e c, l = a ++ e :: c /\ p e = true.
Proof.
  induction l as [|e l IH]; [unfold count; simpl; lia|].
  rewrite count_cons. destruct (p e) eqn:E.
  - intros _. exists [], e, l. auto.
  - intros H. destruct (IH H) as (a & e' & c & -> & He').
    exists (e :: a), e', c. auto.
Qed.

Lemma count_two_split (p : Event -> bool) (l : Trace) :
  2 <= count p l ->
  exists a e b e' c, l = a ++ e :: b ++ e' :: c /\ p e = true /\ p e' = true.
Proof.
  induction l as [|e l IH]; [unfold count; simpl; lia|].
  rewrite count_cons. destruct (p e) eqn:E.
  - intros H. destruct (count_one_split p l) as (b & e' & c & -> & He');
      [lia|].
    exists [], e, b, e', c. auto.
  - intros H. destruct (IH H) as (a & e1 & b & e2 & c & -> & H1 & H2).
    exists (e :: a), e1, b, e2, c. auto.
Qed.

Lemma at_most_once (p : Event -> bool) (d tr : Trace) :
  (forall post e mid e' pre,
     d ++ tr = post ++ e :: mid ++ e' :: pre ->
     p e = true -> p e' = true -> existsb is_notify mid = true) ->
  existsb is_notify d = false -> count p d <= 1.
Proof.
  intros Hsep Hd.
  destruct (le_lt_dec (count p d) 1) as [H|H]; [exact H | exfalso].
  destruct (count_two_split p d H) as (a & e & b & e' & c & E & He & He').
  assert (Hb : existsb is_notify b = true).
  { apply (Hsep a e b e' (c ++ tr)); [|exact He | exact He'].
    rewrite E, <- app_assoc. simpl. rewrite <- app_assoc. reflexivity. }
  rewrite E in Hd. rewrite existsb_app in Hd. simpl in Hd.
  rewrite existsb_app in Hd. rewrite Hb in Hd.
  rewrite !orb_true_r in Hd. discriminate Hd.
Qed.

(** The calls a ready-state change leads to come after its record and hold
    no record of another one. *)
Lemma fire_trace (target : XhrId) (x : XhrSnapshot) (w : World) :
  exists d, snd (fire target x w) = d ++ EvNotify target x :: snd w /\
            existsb is_notify d = false.
Proof.
  destruct (kept_fire target x w)
    as (_ & _ & tail & d & E & Hn & _ & Htail & _).
  exists (tail ++ d). split; [rewrite E, app_assoc; reflexivity|].
  rewrite existsb_app, Hn.
  destruct Htail as [->|[ex ->]]; reflexivity.
Qed.

(** X5.  In the life of a reader one ready-state change makes at most one
    call of the parser and at most one call of the data handler. *)
Theorem one_parse_per_notification (xhr : XhrId) (ops : list Op)
    (target : XhrId) (x : XhrSnapshot) :
  let w := lifetime xhr ops in
  exists d,
    snd (fire target x w) = d ++ EvNotify target x :: snd w /\
    count is_parse d <= 1 /\ count is_delivery d <= 1.
Proof.
  cbv zeta. destruct (fire_trace target x (lifetime xhr ops)) as (d & E & Hd).
  exists d. split; [exact E|].
  assert (Hok : trace_ok (d ++ EvNotify target x :: snd (lifetime xhr ops))).
  { rewrite <- E.
    destruct (lifetime_inv xhr (ops ++ [Notify target x])) as [HI _].
    unfold lifetime in HI. rewrite run_app in HI. apply (inv_trace HI). }
  split; apply (at_most_once _ d (EvNotify target x :: snd (lifetime xhr ops)));
    try exact Hd; intros post e mid e' pre Esplit He He'; rewrite Esplit in Hok.
  - destruct e; try discriminate He. destruct e'; try discriminate He'.
    apply (parses_separated _ _ _ _ _ _ _ _ _ Hok).
  - destruct e; try discriminate He. destruct e'; try discriminate He'.
    apply (deliveries_separated _ _ _ _ _ Hok).
Qed.

(** ** The text the parser is given *)

Lemma append_assoc (a b c : string) :
  ((a ++ b) ++ c)%string = (a ++ (b ++ c))%string.
Proof. induction a as [|ch a IH]; simpl; [reflexivity | rewrite IH; reflexivity]. Qed.

Lemma append_nil_r (a : string) : (a ++ EmptyString)%string = a.
Proof. induction a as [|ch a IH]; simpl; [reflexivity | rewrite IH; reflexivity]. Qed.

Lemma length_append (a b : string) :
  String.length (a ++ b) = String.length a + String.length b.
Proof. induction a as [|ch a IH]; simpl; [reflexivity | rewrite IH; reflexivity]. Qed.

Lemma startsWith_split (s p : string) :
  JsString.startsWith s p = true -> exists u, s = (p ++ u)%string.
Proof.
  revert s. induction p as [|c p IH]; intros s; simpl.
  - intros _. exists s. reflexivity.
  - destruct s as [|d s]; [discriminate|].
    intros H. apply andb_true_iff in H. destruct H as [Hc Hp].
    apply Ascii.eqb_eq in Hc. subst d.
    destruct (IH s Hp) as [u ->]. exists u. reflexivity.
Qed.

Lemma substr_append (p u : string) (n : nat) :
  n <= String.length p ->
  JsString.substr (p ++ u) n = (JsString.substr p n ++ u)%string.
Proof.
  revert p. induction n as [|n IH]; intros p H; simpl; [reflexivity|].
  destruct p as [|c p]; simpl in *; [lia|]. apply IH. lia.
Qed.

Lemma substr_all (s : string) :
  JsString.substr s (String.length s) = EmptyString.
Proof. induction s as [|c s IH]; simpl; [reflexivity | exact IH]. Qed.

(** What the parser has been given, followed by the text from the cursor
    on, is the current text. *)
Lemma fed_rest (tr : Trace) :
  trace_ok tr -> growing tr ->
  parsed_upto tr <= String.length (newest_text tr) /\
  (fed tr ++ JsString.substr (newest_text tr) (parsed_upto tr))%string
  = newest_text tr.
Proof.
  induction tr as [|e tr IH]; simpl; [auto|].
  intros [He Hok] Hg.
  destruct e; simpl in *; try (apply IH; assumption).
  - destruct Hg as [Hs Hg]. destruct (IH Hok Hg) as [Hle Heq].
    destruct (startsWith_split _ _ Hs) as [u Hu]. rewrite Hu.
    rewrite length_append. split; [lia|].
    rewrite (substr_append _ u _ Hle), <- append_assoc, Heq. reflexivity.
  - destruct He as (_ & Hp & Hlt & Hd). destruct (IH Hok Hg) as [Hle Heq].
    assert (Hlen : start + String.length newData
                   = String.length (newest_text tr)).
    { rewrite Hd, substr_length. lia. }
    rewrite Hlen. split; [lia|].
    rewrite substr_all, append_nil_r, Hd, <- Hp. exact Heq.
Qed.

Lemma growing_quiet (d tr : Trace) :
  existsb is_notify d = false -> growing tr -> growing (d ++ tr).
Proof.
  induction d as [|e d IH]; simpl; [auto|].
  destruct e; simpl; intros H Hg; try discriminate H; apply IH; assumption.
Qed.

Lemma last_cons (l : list string) (a d : string) :
  last (a :: l) d = last l a.
Proof.
  revert a d. induction l as [|b l IH]; intros a d; [reflexivity|].
  change (last (a :: b :: l) d) with (last (b :: l) d).
  rewrite (IH b d), (IH b a). reflexivity.
Qed.

Lemma growing_run (ops : list Op) (w : World) :
  growing (snd w) ->
  extending (newest_text (snd w) :: texts ops) = true ->
  growing (snd (run ops w)) /\
  newest_text (snd (run ops w)) = last (texts ops) (newest_text (snd w)).
Proof.
  revert w. induction ops as [|op ops IH]; intros w Hg He; [auto|].
  destruct op as [target x|h|h].
  - change (texts (Notify target x :: ops))
      with (responseText x :: texts ops) in *.
    change (extending (newest_text (snd w) :: responseText x :: texts ops))
      with (JsString.startsWith (responseText x) (newest_text (snd w))
            && extending (responseText x :: texts ops)) in He.
    apply andb_true_iff in He. destruct He as [He1 He2].
    destruct (fire_trace target x w) as (d & E & Hd).
    assert (Hn : newest_text (snd (fire target x w)) = responseText x).
    { rewrite E, (newest_text_quiet d _ Hd). reflexivity. }
    destruct (IH (fire target x w)) as [H1 H2].
    + rewrite E. apply growing_quiet; [exact Hd|]. simpl. auto.
    + rewrite Hn. exact He2.
    + split; [exact H1|]. simpl (run _ _). unfold run in H2 |- *.
      rewrite H2, Hn. symmetry. apply last_cons.
  - destruct w as [r tr]. apply (IH (set_statusHandler_ (Some h) r, tr));
      assumption.
  - destruct w as [r tr]. apply (IH (set_dataHandler_ (Some h) r, tr));
      assumption.
Qed.

Lemma extending_from_empty (l : list string) :
  extending (EmptyString :: l) = extending l.
Proof. destruct l as [|a l]; reflexivity. Qed.

(** X6.  When the response only grows (each ready-state change comes with a
    text that starts with the text of the one before), the parser is given
    every character once and in order: what it has been given so far,
    followed by the text from the cursor on, is the text of the newest
    ready-state change; the cursor is within that text, and when it is at
    its end the parser has been given exactly that text. *)
Theorem parser_is_fed_the_text (xhr : XhrId) (ops : list Op) :
  extending (texts ops) = true ->
  let w := lifetime xhr ops in
  let text := last (texts ops) EmptyString in
  newest_text (snd w) = text /\
  pos_ (fst w) <= String.length text /\
  (fed (snd w) ++ JsString.substr text (pos_ (fst w)))%string = text /\
  (pos_ (fst w) = String.length text -> fed (snd w) = text).
Proof.
  intros He. cbv zeta.
  destruct (lifetime_inv xhr ops) as [HI _].
  destruct (growing_run ops (newReader xhr, []) I) as [Hg Hn].
  { simpl (snd _). simpl (newest_text _). rewrite extending_from_empty.
    exact He. }
  simpl (newest_text []) in Hn. fold (lifetime xhr ops) in Hg, Hn.
  destruct (fed_rest _ (inv_trace HI) Hg) as [Hle Heq].
  rewrite (inv_parsed HI), Hn in *.
  split; [reflexivity | split; [exact Hle | split; [exact Heq|]]].
  intros Hp. rewrite Hp, substr_all, append_nil_r in Heq. exact Heq.
Qed.

(** ** The messages that reach the data handler *)

Lemma delivered_fire (target : XhrId) (x : XhrSnapshot) (w : World) :
  delivered w (fire target x w).
Proof.
  destruct w as [r tr]. unfold fire. simpl.
  assert (Hn : delivered (r, tr) (r, EvNotify target x :: tr)).
  { apply (delivered_emit (fun r => r)); reflexivity. }
  destruct (listening_ r); [|exact Hn].
  pose proof (delivered_handler target x (r, EvNotify target x :: tr)) as H.
  destruct (readyStateChangeHandler_ target x _) as [[[]|ex] [r' tr']];
    simpl in H |- *.
  - eapply delivered_trans; [exact Hn | exact H].
  - eapply delivered_trans; [exact Hn|].
    eapply delivered_trans; [exact H|].
    apply (delivered_emit (fun r => r)); reflexivity.
Qed.

(** With a data handler registered, every array the parser returns is
    passed on. *)
Lemma all_delivered_run (ops : list Op) (w : World) :
  dataHandler_ (fst w) <> None ->
  dataHandler_ (fst (run ops w)) <> None /\
  exists d, snd (run ops w) = d ++ snd w /\ batches d = parsed_arrays d.
Proof.
  revert w. induction ops as [|op ops IH]; intros w Hh.
  - split; [exact Hh|]. exists []. auto.
  - assert (Hstep : dataHandler_ (fst (step w op)) <> None /\
                    exists d, snd (step w op) = d ++ snd w /\
                              batches d = parsed_arrays d).
    { destruct op as [target x|h|h]; simpl.
      - destruct (delivered_fire target x w) as (Hsame & d & E & Hb).
        split; [rewrite Hsame; exact Hh|]. exists d. split; [exact E|].
        destruct (dataHandler_ (fst w)); [exact Hb | contradiction].
      - destruct w as [r tr]. split; [exact Hh|]. exists []. auto.
      - destruct w as [r tr]. split; [discriminate|]. exists []. auto. }
    destruct Hstep as (Hh1 & d1 & E1 & Hb1).
    destruct (IH (step w op) Hh1) as (Hh2 & d2 & E2 & Hb2).
    split; [exact Hh2|]. exists (d2 ++ d1).
    split; [simpl (run _ _); unfold run in E2 |- *;
            rewrite E2, E1; apply app_assoc|].
    rewrite batches_app, parsed_arrays_app, Hb1, Hb2. reflexivity.
Qed.

(** Without one, nothing is. *)
Lemma none_delivered_run (ops : list Op) (w : World) :
  existsb registers_data ops = false ->
  dataHandler_ (fst w) = None ->
  dataHandler_ (fst (run ops w)) = None /\
  batches (snd (run ops w)) = batches (snd w).
Proof.
  revert w. induction ops as [|op ops IH]; intros w Hr Hh; [auto|].
  simpl in Hr. apply orb_false_iff in Hr. destruct Hr as [Hr1 Hr2].
  assert (Hstep : dataHandler_ (fst (step w op)) = None /\
                  batches (snd (step w op)) = batches (snd w)).
  { destruct op as [target x|h|h]; simpl; try discriminate Hr1.
    - destruct (delivered_fire target x w) as (Hsame & d & E & Hb).
      split; [rewrite Hsame; exact Hh|].
      rewrite E, batches_app, Hb, Hh. reflexivity.
    - destruct w as [r tr]. auto. }
  destruct Hstep as [Hh1 Hb1].
  destruct (IH (step w op) Hr2 Hh1) as [Hh2 Hb2].
  split; [exact Hh2|]. simpl (run _ _). unfold run in Hb2 |- *.
  rewrite Hb2. exact Hb1.
Qed.

(** X7.  With a data handler registered before the first ready-state change,
    the arrays passed to the data handler over the life of the reader are
    the arrays the parser returned, all of them and in the same order, also
    when the handler is replaced on the way.  Without a registered data
    handler the messages are dropped: nothing is kept for a handler
    registered later. *)
Theorem messages_reach_the_data_handler :
  (forall xhr handler ops,
     let w := lifetime xhr (SetDataHandler handler :: ops) in
     batches (snd w) = parsed_arrays (snd w)) /\
  (forall xhr ops handler ops',
     existsb registers_data ops = false ->
     let w := lifetime xhr ops in
     let w' := lifetime xhr (ops ++ SetDataHandler handler :: ops') in
     batches (snd w) = [] /\
     exists d, snd w' = d ++ snd w /\ batches (snd w') = parsed_arrays d).
Proof.
  split.
  - intros xhr handler ops. cbv zeta.
    change (lifetime xhr (SetDataHandler handler :: ops))
      with (run ops (set_dataHandler_ (Some handler) (newReader xhr), [])).
    destruct (all_delivered_run ops
                (set_dataHandler_ (Some handler) (newReader xhr), []))
      as (_ & d & E & Hb); [discriminate|].
    rewrite E. simpl (snd (_, [])). rewrite app_nil_r. exact Hb.
  - intros xhr ops handler ops' Hr. cbv zeta.
    destruct (none_delivered_run ops (newReader xhr, []) Hr eq_refl)
      as [_ Hb].
    change (run ops (newReader xhr, [])) with (lifetime xhr ops) in Hb.
    change (batches (snd (newReader xhr, []))) with (@nil (list Msg)) in Hb.
    split; [exact Hb|].
    replace (lifetime xhr (ops ++ SetDataHandler handler :: ops'))
      with (run ops' (step (lifetime xhr ops) (SetDataHandler handler)))
      by (unfold lifetime; rewrite run_app; reflexivity).
    destruct (lifetime xhr ops) as [r tr].
    change (step (r, tr) (SetDataHandler handler))
      with (set_dataHandler_ (Some handler) r, tr).
    destruct (all_delivered_run ops' (set_dataHandler_ (Some handler) r, tr))
      as (_ & d & E & Hd); [discriminate|].
    exists d. simpl (snd (_, tr)) in *.
    split; [exact E|]. rewrite E, batches_app, Hb, app_nil_r. exact Hd.
Qed.

(** ** The status changes that reach the status handler *)

Lemma reported_refl (w : World) : reported w w.
Proof.
  split; [reflexivity|]. exists []. split; [reflexivity|].
  destruct (statusHandler_ (fst w)); reflexivity.
Qed.

Lemma reported_trans (w1 w2 w3 : World) :
  reported w1 w2 -> reported w2 w3 -> reported w1 w3.
Proof.
  intros (Hh1 & d1 & Hd1 & Hb1) (Hh2 & d2 & Hd2 & Hb2).
  split; [congruence|]. exists (d2 ++ d1).
  split; [rewrite Hd2, Hd1; apply app_assoc|].
  rewrite count_app, Hb1, Hb2, Hh1.
  destruct (statusHandler_ (fst w1)); [|reflexivity].
  symmetry. apply count_app.
Qed.

(** An event that is neither a write of the status nor a call of the status
    handler. *)
Lemma reported_emit (f : XhrStreamReader -> XhrStreamReader)
    (r : XhrStreamReader) (tr : Trace) (e : Event) :
  statusHandler_ (f r) = statusHandler_ r ->
  is_status_write e = false -> is_status_call e = false ->
  reported (r, tr) (f r, e :: tr).
Proof.
  intros Hf He1 He2. split; [exact Hf|]. exists [e]. split; [reflexivity|].
  simpl. rewrite !count_cons, He1, He2.
  destruct (statusHandler_ r); reflexivity.
Qed.

Lemma reported_update (s : Status.t) (w : World) :
  reported w (snd (updateStatus_ s w)).
Proof.
  destruct w as [r tr].
  unfold updateStatus_, bind, this, assign, emit, invoke, ret. simpl.
  destruct (Status.eqb (status_ r) s); simpl; [apply reported_refl|].
  destruct (statusHandler_ r) as [h|] eqn:Eh; simpl.
  - split; [reflexivity|]. eexists [_; _]. split; [reflexivity|].
    simpl. rewrite Eh. reflexivity.
  - split; [reflexivity|]. eexists [_]. split; [reflexivity|].
    simpl. rewrite Eh. reflexivity.
Qed.

Lemma reported_clear (w : World) : reported w (snd (clear_ w)).
Proof.
  destruct w as [r tr].
  unfold clear_, bind, this, assign, emit, ret. simpl.
  destruct (xhr_ r) as [xhr|]; simpl.
  - split; [reflexivity|]. eexists [_; _; _]. split; [reflexivity|]. simpl.
    destruct (statusHandler_ r); reflexivity.
  - split; [reflexivity|]. exists []. split; [reflexivity|]. simpl.
    destruct (statusHandler_ r); reflexivity.
Qed.

Lemma reported_parse (start : nat) (newData : string) (w : World) :
  reported w (snd (parseAndDeliver_ start newData w)).
Proof.
  destruct w as [r tr]. unfold parseAndDeliver_, bind, this, throw. simpl.
  destruct (parser_ r) as [[kind ps]|] eqn:Ep; simpl; [|apply reported_refl].
  destruct (parse kind ps newData) as [ps' res].
  unfold bind, assign, emit, invoke, ret, throw. simpl.
  destruct res as [|msgs|]; simpl.
  - split; [reflexivity|]. eexists [_]. split; [reflexivity|]. simpl.
    destruct (statusHandler_ r); reflexivity.
  - destruct (dataHandler_ r) as [h|]; simpl.
    + split; [reflexivity|]. eexists [_; _]. split; [reflexivity|]. simpl.
      destruct (statusHandler_ r); reflexivity.
    + split; [reflexivity|]. eexists [_]. split; [reflexivity|]. simpl.
      destruct (statusHandler_ r); reflexivity.
  - split; [reflexivity|]. eexists [_]. split; [reflexivity|]. simpl.
    destruct (statusHandler_ r); reflexivity.
Qed.

Lemma reported_handler (target : XhrId) (x : XhrSnapshot) (w : World) :
  reported w (snd (readyStateChangeHandler_ target x w)).
Proof.
  apply (method_readyStateChangeHandler_ reported reported_refl
           reported_trans).
  - apply reported_update.
  - apply reported_clear.
  - intros k r tr _.
    apply (reported_emit
             (set_parser_ (option_map (fun k => (k, newParser k)) k)));
      reflexivity.
  - intros n r tr _. split; [reflexivity|]. exists []. split; [reflexivity|].
    simpl. destruct (statusHandler_ r); reflexivity.
  - apply reported_parse.
Qed.

Lemma reported_fire (target : XhrId) (x : XhrSnapshot) (w : World) :
  reported w (fire target x w).
Proof.
  destruct w as [r tr]. unfold fire. simpl.
  assert (Hn : reported (r, tr) (r, EvNotify target x :: tr)).
  { apply (reported_emit (fun r => r)); reflexivity. }
  destruct (listening_ r); [|exact Hn].
  pose proof (reported_handler target x (r, EvNotify target x :: tr)) as H.
  destruct (readyStateChangeHandler_ target x _) as [[[]|ex] [r' tr']];
    simpl in H |- *.
  - eapply reported_trans; [exact Hn | exact H].
  - eapply reported_trans; [exact Hn|].
    eapply reported_trans; [exact H|].
    apply (reported_emit (fun r => r)); reflexivity.
Qed.

Lemma reported_run (ops : list Op) (w : World) :
  exists d,
    snd (run ops w) = d ++ snd w /\
    count is_status_call d <= count is_status_write d /\
    (statusHandler_ (fst w) <> None ->
     statusHandler_ (fst (run ops w)) <> None /\
     count is_status_call d = count is_status_write d).
Proof.
  revert w. induction ops as [|op ops IH]; intros w.
  - exists []. simpl. auto.
  - assert (Hstep : exists d,
              snd (step w op) = d ++ snd w /\
              count is_status_call d <= count is_status_write d /\
              (statusHandler_ (fst w) <> None ->
               statusHandler_ (fst (step w op)) <> None /\
               count is_status_call d = count is_status_write d)).
    { destruct op as [target x|h|h]; simpl.
      - destruct (reported_fire target x w) as (Hsame & d & E & Hc).
        exists d. split; [exact E|]. rewrite Hsame. revert Hc.
        destruct (statusHandler_ (fst w)); intros Hc;
          [|split; [lia | congruence]].
        split; [lia | auto].
      - destruct w as [r tr]. exists []. simpl.
        split; [reflexivity | split; [apply le_n|]]. intros _.
        split; [discriminate | reflexivity].
      - destruct w as [r tr]. exists []. simpl. auto. }
    destruct Hstep as (d1 & E1 & Hle1 & Heq1).
    destruct (IH (step w op)) as (d2 & E2 & Hle2 & Heq2).
    exists (d2 ++ d1).
    split; [simpl (run _ _); unfold run in E2 |- *;
            rewrite E2, E1; apply app_assoc|].
    rewrite !count_app. split; [lia|].
    intros Hh. destruct (Heq1 Hh) as [Hh1 Hc1].
    destruct (Heq2 Hh1) as [Hh2 Hc2].
    split; [exact Hh2 | lia].
Qed.

(** X8.  Over the life of a reader the status handler is called at most as
    often as the status changes, and with a status handler registered before
    the first ready-state change it is called once for every change of the
    status, also when the handler is replaced on the way. *)
Theorem status_changes_are_reported :
  (forall xhr ops,
     let w := lifetime xhr ops in
     count is_status_call (snd w) <= count is_status_write (snd w)) /\
  (forall xhr handler ops,
     let w := lifetime xhr (SetStatusHandler handler :: ops) in
     count is_status_call (snd w) = count is_status_write (snd w)).
Proof.
  split.
  - intros xhr ops. cbv zeta.
    destruct (reported_run ops (newReader xhr, [])) as (d & E & Hle & _).
    change (run ops (newReader xhr, [])) with (lifetime xhr ops) in E.
    rewrite E. simpl (snd (_, [])). rewrite app_nil_r. exact Hle.
  - intros xhr handler ops. cbv zeta.
    change (lifetime xhr (SetStatusHandler handler :: ops))
      with (run ops (set_statusHandler_ (Some handler) (newReader xhr), [])).
    destruct (reported_run ops
                (set_statusHandler_ (Some handler) (newReader xhr), []))
      as (d & E & _ & Heq).
    rewrite E. simpl (snd (_, [])). rewrite app_nil_r.
    apply Heq. discriminate.
Qed.

(** ** The handlers in effect *)

Lemma handlers_run (ops : list Op) (w : World) :
  statusHandler_ (fst (run ops w))
  = lastStatusHandler ops (statusHandler_ (fst w)) /\
  dataHandler_ (fst (run ops w))
  = lastDataHandler ops (dataHandler_ (fst w)).
Proof.
  revert w. induction ops as [|op ops IH]; intros w; [auto|].
  simpl (run _ _). unfold run in IH |- *.
  destruct (IH (step w op)) as [H1 H2]. rewrite H1, H2.
  destruct op as [target x|h|h]; simpl.
  - destruct (kept_fire target x w) as (Hs & Hd & _).
    rewrite Hs, Hd. auto.
  - destruct w as [r tr]. auto.
  - destruct w as [r tr]. auto.
Qed.

(** X9.  The handlers in effect are the ones registered last:
    [setStatusHandler] and [setDataHandler] replace the handler, and nothing
    the reader does, the teardown included, unregisters or changes one. *)
Theorem last_registered_handlers (xhr : XhrId) (ops : list Op) :
  let w := lifetime xhr ops in
  statusHandler_ (fst w) = lastStatusHandler ops None /\
  dataHandler_ (fst w) = lastDataHandler ops None.
Proof. apply (handlers_run ops (newReader xhr, [])). Qed.

(** ** Ready-state changes the reader lets pass *)

Lemma passed_by (target own : XhrId) (x : XhrSnapshot)
    (r : XhrStreamReader) (tr : Trace) :
  xhr_ r = Some own ->
  negb (target =? own) || too_early x = true ->
  readyStateChangeHandler_ target x (r, tr) = (Ok tt, (r, tr)).
Proof.
  intros Hx H. unfold readyStateChangeHandler_, try_catch.
  rewrite bind_this, Hx.
  destruct (target =? own); [|reflexivity].
  simpl in H. unfold onReadyStateChanged_. rewrite bind_this, Hx.
  unfold too_early in H. rewrite H. reflexivity.
Qed.

Lemma passes_step (xhr : XhrId) (op : Op) (r : XhrStreamReader) (tr : Trace) :
  xhr_ r = Some xhr -> passes xhr op = true ->
  exists r' d,
    step (r, tr) op = (r', d ++ tr) /\ forallb is_notify d = true /\
    xhr_ r' = Some xhr /\ status_ r' = status_ r /\ pos_ r' = pos_ r /\
    parser_ r' = parser_ r /\ listening_ r' = listening_ r.
Proof.
  intros Hx Hp. destruct op as [target x|h|h]; simpl in *.
  - exists r, [EvNotify target x]. unfold fire. simpl.
    rewrite (passed_by target xhr x r _ Hx Hp).
    destruct (listening_ r); auto 10.
  - exists (set_statusHandler_ (Some h) r), []. simpl. auto 10.
  - exists (set_dataHandler_ (Some h) r), []. simpl. auto 10.
Qed.

Lemma passes_run (xhr : XhrId) (ops : list Op)
    (r : XhrStreamReader) (tr : Trace) :
  xhr_ r = Some xhr -> forallb (passes xhr) ops = true ->
  exists r' d,
    run ops (r, tr) = (r', d ++ tr) /\ forallb is_notify d = true /\
    xhr_ r' = Some xhr /\ status_ r' = status_ r /\ pos_ r' = pos_ r /\
    parser_ r' = parser_ r /\ listening_ r' = listening_ r.
Proof.
  revert r tr. induction ops as [|op ops IH]; intros r tr Hx Hp.
  - exists r, []. simpl. auto 10.
  - simpl in Hp. apply andb_true_iff in Hp. destruct Hp as [Hp1 Hp2].
    destruct (passes_step xhr op r tr Hx Hp1)
      as (r1 & d1 & E1 & Hn1 & Hx1 & Hs1 & Hc1 & Hk1 & Hl1).
    destruct (IH r1 (d1 ++ tr) Hx1 Hp2)
      as (r2 & d2 & E2 & Hn2 & Hx2 & Hs2 & Hc2 & Hk2 & Hl2).
    exists r2, (d2 ++ d1). simpl (run _ _). unfold run in E2 |- *.
    rewrite E1.
    split; [rewrite <- app_assoc; exact E2|].
    split; [rewrite forallb_app, Hn2, Hn1; reflexivity|].
    repeat split; congruence.
Qed.

(** X1.  As long as every ready-state change is one of another transport,
    comes before the transport is [INTERACTIVE], or comes at [INTERACTIVE]
    with an empty response text, the reader does nothing: the status stays
    [INIT], no parser is selected, the cursor stays at 0, the transport is
    held and listened to, and no handler, parser or transport method is
    called. *)
Theorem early_changes_are_ignored (xhr : XhrId) (ops : list Op) :
  forallb (passes xhr) ops = true ->
  let w := lifetime xhr ops in
  getStatus (fst w) = Status.INIT /\
  getXhr (fst w) = Some xhr /\
  parser_ (fst w) = None /\
  pos_ (fst w) = 0 /\
  listening_ (fst w) = true /\
  forallb is_notify (snd w) = true.
Proof.
  intros Hp. cbv zeta. unfold getStatus, getXhr.
  destruct (passes_run xhr ops (newReader xhr) [] eq_refl Hp)
    as (r' & d & E & Hn & Hx & Hs & Hc & Hk & Hl).
  assert (E' : lifetime xhr ops = (r', d ++ [])) by exact E.
  rewrite E'. simpl. rewrite app_nil_r. auto 10.
Qed.

(** ** The failure of the request *)

(** X10.  When the transport completes with a timeout, an abort or a status
    code other than 200 and 206, and a parser is there or can be selected
    from the headers, and the status handler does not throw: the reader ends
    with the status of that failure ([TIMEOUT] before [CANCELLED] before
    [XHR_ERROR], whatever the status code of a timed-out or aborted request
    is), it is torn down, and the response text is not looked at: the cursor
    stays and neither the parser nor the data handler is called. *)
Theorem request_failure_is_final
    (x : XhrSnapshot) (r : XhrStreamReader) (tr : Trace) (own : XhrId)
    (s : Status.t) :
  xhr_ r = Some own ->
  requestFailure x = Some s ->
  quiet r ->
  parser_ r <> None \/
  getParserByResponseHeader_ (contentTypeHeader x) (contentTransferEncoding x)
  <> None ->
  let out := readyStateChangeHandler_ own x (r, tr) in
  fst out = Ok tt /\
  getStatus (fst (snd out)) = s /\
  getXhr (fst (snd out)) = None /\
  pos_ (fst (snd out)) = pos_ r /\
  count is_decoding (snd (snd out)) = count is_decoding tr.
Proof.
  destruct r as [xh pa po st sh dh li].
  destruct x as [rs ec sc text ct te]. simpl.
  intros ->. unfold requestFailure, quiet. simpl.
  destruct rs; simpl; try (intros Hf; discriminate Hf).
  run_handler. rewrite Nat.eqb_refl. simpl.
  destruct ec; simpl;
    repeat match goal with
           | |- context [(sc =? ?c)%Z] => destruct (sc =? c)%Z; simpl
           end;
    intros Hf Hq Hp; try discriminate Hf; injection Hf as <-;
    destruct (getParserByResponseHeader_ ct te) as [k|];
    destruct st; destruct sh as [h|]; destruct pa as [p|]; simpl;
    rewrite ?Hq; simpl;
    try (destruct Hp as [Hp|Hp]; congruence);
    unfold count; simpl; auto 10.
Qed.

(** ** Decoding *)

Lemma max_of_ltb (a b : nat) :
  Nat.max a b = if a <? b then b else a.
Proof.
  destruct (a <? b) eqn:E;
    [apply Nat.ltb_lt in E | apply Nat.ltb_ge in E]; lia.
Qed.

(** X11.  A ready-state change that comes with text (or at completion), with
    no failure of the request, a parser that is there or can be selected, a
    parser that does not throw on the new text and handlers that do not
    throw: the parser is given the text from the cursor on, if there is
    any, and keeps its new state, the array it returns goes to the data
    handler, and the cursor moves to the end of the text.  At completion
    the status becomes [NO_DATA] when the text is empty and [SUCCESS]
    otherwise, also when the last parse returned null or nothing was left
    to parse, and the reader is torn down; before completion the status
    becomes [ACTIVE] and the transport is kept. *)
Theorem new_text_is_decoded
    (x : XhrSnapshot) (r : XhrStreamReader) (tr : Trace) (own : XhrId)
    (kind : ParserKind) (st st' : PState) (res : ParseResult) :
  xhr_ r = Some own ->
  Status.failure (status_ r) = false ->
  too_early x = false ->
  requestFailure x = None ->
  parserFor r x = Some (kind, st) ->
  parse kind st (JsString.substr (responseText x) (pos_ r)) = (st', res) ->
  (forall thrown, res <> PThrow thrown) ->
  quiet r ->
  calm_data r ->
  let fresh := pos_ r <? String.length (responseText x) in
  let complete := ReadyState.eqb (readyState x) ReadyState.COMPLETE in
  let out := readyStateChangeHandler_ own x (r, tr) in
  fst out = Ok tt /\
  getStatus (fst (snd out)) =
    (if complete
     then if String.length (responseText x) =? 0
          then Status.NO_DATA else Status.SUCCESS
     else Status.ACTIVE) /\
  getXhr (fst (snd out)) = (if complete then None else Some own) /\
  pos_ (fst (snd out)) = Nat.max (pos_ r) (String.length (responseText x)) /\
  parser_ (fst (snd out)) = Some (kind, if fresh then st' else st) /\
  exists d,
    snd (snd out) = d ++ tr /\
    count is_parse d = (if fresh then 1 else 0) /\
    batches d =
      (if fresh
       then match res, dataHandler_ r with
            | PMessages msgs, Some _ => [msgs]
            | _, _ => []
            end
       else []).
Proof.
  destruct r as [xh pa po stat sh dh li].
  destruct x as [rs ec sc text ct te]. simpl.
  intros -> Hst Hearly Hfail Hpf Hparse Hres Hq Hcd.
  unfold too_early, requestFailure, parserFor, quiet, calm_data in *.
  simpl in *. unfold Status.failure in Hst.
  rewrite max_of_ltb.
  run_handler. rewrite Nat.eqb_refl. simpl.
  assert (Hsel :
            match pa with
            | Some p => p = (kind, st)
            | None => getParserByResponseHeader_ ct te = Some kind /\
                      st = newParser kind
            end).
  { destruct pa as [p|]; [congruence|].
    destruct (getParserByResponseHeader_ ct te) as [k|];
      simpl in Hpf; [|discriminate Hpf].
    injection Hpf as <- <-. auto. }
  clear Hpf.
  destruct rs; simpl in Hearly |- *; try discriminate Hearly;
    [rewrite Hearly; simpl|];
    (destruct ec; simpl in Hfail |- *; try discriminate Hfail);
    repeat match goal with
           | |- context [(sc =? ?c)%Z] =>
               destruct (sc =? c)%Z eqn:?; simpl in Hfail |- *
           end;
    try discriminate Hfail;
    (destruct pa as [p|];
     [subst p | destruct Hsel as [Hsel ->]; rewrite Hsel]; simpl);
    (destruct stat; try discriminate Hst; simpl);
    (destruct (po <? String.length text) eqn:Hlt; simpl;
     [unfold parseAndDeliver_, bind, this, assign, emit, invoke, ret, throw;
      simpl; rewrite Hparse; simpl;
      destruct res as [|msgs|thrown];
      try (exfalso; apply (Hres thrown); reflexivity);
      simpl; destruct dh as [dhandler|]; simpl; rewrite ?Hcd; simpl
     |]);
    (destruct (String.length text =? 0); simpl);
    (destruct sh as [h|]; simpl; rewrite ?Hq; simpl);
    repeat (split; [reflexivity|]);
    new_events; unfold count; simpl; auto.
Qed.

(** X12.  When the parser throws on the new text, the data handler is not
    called and the cursor is at the end of the text that could not be
    parsed.  When the thrown value converts to a string, the status becomes
    [BAD_DATA], or [HANDLER_EXCEPTION] when the status handler throws as
    well; with a status handler that does not throw the reader is torn down
    with [BAD_DATA].  When the conversion throws, the [catch] of the
    ready-state handler gets what it threw: if that converts to a string the
    status becomes [HANDLER_EXCEPTION], and with a status handler that does
    not throw the reader is torn down; if not, the exception leaves the
    ready-state handler, the status is what it was and the reader keeps its
    transport. *)
Theorem parser_exception_is_bad_data
    (x : XhrSnapshot) (r : XhrStreamReader) (tr : Trace) (own : XhrId)
    (kind : ParserKind) (st st' : PState) (thrown : Thrown) :
  xhr_ r = Some own ->
  Status.failure (status_ r) = false ->
  too_early x = false ->
  requestFailure x = None ->
  parserFor r x = Some (kind, st) ->
  pos_ r < String.length (responseText x) ->
  parse kind st (JsString.substr (responseText x) (pos_ r))
  = (st', PThrow thrown) ->
  let out := readyStateChangeHandler_ own x (r, tr) in
  count is_delivery (snd (snd out)) = count is_delivery tr /\
  pos_ (fst (snd out)) = String.length (responseText x) /\
  (concat thrown = None ->
   (getStatus (fst (snd out)) = Status.BAD_DATA \/
    getStatus (fst (snd out)) = Status.HANDLER_EXCEPTION) /\
   (quiet r ->
    fst out = Ok tt /\
    getStatus (fst (snd out)) = Status.BAD_DATA /\
    getXhr (fst (snd out)) = None /\
    In (EvStatus (status_ r) Status.BAD_DATA) (snd (snd out)))) /\
  (forall thrown',
     concat thrown = Some thrown' -> concat thrown' = None ->
     getStatus (fst (snd out)) = Status.HANDLER_EXCEPTION /\
     (quiet r -> fst out = Ok tt /\ getXhr (fst (snd out)) = None)) /\
  (forall thrown' thrown'',
     concat thrown = Some thrown' -> concat thrown' = Some thrown'' ->
     fst out = Throw thrown'' /\
     getStatus (fst (snd out)) = status_ r /\
     getXhr (fst (snd out)) = Some own).
Proof.
  destruct r as [xh pa po stat sh dh li].
  destruct x as [rs ec sc text ct te]. simpl.
  intros -> Hst Hearly Hfail Hpf Hpos Hparse.
  unfold too_early, requestFailure, parserFor, quiet in *.
  simpl in *. unfold Status.failure in Hst.
  apply Nat.ltb_lt in Hpos.
  run_handler. rewrite Nat.eqb_refl. simpl.
  assert (Hsel :
            match pa with
            | Some p => p = (kind, st)
            | None => getParserByResponseHeader_ ct te = Some kind /\
                      st = newParser kind
            end).
  { destruct pa as [p|]; [congruence|].
    destruct (getParserByResponseHeader_ ct te) as [k|];
      simpl in Hpf; [|discriminate Hpf].
    injection Hpf as <- <-. auto. }
  clear Hpf.
  destruct rs; simpl in Hearly |- *; try discriminate Hearly;
    [rewrite Hearly; simpl|];
    (destruct ec; simpl in Hfail |- *; try discriminate Hfail);
    repeat match goal with
           | |- context [(sc =? ?c)%Z] =>
               destruct (sc =? c)%Z eqn:?; simpl in Hfail |- *
           end;
    try discriminate Hfail;
    (destruct pa as [p|];
     [subst p | destruct Hsel as [Hsel ->]; rewrite Hsel]; simpl);
    (destruct stat; try discriminate Hst; simpl);
    rewrite Hpos; simpl;
    unfold parseAndDeliver_, bind, this, assign, emit, invoke, ret, throw;
    simpl; rewrite Hparse; simpl;
    (destruct sh as [h|]; simpl);
    split_calls;
    unfold count; simpl;
    (split;
     [reflexivity
     | split;
       [reflexivity
       | split;
         [intros Hc
         | split;
           [intros thrown' Hc Hc' | intros thrown' thrown'' Hc Hc']]]]);
    try congruence;
    repeat match goal with
           | H : Some ?u = Some ?v |- _ =>
               assert (v = u) by congruence; subst v; clear H
           end;
    try congruence;
    repeat match goal with
           | H1 : concat ?a = Some ?u, H2 : concat ?a = Some ?v |- _ =>
               assert (v = u) by congruence; subst v; clear H2
           end;
    first
      [ solve [repeat split; reflexivity]
      | solve [split;
               [reflexivity
               | intros Hq; try (rewrite Hq in *; discriminate);
                 split; reflexivity]]
      | solve [(split; [tauto | intros Hq]);
               try (rewrite Hq in *; discriminate);
               simpl; auto 10] ].
Qed.

(** ** The headers *)

Lemma falsy_lower (s : string) :
  JsString.falsy (JsString.toLowerCase s) = JsString.falsy s.
Proof. destruct s; reflexivity. Qed.

Lemma toLowerChar_twice (c : ascii) :
  JsString.toLowerChar (JsString.toLowerChar c) = JsString.toLowerChar c.
Proof.
  destruct c as [[] [] [] [] [] [] [] []]; vm_compute; reflexivity.
Qed.

Lemma toLowerCase_twice (s : string) :
  JsString.toLowerCase (JsString.toLowerCase s) = JsString.toLowerCase s.
Proof.
  induction s as [|c s IH]; simpl; [reflexivity|].
  rewrite toLowerChar_twice, IH. reflexivity.
Qed.

Lemma selection_by_lower (c c' : string) (te te' : option string) :
  JsString.toLowerCase c = JsString.toLowerCase c' ->
  option_map JsString.toLowerCase te = option_map JsString.toLowerCase te' ->
  getParserByResponseHeader_ (Some c) te
  = getParserByResponseHeader_ (Some c') te'.
Proof.
  intros Hc Hte. unfold getParserByResponseHeader_.
  rewrite <- (falsy_lower c), <- (falsy_lower c'), Hc.
  destruct (JsString.falsy (JsString.toLowerCase c')); [reflexivity|].
  destruct (JsString.startsWith _ "application/json"); [reflexivity|].
  destruct (JsString.startsWith _ "application/x-protobuf"); [|reflexivity].
  destruct te as [e|], te' as [e'|]; simpl in Hte;
    try discriminate Hte; [|reflexivity].
  injection Hte as Hte.
  rewrite <- (falsy_lower e), <- (falsy_lower e'), Hte. reflexivity.
Qed.

(** X13.  The parser depends on the two headers only up to the case of their
    letters: headers that are equal once lower-cased select the same parser,
    and lower-casing a header beforehand changes nothing. *)
Theorem selection_ignores_case (ct ct' te te' : option string) :
  option_map JsString.toLowerCase ct = option_map JsString.toLowerCase ct' ->
  option_map JsString.toLowerCase te = option_map JsString.toLowerCase te' ->
  getParserByResponseHeader_ ct te = getParserByResponseHeader_ ct' te' /\
  getParserByResponseHeader_ (option_map JsString.toLowerCase ct)
    (option_map JsString.toLowerCase te)
  = getParserByResponseHeader_ ct te.
Proof.
  intros Hc Hte. split.
  - destruct ct as [c|], ct' as [c'|]; simpl in Hc;
      try discriminate Hc; [|reflexivity].
    injection Hc as Hc. apply selection_by_lower; assumption.
  - destruct ct as [c|]; [|reflexivity]. simpl (option_map _ (Some c)).
    apply selection_by_lower; [apply toLowerCase_twice|].
    destruct te as [e|]; simpl; [|reflexivity].
    rewrite toLowerCase_twice. reflexivity.
Qed.

(** ** Streaming support *)

(** X14.  Streaming is supported unless the engine is Internet Explorer
    below document mode 10, WebKit below version 420+, or Opera that is not
    based on WebKit; on WebKit the Opera flag makes no difference, and
    reaching document mode 10 or version 420+ never loses the support. *)
Theorem streaming_support (ua : UserAgent) :
  (isStreamingSupported ua = true <->
   (IE ua = true -> isDocumentModeOrHigher10 ua = true) /\
   (WEBKIT ua = true -> isVersionOrHigher420 ua = true) /\
   (OPERA ua = true -> WEBKIT ua = true)) /\
  (WEBKIT ua = true ->
   forall opera,
     isStreamingSupported
       (mkUserAgent (IE ua) (isDocumentModeOrHigher10 ua) true
          (isVersionOrHigher420 ua) opera)
     = isStreamingSupported ua) /\
  (isStreamingSupported ua = true ->
   isStreamingSupported
     (mkUserAgent (IE ua) true (WEBKIT ua) true (OPERA ua)) = true).
Proof.
  destruct ua as [[] [] [] [] []]; unfold isStreamingSupported; simpl;
    repeat split; try (intros; intuition congruence);
    try (intros _ []; reflexivity).
Qed.

(** ** What [SUCCESS] and [NO_DATA] mean *)
















End Reader.

Arguments PNull {Msg}.
Arguments PThrow {Msg} thrown.
Arguments EvNotify {Msg} target snap.
Arguments EvStatus {Msg} old new.
Arguments EvStatusHandler {Msg}.
Arguments EvSelect {Msg} result.
Arguments EvDetach {Msg} xhr.
Arguments EvAbort {Msg} xhr.
Arguments EvDispose {Msg} xhr.
Arguments EvEscaped {Msg} ex.
Arguments Notify {Msg} target x.
Arguments newReader {Msg PState} xhr.

(** * Concrete readers

    A toy parser makes the model run: messages are the pieces of the text
    that end in a semicolon, a piece that has not ended yet is kept for the
    next call, and an exclamation mark is a syntax error, for which the
    parser throws an [Error]. *)

Module Demo.

Definition Msg : Type := string.

Fixpoint pieces (pending data : string) : option (list string * string) :=
  match data with
  | EmptyString => Some ([], pending)
  | String c rest =>
      if Ascii.eqb c ";" then
        match pieces EmptyString rest with
        | Some (done, pending') => Some (pending :: done, pending')
        | None => None
        end
      else if Ascii.eqb c "!" then None
      else pieces (pending ++ String c EmptyString) rest
  end.

Definition newParser (kind : ParserKind) : string := EmptyString.

Definition parse (kind : ParserKind) (pending data : string)
  : string * ParseResult Msg :=
  match pieces pending data with
  | Some ([], pending') => (pending', PNull)
  | Some (done, pending') => (pending', PMessages done)
  | None => (pending, PThrow AnError)
  end.

Definition reader (ops : list (Op Msg)) : World Msg string :=
  lifetime newParser parse 1 ops.

Definition snapshot (rs : ReadyState.t) (ec : ErrorCode.t) (code : Z)
    (text : string) (ct te : option string) : XhrSnapshot :=
  mkSnapshot rs ec code text ct te.

Definition json : option string := Some "application/json"%string.

(** Handlers that always return, always throw an [Error], or throw a given
    value when they see a given status. *)
Definition calm : StatusHandler Msg := fun _ => Returns.
Definition angry : StatusHandler Msg := fun _ => Throws AnError.
Definition throws_with (thrown : Thrown) (s : Status.t)
  : StatusHandler Msg :=
  fun tr => if Status.eqb (status_of tr) s then Throws thrown else Returns.
Definition throws_at (s : Status.t) : StatusHandler Msg :=
  throws_with AnError s.
Definition accept : DataHandler Msg := fun _ _ => Returns.
Definition reject_with (thrown : Thrown) : DataHandler Msg :=
  fun _ _ => Throws thrown.
Definition reject : DataHandler Msg := reject_with AnError.

End Demo.

(** The toy parser gives the empty sequence as [null], and what it throws
    converts to a string. *)
Lemma demo_no_empty_array : no_empty_array Demo.parse.
Proof.
  intros kind st data st' msgs H. unfold Demo.parse in H.
  destruct (Demo.pieces st data) as [[[|m done] pending']|];
    try discriminate H.
  injection H as _ <-. discriminate.
Qed.

Lemma demo_plain_parser : plain_parser Demo.parse.
Proof.
  intros kind st data st' thrown H. unfold Demo.parse in H.
  destruct (Demo.pieces st data) as [[[|m done] pending']|];
    try discriminate H.
  injection H as _ <-. reflexivity.
Qed.

(** The scenario of the policy: the text arrives in two steps, the parser
    keeps the unfinished piece, and the request ends well. *)
Example two_steps :
  let w := Demo.reader
             [SetDataHandler Demo.accept;
              Notify 1 (Demo.snapshot ReadyState.INTERACTIVE ErrorCode.NO_ERROR
                          200 "a;b" Demo.json None);
              Notify 1 (Demo.snapshot ReadyState.COMPLETE ErrorCode.NO_ERROR
                          200 "a;bc;d;" Demo.json None)] in
  getStatus (fst w) = Status.SUCCESS /\
  batches (snd w) = [["bc"; "d"]; ["a"]]%string /\
  pos_ (fst w) = 7 /\ xhr_ (fst w) = None.
Proof. vm_compute. auto. Qed.

(** No bytes at completion. *)
Example no_data :
  let w := Demo.reader
             [SetDataHandler Demo.accept;
              Notify 1 (Demo.snapshot ReadyState.COMPLETE ErrorCode.NO_ERROR
                          200 EmptyString
                          (Some "application/x-protobuf"%string) None)] in
  getStatus (fst w) = Status.NO_DATA /\ batches (snd w) = [] /\
  count (@is_abort Demo.Msg) (snd w) = 1.
Proof. vm_compute. auto. Qed.

(** ** C1 *)

(** C1 as stated fails: a timeout at completion sets [TIMEOUT], and the same
    ready-state change, finding no content type, then sets [BAD_DATA]. *)
Lemma failure_status_overwritten :
  let w := Demo.reader
             [Notify 1 (Demo.snapshot ReadyState.COMPLETE ErrorCode.TIMEOUT
                          0 EmptyString None None)] in
  exists post pre,
    snd w = post ++ pre /\
    status_of pre = Status.TIMEOUT /\
    Status.failure (status_of pre) = true /\
    getStatus (fst w) = Status.BAD_DATA.
Proof.
  intros w. exists (firstn 5 (snd w)), (skipn 5 (snd w)).
  vm_compute. auto.
Qed.

Lemma failure_status_settles_witness :
  let w := Demo.reader
             [SetDataHandler Demo.accept;
              Notify 1 (Demo.snapshot ReadyState.COMPLETE ErrorCode.TIMEOUT
                          0 "a;" Demo.json None);
              Notify 1 (Demo.snapshot ReadyState.COMPLETE ErrorCode.NO_ERROR
                          200 "a;" Demo.json None)] in
  Status.failure (status_of (skipn 4 (snd w))) = true /\
  Status.failure (getStatus (fst w)) = true /\
  count (@is_decoding Demo.Msg) (firstn 4 (snd w)) = 0 /\
  xhr_ (fst w) = None.
Proof.
  intros w.
  pose proof (failure_status_settles _ _ Demo.newParser Demo.parse 1
                [SetDataHandler Demo.accept;
                 Notify 1 (Demo.snapshot ReadyState.COMPLETE ErrorCode.TIMEOUT
                             0 "a;" Demo.json None);
                 Notify 1 (Demo.snapshot ReadyState.COMPLETE ErrorCode.NO_ERROR
                             200 "a;" Demo.json None)]) as H.
  cbv zeta in H. destruct H as (H & _ & _).
  assert (Hf : Status.failure (status_of (skipn 4 (snd w))) = true)
    by (vm_compute; reflexivity).
  destruct (H (firstn 4 (snd w)) (skipn 4 (snd w))
              (eq_sym (firstn_skipn 4 (snd w))) Hf) as (H1 & H2 & _).
  split; [exact Hf | split; [exact H1 | split; [exact H2 |]]].
  vm_compute. reflexivity.
Defined.

(** ** C2 *)

(** C2 as stated fails: an abort at completion sets [CANCELLED] (8), and the
    same ready-state change, finding no content type, replaces it by
    [BAD_DATA] (5). *)
Lemma status_can_decrease :
  let w := Demo.reader
             [Notify 1 (Demo.snapshot ReadyState.COMPLETE ErrorCode.ABORT
                          0 EmptyString None None)] in
  In (EvStatus Status.CANCELLED Status.BAD_DATA) (snd w) /\
  (Status.code Status.BAD_DATA < Status.code Status.CANCELLED)%Z.
Proof. vm_compute. split; [tauto | reflexivity]. Qed.

Lemma status_moves_witness :
  let w := Demo.reader
             [Notify 1 (Demo.snapshot ReadyState.COMPLETE ErrorCode.ABORT
                          0 EmptyString None None)] in
  Status.CANCELLED = status_of (skipn 4 (snd w)) /\
  (lt_status Status.CANCELLED Status.BAD_DATA \/
   (Status.failure Status.CANCELLED = true /\
    Status.failure Status.BAD_DATA = true /\
    Status.CANCELLED <> Status.BAD_DATA) \/
   (Status.CANCELLED = Status.SUCCESS /\ Status.BAD_DATA = Status.ACTIVE /\
    existsb (@is_escaped Demo.Msg) (skipn 4 (snd w)) = true)).
Proof.
  intros w.
  pose proof (status_moves _ _ Demo.newParser Demo.parse 1
                [Notify 1 (Demo.snapshot ReadyState.COMPLETE ErrorCode.ABORT
                             0 EmptyString None None)]) as H.
  cbv zeta in H. destruct H as (H & _ & _).
  apply (H (firstn 3 (snd w)) Status.CANCELLED Status.BAD_DATA
           (skipn 4 (snd w))).
  vm_compute. reflexivity.
Defined.

(** The third kind of write: a status handler throws a Symbol when it sees
    [SUCCESS]; the [catch] block cannot build its message, the exception
    escapes and the teardown is skipped.  The next ready-state change finds
    [SUCCESS] and writes [ACTIVE]. *)
Example success_replaced_by_active :
  let w := Demo.reader
             [SetStatusHandler (Demo.throws_with ASymbol Status.SUCCESS);
              Notify 1 (Demo.snapshot ReadyState.COMPLETE ErrorCode.NO_ERROR
                          200 "a;" Demo.json None);
              Notify 1 (Demo.snapshot ReadyState.INTERACTIVE
                          ErrorCode.NO_ERROR 200 "a;b;" Demo.json None)] in
  In (EvStatus Status.SUCCESS Status.ACTIVE) (snd w) /\
  getStatus (fst w) = Status.ACTIVE /\
  xhr_ (fst w) = Some 1 /\
  existsb (@is_escaped Demo.Msg) (snd w) = true.
Proof. vm_compute. tauto. Qed.

(** ** C3 *)

Lemma delivery_follows_parse_witness :
  no_empty_array Demo.parse /\
  let w := Demo.reader
             [SetDataHandler Demo.accept;
              Notify 1 (Demo.snapshot ReadyState.INTERACTIVE
                          ErrorCode.NO_ERROR 200 "a;b" Demo.json None);
              Notify 1 (Demo.snapshot ReadyState.INTERACTIVE
                          ErrorCode.NO_ERROR 200 "a;bc" Demo.json None);
              Notify 1 (Demo.snapshot ReadyState.COMPLETE ErrorCode.NO_ERROR
                          200 "a;bc;d;" Demo.json None)] in
  batches (snd w) = [["bc"; "d"]; ["a"]]%string /\
  forall post msgs pre,
    snd w = post ++ EvData msgs :: pre -> msgs <> [].
Proof.
  split; [exact demo_no_empty_array|].
  intros w. split; [reflexivity|].
  intros post msgs pre E.
  apply (proj2 (proj2 (delivery_follows_parse _ _ Demo.newParser Demo.parse
                         demo_no_empty_array))
           1 _ post msgs pre E).
Defined.

(** ** C5 *)

(** C5 as stated fails: status code 500 with a content type no parser
    supports ends in [BAD_DATA]. *)
Lemma bad_content_type_hides_error_code :
  let w := Demo.reader
             [Notify 1 (Demo.snapshot ReadyState.COMPLETE ErrorCode.NO_ERROR
                          500 "<html>" (Some "text/html"%string) None)] in
  getStatus (fst w) = Status.BAD_DATA /\
  getStatus (fst w) <> Status.XHR_ERROR.
Proof. vm_compute. split; [reflexivity | discriminate]. Qed.

Lemma error_status_code_at_completion_witness :
  let out := readyStateChangeHandler_ Demo.newParser Demo.parse 1
               (Demo.snapshot ReadyState.COMPLETE ErrorCode.NO_ERROR
                  500 "a;" Demo.json None)
               (newReader 1, []) in
  fst out = Ok tt /\
  getStatus (fst (snd out)) = Status.XHR_ERROR /\
  xhr_ (fst (snd out)) = None.
Proof.
  intros out.
  apply (proj2 (proj2
           (error_status_code_at_completion _ _ Demo.newParser Demo.parse
              (Demo.snapshot ReadyState.COMPLETE ErrorCode.NO_ERROR
                 500 "a;" Demo.json None)
              (newReader 1) [] 1
              eq_refl eq_refl eq_refl eq_refl eq_refl eq_refl))).
  - exact I.
  - right. vm_compute. discriminate.
Defined.

(** ** C6 *)

Lemma cursor_monotone_and_bounded_witness :
  let first := Demo.snapshot ReadyState.INTERACTIVE ErrorCode.NO_ERROR
                 200 "a;b" Demo.json None in
  let second := Demo.snapshot ReadyState.COMPLETE ErrorCode.NO_ERROR
                  200 "a;bc;d;" Demo.json None in
  nondecreasing (text_lengths [@Notify Demo.Msg 1 first; Notify 1 second])
  = true /\
  pos_ (fst (Demo.reader ([Notify 1 first] ++ [Notify 1 second])))
  <= String.length (responseText second).
Proof.
  intros first second. split; [reflexivity|].
  apply (proj1 (proj2 (cursor_monotone_and_bounded
                         _ _ Demo.newParser Demo.parse 1
                         [Notify 1 first; Notify 1 second] eq_refl))
           [Notify 1 first] 1 second []).
  reflexivity.
Defined.

(** ** C7 *)

(** The data handler throws at its first batch. *)
Lemma data_handler_exception_is_bad_data_witness :
  let out := readyStateChangeHandler_ Demo.newParser Demo.parse 1
               (Demo.snapshot ReadyState.INTERACTIVE ErrorCode.NO_ERROR
                  200 "a;" Demo.json None)
               (mkReader (Some 1) (Some (JsonStreamParser, EmptyString)) 0
                         Status.INIT None (Some Demo.reject) true, []) in
  fst out = Ok tt /\
  getStatus (fst (snd out)) = Status.BAD_DATA /\
  xhr_ (fst (snd out)) = None /\
  exists d, snd (snd out) = d ++ [] /\
            In (EvData ["a"%string]) d /\
            In (EvStatus Status.INIT Status.BAD_DATA) d.
Proof.
  intros out.
  apply (proj2
           (proj1 (data_handler_exception_is_bad_data
              _ _ Demo.newParser Demo.parse
              (Demo.snapshot ReadyState.INTERACTIVE ErrorCode.NO_ERROR
                 200 "a;" Demo.json None)
              (mkReader (Some 1) (Some (JsonStreamParser, EmptyString)) 0
                        Status.INIT None (Some Demo.reject) true)
              [] 1 JsonStreamParser EmptyString EmptyString ["a"%string]
              Demo.reject AnError
              eq_refl eq_refl eq_refl eq_refl eq_refl eq_refl
              (Nat.lt_0_succ 1) eq_refl eq_refl)
              eq_refl)).
  exact I.
Defined.

(** The same from construction: the first ready-state change selects the
    parser, the data handler throws, and the reader ends with [BAD_DATA]. *)
Example data_handler_throws :
  let w := Demo.reader
             [SetDataHandler Demo.reject;
              Notify 1 (Demo.snapshot ReadyState.INTERACTIVE
                          ErrorCode.NO_ERROR 200 "a;" Demo.json None)] in
  In (EvData ["a"%string]) (snd w) /\
  getStatus (fst w) = Status.BAD_DATA /\
  getStatus (fst w) <> Status.HANDLER_EXCEPTION /\
  xhr_ (fst w) = None /\
  existsb (@is_escaped Demo.Msg) (snd w) = false.
Proof.
  vm_compute. repeat split; try tauto; discriminate.
Qed.

(** A data handler that throws a Symbol: the [catch] around the parser
    cannot build its message, so the [TypeError] reaches the [catch] of the
    ready-state handler and the reader ends with [HANDLER_EXCEPTION],
    without any status handler. *)
Example data_handler_throws_symbol :
  let w := Demo.reader
             [SetDataHandler (Demo.reject_with ASymbol);
              Notify 1 (Demo.snapshot ReadyState.INTERACTIVE
                          ErrorCode.NO_ERROR 200 "a;" Demo.json None)] in
  getStatus (fst w) = Status.HANDLER_EXCEPTION /\
  xhr_ (fst w) = None /\
  existsb (@is_escaped Demo.Msg) (snd w) = false.
Proof. vm_compute. auto. Qed.

(** A data handler that throws an object whose [toString] throws a Symbol:
    neither [catch] block can build its message, the exception leaves the
    ready-state handler, and the reader keeps its status and its
    transport. *)
Example data_handler_exception_escapes :
  let w := Demo.reader
             [SetDataHandler (Demo.reject_with (AnObject ASymbol));
              Notify 1 (Demo.snapshot ReadyState.INTERACTIVE
                          ErrorCode.NO_ERROR 200 "a;" Demo.json None)] in
  getStatus (fst w) = Status.INIT /\
  xhr_ (fst w) = Some 1 /\
  count (@is_abort Demo.Msg) (snd w) = 0 /\
  existsb (@is_escaped Demo.Msg) (snd w) = true.
Proof. vm_compute. auto. Qed.

(** A status handler that throws every time: the exception thrown while
    [HANDLER_EXCEPTION] is reported leaves the ready-state handler, and the
    reader keeps its transport. *)
Lemma status_handler_exception_escapes :
  let w := Demo.reader
             [SetStatusHandler Demo.angry;
              Notify 1 (Demo.snapshot ReadyState.INTERACTIVE
                          ErrorCode.NO_ERROR 200 "a;" Demo.json None)] in
  getStatus (fst w) = Status.HANDLER_EXCEPTION /\
  xhr_ (fst w) = Some 1 /\
  count (@is_abort Demo.Msg) (snd w) = 0 /\
  existsb (@is_escaped Demo.Msg) (snd w) = true.
Proof. vm_compute. auto. Qed.

(** ** C10 *)

(** C10 as stated fails: a status handler that throws when it sees [TIMEOUT]
    ends the ready-state change before any parser is looked for. *)
Lemma handler_exception_hides_selection_failure :
  let w := Demo.reader
             [SetStatusHandler (Demo.throws_at Status.TIMEOUT);
              Notify 1 (Demo.snapshot ReadyState.COMPLETE ErrorCode.TIMEOUT
                          0 EmptyString None None)] in
  getStatus (fst w) = Status.HANDLER_EXCEPTION /\
  getStatus (fst w) <> Status.BAD_DATA /\
  count (@is_attempt Demo.Msg) (snd w) = 0.
Proof. vm_compute. repeat split; discriminate. Qed.

(** A status handler that throws a Symbol when it sees [TIMEOUT]: the
    exception escapes, and the reader is left with [TIMEOUT] and its
    transport. *)
Example timeout_kept_after_escape :
  let w := Demo.reader
             [SetStatusHandler (Demo.throws_with ASymbol Status.TIMEOUT);
              Notify 1 (Demo.snapshot ReadyState.COMPLETE ErrorCode.TIMEOUT
                          0 EmptyString None None)] in
  getStatus (fst w) = Status.TIMEOUT /\
  xhr_ (fst w) = Some 1 /\
  count (@is_attempt Demo.Msg) (snd w) = 0 /\
  existsb (@is_escaped Demo.Msg) (snd w) = true.
Proof. vm_compute. auto. Qed.

Lemma selection_failure_overrides_request_failure_witness :
  let out := readyStateChangeHandler_ Demo.newParser Demo.parse 1
               (Demo.snapshot ReadyState.COMPLETE ErrorCode.TIMEOUT
                  0 EmptyString None None)
               (newReader 1, []) in
  fst out = Ok tt /\
  getStatus (fst (snd out)) = Status.BAD_DATA /\
  xhr_ (fst (snd out)) = None /\
  exists d, snd (snd out) = d ++ [] /\
            In (EvStatus Status.TIMEOUT Status.BAD_DATA) d /\
            In (EvSelect None) d.
Proof.
  intros out.
  apply (proj2
           (selection_failure_overrides_request_failure
              _ _ Demo.newParser Demo.parse
              (Demo.snapshot ReadyState.COMPLETE ErrorCode.TIMEOUT
                 0 EmptyString None None)
              (newReader 1) [] 1
              eq_refl eq_refl eq_refl eq_refl eq_refl)).
  exact I.
Defined.

(** ** C4 *)



(** ** C8 *)

(** The scenario of the policy: a transfer encoding that is not supported
    ends in [BAD_DATA] with one [abort] and one [dispose], also when more
    ready-state changes follow. *)
Example unsupported_encoding :
  let x := Demo.snapshot ReadyState.INTERACTIVE ErrorCode.NO_ERROR 200 "abc"
             (Some "application/x-protobuf"%string) (Some "gzip"%string) in
  let w := Demo.reader [Notify 1 x; Notify 1 x] in
  getStatus (fst w) = Status.BAD_DATA /\
  count (@is_abort Demo.Msg) (snd w) = 1 /\
  count (@is_dispose Demo.Msg) (snd w) = 1 /\
  xhr_ (fst w) = None.
Proof. vm_compute. auto. Qed.

(** * More of the reader, on concrete runs *)

(** The headers arrive, another transport completes, and the transport
    becomes interactive without text: the reader has done nothing. *)
Lemma early_changes_are_ignored_witness :
  let ops :=
    [SetDataHandler Demo.accept;
     Notify 1 (Demo.snapshot ReadyState.LOADED ErrorCode.NO_ERROR
                 200 EmptyString Demo.json None);
     Notify 2 (Demo.snapshot ReadyState.COMPLETE ErrorCode.NO_ERROR
                 200 "a;" Demo.json None);
     Notify 1 (Demo.snapshot ReadyState.INTERACTIVE ErrorCode.NO_ERROR
                 200 EmptyString Demo.json None)] in
  forallb (passes 1) ops = true /\
  getStatus (fst (Demo.reader ops)) = Status.INIT /\
  getXhr (fst (Demo.reader ops)) = Some 1 /\
  forallb (@is_notify Demo.Msg) (snd (Demo.reader ops)) = true.
Proof.
  intros ops. split; [reflexivity|].
  destruct (early_changes_are_ignored _ _ Demo.newParser Demo.parse 1 ops
              eq_refl) as (H1 & H2 & _ & _ & _ & H3).
  split; [exact H1 | split; [exact H2 | exact H3]].
Defined.

(** A status handler that throws, with a parser that throws: the exception
    leaves the ready-state handler and the transport is still held. *)
Example exception_leaves_the_handler :
  let out := readyStateChangeHandler_ Demo.newParser Demo.parse 1
               (Demo.snapshot ReadyState.INTERACTIVE ErrorCode.NO_ERROR
                  200 "a!" Demo.json None)
               (mkReader (Some 1) None 0 Status.INIT (Some Demo.angry) None
                         true, []) in
  fst out = Throw unit AnError /\
  getStatus (fst (snd out)) = Status.HANDLER_EXCEPTION /\
  getXhr (fst (snd out)) = Some 1.
Proof. vm_compute. auto. Qed.

(** The text arrives in two steps. *)
Lemma parser_is_fed_the_text_witness :
  let ops :=
    [SetDataHandler Demo.accept;
     Notify 1 (Demo.snapshot ReadyState.INTERACTIVE ErrorCode.NO_ERROR
                 200 "a;b" Demo.json None);
     Notify 1 (Demo.snapshot ReadyState.COMPLETE ErrorCode.NO_ERROR
                 200 "a;bc;d;" Demo.json None)] in
  extending (texts ops) = true /\
  pos_ (fst (Demo.reader ops)) = 7 /\
  fed (snd (Demo.reader ops)) = "a;bc;d;"%string.
Proof.
  intros ops. split; [reflexivity|].
  destruct (parser_is_fed_the_text _ _ Demo.newParser Demo.parse 1 ops
              eq_refl) as (_ & _ & _ & H).
  split; [reflexivity | apply H; reflexivity].
Defined.

(** A timeout with status code 200 and a body. *)
Lemma request_failure_is_final_witness :
  let out := readyStateChangeHandler_ Demo.newParser Demo.parse 1
               (Demo.snapshot ReadyState.COMPLETE ErrorCode.TIMEOUT
                  200 "a;" Demo.json None)
               (newReader 1, []) in
  fst out = Ok tt /\
  getStatus (fst (snd out)) = Status.TIMEOUT /\
  getXhr (fst (snd out)) = None /\
  pos_ (fst (snd out)) = 0.
Proof.
  intros out.
  destruct (request_failure_is_final _ _ Demo.newParser Demo.parse
              (Demo.snapshot ReadyState.COMPLETE ErrorCode.TIMEOUT
                 200 "a;" Demo.json None)
              (newReader 1) [] 1 Status.TIMEOUT eq_refl eq_refl I)
    as (H1 & H2 & H3 & H4 & _).
  - right. vm_compute. discriminate.
  - split; [exact H1 | split; [exact H2 | split; [exact H3 | exact H4]]].
Defined.

(** The first part of a text, with one whole message in it. *)
Lemma new_text_is_decoded_witness :
  let out := readyStateChangeHandler_ Demo.newParser Demo.parse 1
               (Demo.snapshot ReadyState.INTERACTIVE ErrorCode.NO_ERROR
                  200 "a;b" Demo.json None)
               (mkReader (Some 1) None 0 Status.INIT None (Some Demo.accept)
                         true, []) in
  fst out = Ok tt /\
  getStatus (fst (snd out)) = Status.ACTIVE /\
  getXhr (fst (snd out)) = Some 1 /\
  pos_ (fst (snd out)) = 3 /\
  parser_ (fst (snd out)) = Some (JsonStreamParser, "b"%string).
Proof.
  intros out.
  destruct (new_text_is_decoded _ _ Demo.newParser Demo.parse
              (Demo.snapshot ReadyState.INTERACTIVE ErrorCode.NO_ERROR
                 200 "a;b" Demo.json None)
              (mkReader (Some 1) None 0 Status.INIT None (Some Demo.accept)
                        true)
              [] 1 JsonStreamParser EmptyString "b"%string
              (PMessages ["a"%string])
              eq_refl eq_refl eq_refl eq_refl eq_refl eq_refl)
    as (H1 & H2 & H3 & H4 & H5 & _).
  - intros thrown. discriminate.
  - exact I.
  - intros msgs tr. reflexivity.
  - split; [exact H1 | split; [exact H2 | split; [exact H3 |]]].
    split; [exact H4 | exact H5].
Defined.

(** A text the parser rejects. *)
Lemma parser_exception_is_bad_data_witness :
  let out := readyStateChangeHandler_ Demo.newParser Demo.parse 1
               (Demo.snapshot ReadyState.INTERACTIVE ErrorCode.NO_ERROR
                  200 "a!" Demo.json None)
               (mkReader (Some 1) None 0 Status.INIT None (Some Demo.accept)
                         true, []) in
  fst out = Ok tt /\
  getStatus (fst (snd out)) = Status.BAD_DATA /\
  getXhr (fst (snd out)) = None /\
  pos_ (fst (snd out)) = 2 /\
  count (@is_delivery Demo.Msg) (snd (snd out)) = 0.
Proof.
  intros out.
  destruct (parser_exception_is_bad_data _ _ Demo.newParser Demo.parse
              (Demo.snapshot ReadyState.INTERACTIVE ErrorCode.NO_ERROR
                 200 "a!" Demo.json None)
              (mkReader (Some 1) None 0 Status.INIT None (Some Demo.accept)
                        true)
              [] 1 JsonStreamParser EmptyString EmptyString AnError
              eq_refl eq_refl eq_refl eq_refl eq_refl
              (Nat.lt_0_succ 1) eq_refl)
    as (H0 & H4 & H & _).
  destruct (H eq_refl) as (_ & Hq).
  destruct (Hq I) as (H1 & H2 & H3 & _).
  split; [exact H1 | split; [exact H2 | split; [exact H3 |]]].
  split; [exact H4 | exact H0].
Defined.

(** A parser that throws a Symbol. *)
Example parser_throws_symbol :
  let parse := fun (kind : ParserKind) (st data : string) =>
                 (st, @PThrow Demo.Msg ASymbol) in
  let out := readyStateChangeHandler_ Demo.newParser parse 1
               (Demo.snapshot ReadyState.INTERACTIVE ErrorCode.NO_ERROR
                  200 "a" Demo.json None)
               (newReader 1, []) in
  fst out = Ok tt /\
  getStatus (fst (snd out)) = Status.HANDLER_EXCEPTION /\
  getXhr (fst (snd out)) = None.
Proof. vm_compute. auto. Qed.

(** Headers in capitals. *)
Lemma selection_ignores_case_witness :
  getParserByResponseHeader_
    (Some "Application/X-Protobuf"%string) (Some "Base64"%string)
  = getParserByResponseHeader_
      (Some "application/x-protobuf"%string) (Some "BASE64"%string).
Proof.
  apply (selection_ignores_case
           (Some "Application/X-Protobuf"%string)
           (Some "application/x-protobuf"%string)
           (Some "Base64"%string) (Some "BASE64"%string));
    reflexivity.
Defined.

(** A parser that throws and a data handler that throws, both an [Error],
    with a status handler that does not. *)
Lemma handler_exception_needs_status_handler_witness :
  let ops :=
    [SetStatusHandler Demo.calm; SetDataHandler Demo.reject;
     Notify 1 (Demo.snapshot ReadyState.INTERACTIVE ErrorCode.NO_ERROR
                 200 "a;b!" Demo.json None)] in
  plain_parser Demo.parse /\ polite ops /\ tame ops /\
  getStatus (fst (Demo.reader ops)) = Status.BAD_DATA /\
  Status.eqb (getStatus (fst (Demo.reader ops))) Status.HANDLER_EXCEPTION
  = false.
Proof.
  intros ops.
  assert (Hp : polite ops).
  { intros h [H|[H|[H|[]]]]; try discriminate H.
    injection H as <-. intros tr. reflexivity. }
  assert (Ht : tame ops).
  { intros h [H|[H|[H|[]]]]; try discriminate H.
    injection H as <-. intros msgs tr thrown E.
    injection E as <-. reflexivity. }
  split; [exact demo_plain_parser|].
  split; [exact Hp | split; [exact Ht | split; [reflexivity|]]].
  apply (handler_exception_needs_status_handler
           _ _ Demo.newParser Demo.parse 1 ops demo_plain_parser Hp Ht).
Defined.

(** Completion after the whole text has been parsed. *)
Lemma completion_tears_down_witness :
  let ops :=
    [SetStatusHandler Demo.calm;
     Notify 1 (Demo.snapshot ReadyState.INTERACTIVE ErrorCode.NO_ERROR
                 200 "a;" Demo.json None)] in
  let x := Demo.snapshot ReadyState.COMPLETE ErrorCode.NO_ERROR
             200 "a;" Demo.json None in
  plain_parser Demo.parse /\ polite ops /\ tame ops /\
  getStatus (fst (Demo.reader (ops ++ [Notify 1 x]))) = Status.SUCCESS /\
  getXhr (fst (Demo.reader (ops ++ [Notify 1 x]))) = None /\
  listening_ (fst (Demo.reader (ops ++ [Notify 1 x]))) = false.
Proof.
  intros ops x.
  assert (Hp : polite ops).
  { intros h [H|[H|[]]]; try discriminate H.
    injection H as <-. intros tr. reflexivity. }
  assert (Ht : tame ops).
  { intros h [H|[H|[]]]; discriminate H. }
  split; [exact demo_plain_parser|].
  split; [exact Hp | split; [exact Ht | split; [reflexivity|]]].
  destruct (completion_tears_down _ _ Demo.newParser Demo.parse 1 ops x
              demo_plain_parser Hp Ht eq_refl) as (H1 & _ & H3).
  split; [exact H1 | exact H3].
Defined.

